(** * BoerenbridgeAI: the MCCFR regret-minimisation engine (src/MCCFR.py)

    A shallow embedding of the class [MCCFR]: the information-set store
    ([infoset_dict]), the three recursive traversals ([chance_cfr],
    [external_cfr], [evaluate_helper]), the training loops, the exact
    evaluator and the exploitability estimator.

    Conventions.
    - Numbers.  The program computes with numpy doubles; they are idealised
      here as exact rationals [Q].  The field laws (up to [Qeq]) are used
      where a strategy has to sum to 1: in the regret-matching lemmas, and
      to see that [random.choices] gets a positive total weight.  The other
      theorems are equalities of terms built by the same operations in the
      same order.
    - Effects.  A Python call either returns, raises, or (in the model only)
      exhausts the recursion budget: [outcome].  Stateful code lives in the
      state-and-exception monad [M S].
    - The dictionary [self.infoset_dict] is a [gmap] from info keys to
      infosets.  An [Infoset] object is reachable only through its dictionary
      entry, so a local reference [infoset] is modelled by its key and
      [deepcopy] of the dictionary by the dictionary value itself.
    - The game object ([self.game]), the abstraction function and the random
      generator are collaborators of the class: they are parameters of the
      development. *)

From Stdlib Require Import QArith Qminmax Qabs Lia Lqa.
From stdpp Require Import base option list gmap.

Local Open Scope Q_scope.
Local Open Scope nat_scope.

(** ** Outcomes and the state-and-exception monad *)

Inductive exn : Type :=
| IndexError
| ValueError
| ZeroDivisionError.

Inductive outcome (A : Type) : Type :=
| Ok (a : A)
| Raise (e : exn)
| OutOfFuel.

Arguments Ok {A} a.
Arguments Raise {A} e.
Arguments OutOfFuel {A}.

Definition obind {A B} (o : outcome A) (k : A → outcome B) : outcome B :=
  match o with
  | Ok a => k a
  | Raise e => Raise e
  | OutOfFuel => OutOfFuel
  end.

Definition omap {A B} (f : A → B) (o : outcome A) : outcome B :=
  obind o (λ a, Ok (f a)).

Definition M (S A : Type) : Type := S → outcome (A * S).

Definition ret {S A} (a : A) : M S A := λ s, Ok (a, s).

Definition bind {S A B} (m : M S A) (k : A → M S B) : M S B :=
  λ s, match m s with
       | Ok (a, s') => k a s'
       | Raise e => Raise e
       | OutOfFuel => OutOfFuel
       end.

Definition raise {S A} (e : exn) : M S A := λ _, Raise e.
Definition out_of_fuel {S A} : M S A := λ _, OutOfFuel.
Definition get {S} : M S S := λ s, Ok (s, s).
Definition put {S} (s : S) : M S unit := λ _, Ok (tt, s).
Definition modify {S} (f : S → S) : M S unit := λ s, Ok (tt, f s).

(** A pure computation that may raise, run inside the monad. *)
Definition lift {S A} (o : outcome A) : M S A :=
  λ s, match o with
       | Ok a => Ok (a, s)
       | Raise e => Raise e
       | OutOfFuel => OutOfFuel
       end.

(** A computation on a component of the state. *)
Definition zoom {S T A} (proj : S → T) (upd : T → S → S) (m : M T A) : M S A :=
  λ s, match m (proj s) with
       | Ok (a, t) => Ok (a, upd t s)
       | Raise e => Raise e
       | OutOfFuel => OutOfFuel
       end.

Notation "'let!' x ':=' m 'in' k" := (bind m (λ x, k))
  (at level 10, x pattern, m at level 100, k at level 200,
   format "'[v' 'let!'  x  ':='  m  'in' '/' k ']'").
Notation "'let?' x ':=' o 'in' k" := (obind o (λ x, k))
  (at level 10, x pattern, o at level 100, k at level 200,
   format "'[v' 'let?'  x  ':='  o  'in' '/' k ']'").

(** [for x in l: acc = body(acc, x)] *)
Fixpoint for_loop {S A B} (body : B → A → M S B) (l : list A) (acc : B) : M S B :=
  match l with
  | [] => ret acc
  | x :: l' => let! acc' := body acc x in for_loop body l' acc'
  end.

(** [enumerate(l)] *)
Definition enumerate {A} (l : list A) : list (nat * A) :=
  zip (seq 0 (length l)) l.

(** ** Vectors of numbers *)

(** [v[i]] for reading: an index out of range raises [IndexError]. *)
Definition index {A} (v : list A) (i : nat) : outcome A :=
  match v !! i with
  | Some x => Ok x
  | None => Raise IndexError
  end.

(** [v[i] = x]: an index out of range raises [IndexError]. *)
Definition store_at {A} (v : list A) (i : nat) (x : A) : outcome (list A) :=
  if decide (i < length v) then Ok (<[i := x]> v) else Raise IndexError.

(** [np.zeros(n)] and [np.ones(n)] *)
Definition zeros (n : nat) : list Q := replicate n 0%Q.
Definition ones (n : nat) : list Q := replicate n 1%Q.

(** [sum(v)]: accumulated from the left, starting at 0. *)
Definition qsum (v : list Q) : Q := fold_left Qplus v 0%Q.

(** [a.dot(b)]: shapes that differ raise [ValueError]. *)
Definition dot (a b : list Q) : outcome Q :=
  if decide (length a = length b)
  then Ok (qsum (zip_with Qmult a b))
  else Raise ValueError.

(** [a / b] for a number [a] and an integer count [b]. *)
Definition py_div (a : Q) (b : nat) : outcome Q :=
  match b with
  | O => Raise ZeroDivisionError
  | S _ => Ok (a / inject_Z (Z.of_nat b))%Q
  end.

(** [math.comb(n, k)]: a negative argument raises [ValueError]. *)
Fixpoint choose (n k : nat) : nat :=
  match k, n with
  | O, _ => 1
  | S _, O => 0
  | S k', S n' => choose n' k' + choose n' k
  end.

Definition math_comb (n k : Z) : outcome nat :=
  if decide (n < 0 ∨ k < 0)%Z then Raise ValueError
  else Ok (choose (Z.to_nat n) (Z.to_nat k)).

(** ** Information sets *)

Module Infoset.

Record t : Type := mk {
  cumulative_regrets : list Q;
  strategy_sum : list Q
}.

(** Modelled from the spec: the class [Infoset] (module [Infoset], imported
    by src/MCCFR.py) is not among the sources.  Spec, data model: both
    vectors have [num_actions] entries and are "initialized to zero on
    first creation"; [num_actions] is the last component of the key. *)
Definition new (num_actions : nat) : t :=
  mk (zeros num_actions) (zeros num_actions).

(** Modelled from the spec: the normalisation shared by regret matching and
    the average strategy: "if sum(positive_regret) > 0, strategy[a] =
    positive_regret[a] / sum; else uniform strategy[a] = 1/num_actions". *)
Definition normalize (v : list Q) : list Q :=
  let total := qsum v in
  if Qlt_le_dec 0 total
  then map (λ x, x / total)%Q v
  else replicate (length v) (1 / inject_Z (Z.of_nat (length v)))%Q.

(** Modelled from the spec: "for each action a, positive_regret[a] =
    max(cumulative_regret[a], 0)", then normalised. *)
Definition regret_matching (i : t) : list Q :=
  normalize (map (λ r, Qmax r 0) (cumulative_regrets i)).

(** Modelled from the spec: "average strategy normalizes strategy_sum the
    same way as regret matching (uniform fallback if all-zero)". *)
Definition get_average_strategy (i : t) : list Q :=
  normalize (strategy_sum i).

(** Modelled from the spec: "strategy_sum[a] += reach_prob_of_acting_player
    * strategy[a]", with the current regret-matching strategy. *)
Definition update_strategy_sum (reach_prob : Q) (i : t) : t :=
  mk (cumulative_regrets i)
     (zip_with Qplus (strategy_sum i)
        (map (Qmult reach_prob) (regret_matching i))).

(** [self.cumulative_regrets[ix] += delta] *)
Definition add_regret (ix : nat) (delta : Q) (i : t) : outcome t :=
  let? r := index (cumulative_regrets i) ix in
  Ok (mk (<[ix := (r + delta)%Q]> (cumulative_regrets i)) (strategy_sum i)).

End Infoset.

(** ** The collaborators: game, abstraction function, random generator *)

(** [random.choices(population, weights)[0]], as the standard library does
    it: cumulative weights, one draw [random() * total], and the first
    position whose cumulative weight exceeds the draw (capped at the last
    position). *)
Fixpoint accumulate_from (acc : Q) (w : list Q) : list Q :=
  match w with
  | [] => []
  | x :: w' => (acc + x)%Q :: accumulate_from (acc + x)%Q w'
  end.

Definition accumulate (w : list Q) : list Q :=
  match w with
  | [] => []
  | x :: w' => x :: accumulate_from x w'
  end.

Fixpoint bisect_from (a : list Q) (x : Q) (lo hi : nat) : nat :=
  match a with
  | [] => hi
  | y :: a' =>
      if decide (hi ≤ lo) then hi
      else if Qlt_le_dec x y then lo
      else bisect_from a' x (S lo) hi
  end.

Definition bisect (a : list Q) (x : Q) (hi : nat) : nat := bisect_from a x 0 hi.

(** The generator behind the module [random]: [random()] draws a number in
    [0, 1) and advances the generator. *)
Class RandomSource (Rng : Type) := random : Rng → Q * Rng.

Section Choices.
Context {Rng A : Type} `{!RandomSource Rng}.

Definition choices (population : list A) (weights : list Q) : M Rng A :=
  let n := length population in
  let cum_weights := accumulate weights in
  if decide (length cum_weights = n) then
    match last cum_weights with
    | None => raise IndexError
    | Some total =>
        if Qlt_le_dec 0 total then
          let! u := (λ g, Ok (random g)) in
          lift (index population (bisect cum_weights (u * total)%Q (n - 1)))
        else raise ValueError
    end
  else raise ValueError.
End Choices.

(** [list(l).index(x)]: the first position of [x]; [ValueError] when absent. *)
Definition list_index `{EqDecision A} (l : list A) (x : A) : outcome nat :=
  match list_find (λ y, y = x) l with
  | Some (i, _) => Ok i
  | None => Raise ValueError
  end.

(** [itertools.combinations(l, r)], in its order of generation. *)
Fixpoint combinations {A} (l : list A) (r : nat) : list (list A) :=
  match r, l with
  | O, _ => [[]]
  | S _, [] => []
  | S r', x :: l' => map (cons x) (combinations l' r') ++ combinations l' r
  end.

(** The two nested loops of [evaluate] over a deck [l] with hands of [h]
    cards: choose the dealt cards, choose the first hand among them; the
    second hand is the rest. *)
Definition hand_pairs `{EqDecision A} (l : list A) (h : nat)
  : list (list A * list A) :=
  dealt_cards ← combinations l (h * 2);
  hand1 ← combinations dealt_cards h;
  let hand2 := filter (λ card, card ∉ hand1) dealt_cards in
  [(hand1, hand2)].

(** [sorted(l)]: a stable sort with the elements' own [<]. *)
Fixpoint sorted_insert {A} (lt : A → A → bool) (x : A) (l : list A) : list A :=
  match l with
  | [] => [x]
  | y :: l' => if lt y x then y :: sorted_insert lt x l' else x :: l
  end.

Definition sorted {A} (lt : A → A → bool) (l : list A) : list A :=
  foldr (sorted_insert lt) [] l.

(** The game object.  A state is the tuple the game hands out: component 0
    is the acting player, component 3 the terminal flag. *)
Class Game (Card Action GameState SuitHand SuitHist Mean Rng : Type) := {
  player : GameState → nat;
  terminal : GameState → bool;
  get_payoff : GameState → Q;
  get_possible_actions : GameState → list Action;
  get_next_game_state : GameState → Action → GameState;
  translate_suits : GameState → SuitHand * SuitHist;
  mean : Mean;
  (** [sample_new_game()]: a random deal. *)
  sample_new_game : Rng → GameState * Rng;
  (** [sample_new_game(hands=hands)]: the deal is given. *)
  sample_new_game_hands : list (list Card) → GameState;
  (** [game.deck.deck2] and [game.handsize] *)
  deck2 : list Card;
  handsize : nat;
  (** the cards' [<], used by [sorted] *)
  card_lt : Card → Card → bool
}.

(** [self.abstraction_function] *)
Class Abstraction (SuitHand SuitHist Action Mean AbsCard AbsHist : Type) :=
  abstraction_function :
    SuitHand → SuitHist → list Action → Mean → list AbsCard * AbsHist.

(** ** The class MCCFR *)

Section MCCFR.
Context {Card Action GameState SuitHand SuitHist Mean Rng AbsCard AbsHist : Type}.
Context `{!EqDecision Card, !EqDecision Action}.
Context `{!EqDecision AbsCard, !Countable AbsCard}.
Context `{!EqDecision AbsHist, !Countable AbsHist}.

(** [self.game], [self.abstraction_function] and the module [random] *)
Context `{!Game Card Action GameState SuitHand SuitHist Mean Rng}.
Context `{!Abstraction SuitHand SuitHist Action Mean AbsCard AbsHist}.
Context `{!RandomSource Rng}.

(** An info key: (player, frozenset of the abstracted hand, abstracted
    history, number of possible actions). *)
Definition InfoKey : Type := nat * gset AbsCard * AbsHist * nat.

Definition num_actions (k : InfoKey) : nat := k.2.

(** [self.infoset_dict] *)
Abbreviation Store := (gmap InfoKey Infoset.t).

(** The state of a run: the dictionary and the generator. *)
Abbreviation World := (Store * Rng)%type.

Definition on_dict {A} (m : M Store A) : M World A :=
  zoom fst (λ d w, (d, w.2)) m.
Definition on_rng {A} (m : M Rng A) : M World A :=
  zoom snd (λ g w, (w.1, g)) m.

(** The object a key refers to: its entry, once [get_infoset] made it. *)
Definition deref (d : Store) (k : InfoKey) : Infoset.t :=
  default (Infoset.new (num_actions k)) (d !! k).

Definition get_infoset (info_key : InfoKey) : M Store Infoset.t :=
  λ d, match d !! info_key with
       | Some i => Ok (i, d)
       | None =>
           let i := Infoset.new (num_actions info_key) in
           Ok (i, <[info_key := i]> d)
       end.

(** A method call that mutates the infoset behind a key. *)
Definition mutate_infoset (k : InfoKey) (f : Infoset.t → outcome Infoset.t)
  : M Store unit :=
  λ d, let? i := f (deref d k) in Ok (tt, <[k := i]> d).

Definition get_info_key (game_state : GameState) : InfoKey :=
  let possible_action := get_possible_actions game_state in
  let possible_action_len := length possible_action in
  let '(new_hand, new_hist) := translate_suits game_state in
  let '(abs_hand, abs_hist) :=
    abstraction_function new_hand new_hist possible_action mean in
  (player game_state, list_to_set abs_hand, abs_hist, possible_action_len).

(** [payoff = -1 ... if game_state[0] == next_game_state[0]: payoff = 1] *)
Definition flip_payoff (payoff : Q) (game_state next_game_state : GameState) : Q :=
  if decide (player game_state = player next_game_state)
  then 1%Q else payoff.

(** [new_reach_probs = reach_probs.copy(); new_reach_probs[player] *= p] *)
Definition scale_reach (reach_probs : list Q) (pl : nat) (p : Q) : outcome (list Q) :=
  let? r := index reach_probs pl in
  Ok (<[pl := (r * p)%Q]> reach_probs).

(** The body of [for ix, action in enumerate(possible_actions)] that fills
    the vector of child values; [rec] is the recursive call. The loop
    carries the variable [payoff] and the vector. *)
Definition child_values {S} (rec : GameState → list Q → M S Q)
    (game_state : GameState) (reach_probs : list Q) (pl : nat)
    (strategy : list Q) (acc : Q * list Q) (item : nat * Action)
  : M S (Q * list Q) :=
  let '(payoff, counterfactual_values) := acc in
  let '(ix, action) := item in
  let! action_prob := lift (index strategy ix) in
  let! new_reach_probs := lift (scale_reach reach_probs pl action_prob) in
  let next_game_state := get_next_game_state game_state action in
  let payoff := flip_payoff payoff game_state next_game_state in
  let! v := rec next_game_state new_reach_probs in
  let! counterfactual_values :=
    lift (store_at counterfactual_values ix (payoff * v)%Q) in
  ret (payoff, counterfactual_values).

(** [for ix, action in enumerate(possible_actions):
       infoset.cumulative_regrets[ix] +=
         reach_probs[opponent] * (counterfactual_values[ix] - node_value)] *)
Definition regret_update (info_key : InfoKey) (reach_probs : list Q)
    (opponent : nat) (counterfactual_values : list Q) (node_value : Q)
    (_ : unit) (item : nat * Action) : M Store unit :=
  let '(ix, _) := item in
  let! rp := lift (index reach_probs opponent) in
  let! cf := lift (index counterfactual_values ix) in
  mutate_infoset info_key (Infoset.add_regret ix (rp * (cf - node_value))%Q).

(** The branch of a node with several actions whose player is updated:
    the [else] branch of [chance_cfr], and the inner [else] branch of
    [external_cfr]. *)
Definition update_node {S} (dict : ∀ A, M Store A → M S A)
    (rec : GameState → list Q → M S Q)
    (game_state : GameState) (reach_probs : list Q)
    (possible_actions : list Action) : M S Q :=
  let counterfactual_values := zeros (length possible_actions) in
  let payoff := (-1)%Q in
  let pl := player game_state in
  let opponent := (pl + 1) mod 2 in
  let info_key := get_info_key game_state in
  let! infoset := dict _ (get_infoset info_key) in
  let strategy := Infoset.regret_matching infoset in
  let! rp := lift (index reach_probs pl) in
  let! _ := dict _ (mutate_infoset info_key
                      (λ i, Ok (Infoset.update_strategy_sum rp i))) in
  let! (_, counterfactual_values) :=
    for_loop (child_values rec game_state reach_probs pl strategy)
      (enumerate possible_actions) (payoff, counterfactual_values) in
  let! node_value := lift (dot counterfactual_values strategy) in
  let! _ := dict _ (for_loop
              (regret_update info_key reach_probs opponent
                 counterfactual_values node_value)
              (enumerate possible_actions) tt) in
  ret node_value.

(** The branch of a node with one action, the same in the three
    traversals. *)
Definition single_action {S} (rec : GameState → M S Q)
    (game_state : GameState) (action : Action) : M S Q :=
  let payoff := (-1)%Q in
  let next_game_state := get_next_game_state game_state action in
  let payoff := flip_payoff payoff game_state next_game_state in
  let! v := rec next_game_state in
  ret (payoff * v)%Q.

Fixpoint chance_cfr (fuel : nat) (game_state : GameState) (reach_probs : list Q)
  : M Store Q :=
  match fuel with
  | O => out_of_fuel
  | S fuel =>
      if terminal game_state then ret (get_payoff game_state)
      else
        let possible_actions := get_possible_actions game_state in
        match possible_actions with
        | [action] =>
            single_action (λ s, chance_cfr fuel s reach_probs) game_state action
        | _ =>
            update_node (λ _ m, m) (chance_cfr fuel)
              game_state reach_probs possible_actions
        end
  end.

(** The branch of [external_cfr] for a player that is not updated. *)
Definition sampled_node (rec : GameState → list Q → M World Q)
    (game_state : GameState) (reach_probs : list Q)
    (possible_actions : list Action) : M World Q :=
  let payoff := (-1)%Q in
  let pl := player game_state in
  let info_key := get_info_key game_state in
  let! infoset := on_dict (get_infoset info_key) in
  let strategy := Infoset.regret_matching infoset in
  let! action := on_rng (choices possible_actions strategy) in
  let! action_index := lift (list_index possible_actions action) in
  let! action_prob := lift (index strategy action_index) in
  let! new_reach_probs := lift (scale_reach reach_probs pl action_prob) in
  let next_game_state := get_next_game_state game_state action in
  let payoff := flip_payoff payoff game_state next_game_state in
  let! v := rec next_game_state new_reach_probs in
  ret (payoff * v)%Q.

Fixpoint external_cfr (fuel : nat) (game_state : GameState)
    (reach_probs : list Q) (update_player : nat) : M World Q :=
  match fuel with
  | O => out_of_fuel
  | S fuel =>
      if terminal game_state then ret (get_payoff game_state)
      else
        let possible_actions := get_possible_actions game_state in
        let rec := λ s rp, external_cfr fuel s rp update_player in
        match possible_actions with
        | [action] =>
            single_action (λ s, rec s reach_probs) game_state action
        | _ =>
            if decide (player game_state ≠ update_player)
            then sampled_node rec game_state reach_probs possible_actions
            else update_node (@on_dict) rec
                   game_state reach_probs possible_actions
        end
  end.

Definition train_chance (fuel : nat) (num_iterations : nat) : M World Q :=
  let! util :=
    for_loop (λ util _,
        let! game_state := on_rng (λ g, Ok (sample_new_game g)) in
        let reach_probs := ones 2 in
        let! v := on_dict (chance_cfr fuel game_state reach_probs) in
        ret (util + v)%Q)
      (seq 0 num_iterations) 0%Q in
  lift (py_div util num_iterations).

Definition train_external (fuel : nat) (num_iterations : nat) : M World Q :=
  let! util :=
    for_loop (λ util _,
        for_loop (λ util i,
            let! game_state := on_rng (λ g, Ok (sample_new_game g)) in
            let reach_probs := ones 2 in
            let! v := external_cfr fuel game_state reach_probs i in
            ret (util + v)%Q)
          (seq 0 2) util)
      (seq 0 num_iterations) 0%Q in
  lift (py_div util (num_iterations * 2)).

(** The loop body of [evaluate_helper] at a node with several actions. *)
Definition partial_value (rec : GameState → Q → M Store Q)
    (game_state : GameState) (reach_prob : Q) (strategy : list Q)
    (acc : Q * list Q) (item : nat * Action) : M Store (Q * list Q) :=
  let '(payoff, partial_values) := acc in
  let '(ix, action) := item in
  let! action_prob := lift (index strategy ix) in
  let new_reach_prob := (reach_prob * action_prob)%Q in
  let next_game_state := get_next_game_state game_state action in
  let payoff := flip_payoff payoff game_state next_game_state in
  let! v := rec next_game_state new_reach_prob in
  let! partial_values := lift (store_at partial_values ix (payoff * v)%Q) in
  ret (payoff, partial_values).

Definition evaluate_node (rec : GameState → Q → M Store Q)
    (game_state : GameState) (reach_prob : Q)
    (possible_actions : list Action) : M Store Q :=
  let payoff := (-1)%Q in
  let partial_values := zeros (length possible_actions) in
  let info_key := get_info_key game_state in
  let! infoset := get_infoset info_key in
  let strategy := Infoset.get_average_strategy infoset in
  let! (_, partial_values) :=
    for_loop (partial_value rec game_state reach_prob strategy)
      (enumerate possible_actions) (payoff, partial_values) in
  lift (dot partial_values strategy).

Fixpoint evaluate_helper (fuel : nat) (game_state : GameState) (reach_prob : Q)
  : M Store Q :=
  match fuel with
  | O => out_of_fuel
  | S fuel =>
      if terminal game_state then ret (get_payoff game_state)
      else
        let possible_actions := get_possible_actions game_state in
        match possible_actions with
        | [action] =>
            single_action (λ s, evaluate_helper fuel s reach_prob)
              game_state action
        | _ =>
            evaluate_node (evaluate_helper fuel)
              game_state reach_prob possible_actions
        end
  end.

(** The deals [evaluate] walks through, in its order: the pairs
    [(hand1, hand2)] before they are sorted. *)
Definition deals : list (list Card * list Card) :=
  hand_pairs deck2 handsize.

Definition deal_state (deal : list Card * list Card) : GameState :=
  let hands := [sorted (card_lt) deal.1; sorted (card_lt) deal.2] in
  sample_new_game_hands hands.

Definition evaluate (fuel : nat) : M Store Q :=
  let n := Z.of_nat (length deck2) in
  let h := Z.of_nat handsize in
  let! c1 := lift (math_comb n h) in
  let! c2 := lift (math_comb (n - h) h) in
  let hand_prob := c1 * c2 in
  let! util :=
    for_loop (λ util deal,
        let game_state := deal_state deal in
        let reach_prob := 1%Q in
        let! v := evaluate_helper fuel game_state reach_prob in
        ret (util + v)%Q)
      deals 0%Q in
  lift (py_div util hand_prob).

Definition get_exploitability (fuel : nat) (num_iterations : nat) : M World Q :=
  let pass (update_player : nat) :=
    for_loop (λ _ _,
        let! game_state := on_rng (λ g, Ok (sample_new_game g)) in
        let reach_probs := ones 2 in
        let! _ := external_cfr fuel game_state reach_probs update_player in
        ret tt)
      (seq 0 num_iterations) tt in
  let! w := get in
  let info_dict_copy := w.1 in
  let! _ := pass 0 in
  let! b_1 := on_dict (evaluate fuel) in
  let! _ := on_dict (put info_dict_copy) in
  let! _ := pass 1 in
  let! b_2 := on_dict (evaluate fuel) in
  let! _ := on_dict (put info_dict_copy) in
  ret (b_1 - b_2)%Q.

End MCCFR.

(** ** The class MCCFR: counting *)

Section Counting.
Context {AbsCard AbsHist : Type}.
Context `{!EqDecision AbsCard, !Countable AbsCard}.
Context `{!EqDecision AbsHist, !Countable AbsHist}.

(** [count_infosets]: the keys whose first component is 0, and the rest. *)
Definition count_infosets
    (infoset_dict : gmap (InfoKey (AbsCard:=AbsCard) (AbsHist:=AbsHist)) Infoset.t)
  : nat * nat :=
  let items := map_to_list infoset_dict in
  let p1_count :=
    length (filter (λ x : InfoKey, x.1.1.1 = 0) (map fst items)) in
  let p2_count := length items - p1_count in
  (p1_count, p2_count).

End Counting.

(** ** Playing against the strategy *)

(** [seq[i]] for a Python integer [i]: a negative index counts from the
    end; outside both ranges it raises [IndexError]. *)
Definition py_getitem {A} (l : list A) (i : Z) : outcome A :=
  let i' := if decide (i < 0)%Z then (i + Z.of_nat (length l))%Z else i in
  if decide (i' < 0)%Z then Raise IndexError else index l (Z.to_nat i').

(** The console behind [input]: [int(input(...))] reads a line and gives
    the integer it holds, or nothing when [int] raises [ValueError]. *)
Class Console (In : Type) := read_int : In → option Z * In.

Section Play.
Context {Card Action GameState SuitHand SuitHist Mean Rng AbsCard AbsHist : Type}.
Context `{!EqDecision Card, !EqDecision Action}.
Context `{!EqDecision AbsCard, !Countable AbsCard}.
Context `{!EqDecision AbsHist, !Countable AbsHist}.
Context `{!Game Card Action GameState SuitHand SuitHist Mean Rng}.
Context `{!Abstraction SuitHand SuitHist Action Mean AbsCard AbsHist}.
Context `{!RandomSource Rng}.
Context {In : Type} `{!Console In}.

(** Component 4 of a state tuple: [game_state[4]]. *)
Context (state_4 : GameState → Q).

Abbreviation Store := (gmap (InfoKey (AbsCard:=AbsCard) (AbsHist:=AbsHist)) Infoset.t).

(** The state of a game at the console: dictionary, generator, and what
    is still to be typed.  What is printed is not part of it. *)
Abbreviation Table := (Store * Rng * In)%type.

Definition at_dict {A} (m : M Store A) : M Table A :=
  zoom (λ t, t.1.1) (λ d t, (d, t.1.2, t.2)) m.
Definition at_rng {A} (m : M Rng A) : M Table A :=
  zoom (λ t, t.1.2) (λ g t, (t.1.1, g, t.2)) m.
Definition at_console {A} (m : M In A) : M Table A :=
  zoom snd (λ c t, (t.1, c)) m.

(** [while True: try: index = int(input(...)) except ValueError: continue
     if index > len(possible_actions)-1: continue else: break] *)
Fixpoint ask_index (fuel : nat) (possible_actions : list Action) : M In Z :=
  match fuel with
  | O => out_of_fuel
  | S fuel =>
      let! typed := (λ c, Ok (read_int c)) in
      match typed with
      | None => ask_index fuel possible_actions
      | Some index =>
          if decide (index > Z.of_nat (length possible_actions) - 1)%Z
          then ask_index fuel possible_actions
          else ret index
      end
  end.

(** [while not game_state[3]: ...] of [play_round]; it returns the
    terminal state. *)
Fixpoint play_loop (fuel : nat) (first_player : nat) (game_state : GameState)
  : M Table GameState :=
  match fuel with
  | O => out_of_fuel
  | S fuel' =>
      if terminal game_state then ret game_state
      else
        let possible_actions := get_possible_actions game_state in
        if decide (player game_state = first_player) then
          let! index := at_console (ask_index fuel possible_actions) in
          let! action := lift (py_getitem possible_actions index) in
          play_loop fuel' first_player (get_next_game_state game_state action)
        else
          match possible_actions with
          | [action] =>
              play_loop fuel' first_player
                (get_next_game_state game_state action)
          | _ =>
              let info_key := get_info_key game_state in
              let! infoset := at_dict (get_infoset info_key) in
              let strategy := Infoset.get_average_strategy infoset in
              let! action := at_rng (choices possible_actions strategy) in
              play_loop fuel' first_player
                (get_next_game_state game_state action)
          end
  end.

Definition play_round (fuel : nat) (first_player : nat) (verbose : bool)
  : M Table Q :=
  let! game_state := at_rng (λ g, Ok (sample_new_game g)) in
  let! game_state := play_loop fuel first_player game_state in
  let sign_starting_player :=
    (inject_Z (Z.of_nat (player game_state)) * -2 + 1)%Q in
  ret (sign_starting_player * state_4 game_state)%Q.

(** [while score1 < winning_score and score2 < winning_score: ...] of
    [play_game], with the loop variables [score1], [score2] and [i]. *)
Fixpoint play_game_loop (fuel : nat) (winning_score : Q) (verbose : bool)
    (score1 score2 : Q) (i : nat) : M Table (Q * Q) :=
  match fuel with
  | O => out_of_fuel
  | S fuel' =>
      if Qlt_le_dec score1 winning_score then
        if Qlt_le_dec score2 winning_score then
          let i := (i + 1) mod 2 in
          let! payoff := play_round fuel i verbose in
          if Qlt_le_dec (payoff * (inject_Z (Z.of_nat i) * -2 + 1)) 0
          then play_game_loop fuel' winning_score verbose
                 score1 (score2 + Qabs payoff)%Q i
          else play_game_loop fuel' winning_score verbose
                 (score1 + Qabs payoff)%Q score2 i
        else ret (score1, score2)
      else ret (score1, score2)
  end.

Definition play_game (fuel : nat) (winning_score : Q) (verbose : bool)
  : M Table (Q * Q) :=
  let score1 := 0%Q in
  let score2 := 0%Q in
  let i := 1 in
  play_game_loop fuel winning_score verbose score1 score2 i.

End Play.

(** ** The dictionary as an object

    [__init__] stores the dictionary twice: as [self.infoset_dict] and as
    the first component of the tuple [self.infoset_data].  Both are
    references to one object.  Here the dictionaries live on a heap and
    the two attributes hold addresses, so that an assignment to
    [self.infoset_dict] can be told from a change of the object. *)

Module Objects.

Section Objects.
Context {Card Action GameState SuitHand SuitHist Mean Rng AbsCard AbsHist : Type}.
Context `{!EqDecision Card, !EqDecision Action}.
Context `{!EqDecision AbsCard, !Countable AbsCard}.
Context `{!EqDecision AbsHist, !Countable AbsHist}.
Context `{!Game Card Action GameState SuitHand SuitHist Mean Rng}.
Context `{!Abstraction SuitHand SuitHist Action Mean AbsCard AbsHist}.
Context `{!RandomSource Rng}.

Abbreviation Store := (gmap (InfoKey (AbsCard:=AbsCard) (AbsHist:=AbsHist)) Infoset.t).
Abbreviation World := (Store * Rng)%type.

(** The dictionaries allocated so far, the two attributes, and the
    generator. *)
Record Self : Type := mk_self {
  heap : list Store;
  infoset_dict : nat;
  infoset_data_0 : nat;
  generator : Rng
}.

(** The dictionary at an address. *)
Definition dict_at (self : Self) (a : nat) : Store :=
  default ∅ (heap self !! a).

(** [__init__]: one empty dictionary, referred to by both attributes. *)
Definition init (g : Rng) : Self := mk_self [∅] 0 0 g.

(** Code that works on the object [self.infoset_dict] refers to, in
    place. *)
Definition in_place {A} (m : M World A) : M Self A :=
  zoom (λ self, (dict_at self (infoset_dict self), generator self))
       (λ w self,
          mk_self (<[infoset_dict self := w.1]> (heap self))
                  (infoset_dict self) (infoset_data_0 self) w.2)
       m.

(** [deepcopy(x)]: a new object with the content of the one at [a]. *)
Definition deepcopy (a : nat) : M Self nat :=
  λ self,
    Ok (length (heap self),
        mk_self (heap self ++ [dict_at self a])
                (infoset_dict self) (infoset_data_0 self) (generator self)).

(** [self.infoset_dict = x] *)
Definition set_infoset_dict (a : nat) : M Self unit :=
  λ self,
    Ok (tt, mk_self (heap self) a (infoset_data_0 self) (generator self)).

Definition get_exploitability (fuel : nat) (num_iterations : nat) : M Self Q :=
  let pass (update_player : nat) :=
    in_place
      (for_loop (λ _ _,
           let! game_state := on_rng (λ g, Ok (sample_new_game g)) in
           let reach_probs := ones 2 in
           let! _ := external_cfr fuel game_state reach_probs update_player in
           ret tt)
         (seq 0 num_iterations) tt) in
  let! info_dict_copy := (λ self, deepcopy (infoset_dict self) self) in
  let! _ := pass 0 in
  let! b_1 := in_place (on_dict (evaluate fuel)) in
  let! copy := deepcopy info_dict_copy in
  let! _ := set_infoset_dict copy in
  let! _ := pass 1 in
  let! b_2 := in_place (on_dict (evaluate fuel)) in
  let! copy := deepcopy info_dict_copy in
  let! _ := set_infoset_dict copy in
  ret (b_1 - b_2)%Q.

End Objects.

End Objects.

(** ** Notions used to state the properties *)

(** A loop whose body has no effect on the state. *)
Fixpoint pure_loop {A B} (body : B → A → outcome B) (l : list A) (acc : B)
  : outcome B :=
  match l with
  | [] => Ok acc
  | x :: l' => let? acc' := body acc x in pure_loop body l' acc'
  end.

(** [m] run from [s] returns a value and a state that satisfy [post]. *)
Definition returns {S A} (m : M S A) (s : S) (post : A → S → Prop) : Prop :=
  ∃ a s', m s = Ok (a, s') ∧ post a s'.

(** The value an outcome carries is [q], as a rational number. *)
Definition value_is {S} (o : outcome (Q * S)) (q : Q) : Prop :=
  match o with
  | Ok (v, _) => (v == q)%Q
  | _ => False
  end.

(** The state an outcome carries ([s] when there is none). *)
Definition state_after {S A} (o : outcome (A * S)) (s : S) : S :=
  match o with
  | Ok (_, s') => s'
  | _ => s
  end.

Section Notions.
Context {Card Action GameState SuitHand SuitHist Mean Rng AbsCard AbsHist : Type}.
Context `{!EqDecision Card, !EqDecision Action}.
Context `{!EqDecision AbsCard, !Countable AbsCard}.
Context `{!EqDecision AbsHist, !Countable AbsHist}.
Context `{!Game Card Action GameState SuitHand SuitHist Mean Rng}.
Context `{!Abstraction SuitHand SuitHist Action Mean AbsCard AbsHist}.
Context `{!RandomSource Rng}.

Abbreviation Key := (InfoKey (AbsCard:=AbsCard) (AbsHist:=AbsHist)).
Abbreviation Store := (gmap Key Infoset.t).
Abbreviation World := (Store * Rng)%type.

(** The data-model invariant: both vectors of an infoset have as many
    entries as its key says. *)
Definition wf_infoset (k : Key) (i : Infoset.t) : Prop :=
  length (Infoset.cumulative_regrets i) = num_actions k ∧
  length (Infoset.strategy_sum i) = num_actions k.

Definition wf_store (d : Store) : Prop := map_Forall wf_infoset d.

(** The contract of the game down to depth [n]: a play from [s] ends
    within [n] actions, a state that is not terminal has an action, and
    the acting player is 0 or 1. *)
Fixpoint playable (n : nat) (s : GameState) : bool :=
  terminal s ||
  match n with
  | O => false
  | S n =>
      let possible_actions := get_possible_actions s in
      bool_decide (possible_actions ≠ []) &&
      bool_decide (player s < 2) &&
      forallb (λ a, playable n (get_next_game_state s a)) possible_actions
  end.

(** What [get_infoset] does to the dictionary. *)
Definition touch (k : Key) (d : Store) : Store :=
  match d !! k with
  | Some _ => d
  | None => <[k := Infoset.new (num_actions k)]> d
  end.

Definition touch_all (ks : list Key) (d : Store) : Store :=
  foldl (λ d k, touch k d) d ks.

(** [d'] has every entry of [d], unchanged, and otherwise only fresh
    infosets. *)
Definition extends (d d' : Store) : Prop :=
  ∀ k, d' !! k = d !! k ∨
       (d !! k = None ∧ d' !! k = Some (Infoset.new (num_actions k))).

(** The value of a state under the average strategy of [d], as a
    function that reads the dictionary and never writes it: at a node
    with several actions the children's values, each under the sign the
    traversal gives it, are weighted by the average strategy and summed. *)
Definition weighted_child (value : GameState → outcome Q)
    (game_state : GameState) (strategy : list Q)
    (acc : Q * list Q) (item : nat * Action) : outcome (Q * list Q) :=
  let '(payoff, partial_values) := acc in
  let '(ix, action) := item in
  let? action_prob := index strategy ix in
  let next_game_state := get_next_game_state game_state action in
  let payoff := flip_payoff payoff game_state next_game_state in
  let? v := value next_game_state in
  let? partial_values := store_at partial_values ix (payoff * v)%Q in
  Ok (payoff, partial_values).

Fixpoint average_value (fuel : nat) (d : Store) (game_state : GameState)
  : outcome Q :=
  match fuel with
  | O => OutOfFuel
  | S fuel =>
      if terminal game_state then Ok (get_payoff game_state)
      else
        match get_possible_actions game_state with
        | [action] =>
            let next_game_state := get_next_game_state game_state action in
            let? v := average_value fuel d next_game_state in
            Ok (flip_payoff (-1) game_state next_game_state * v)%Q
        | possible_actions =>
            let strategy :=
              Infoset.get_average_strategy (deref d (get_info_key game_state)) in
            let? (_, partial_values) :=
              pure_loop (weighted_child (average_value fuel d) game_state strategy)
                (enumerate possible_actions)
                ((-1)%Q, zeros (length possible_actions)) in
            dot partial_values strategy
        end
  end.

(** The keys [evaluate_helper] asks the dictionary for, in order. *)
Fixpoint visited (fuel : nat) (game_state : GameState) : list Key :=
  match fuel with
  | O => []
  | S fuel =>
      if terminal game_state then []
      else
        match get_possible_actions game_state with
        | [action] => visited fuel (get_next_game_state game_state action)
        | possible_actions =>
            get_info_key game_state ::
            flat_map (λ a, visited fuel (get_next_game_state game_state a))
              possible_actions
        end
  end.

(** The player component of a key. *)
Definition key_player (k : Key) : nat := k.1.1.1.

(** The infosets of the players other than [u] are the same in [d'] as in
    [d], and [d'] is well-formed. *)
Definition kept (u : nat) (d d' : Store) : Prop :=
  wf_store d' ∧ ∀ k, key_player k ≠ u → deref d' k = deref d k.

(** All regrets of an infoset incremented at once. *)
Definition add_regrets (deltas : list Q) (i : Infoset.t) : Infoset.t :=
  Infoset.mk (zip_with Qplus (Infoset.cumulative_regrets i) deltas)
             (Infoset.strategy_sum i).

(** The regret increments of the positions from [ix] on, one after the
    other. *)
Fixpoint add_regrets_from (ix : nat) (deltas : list Q) (i : Infoset.t)
  : outcome Infoset.t :=
  match deltas with
  | [] => Ok i
  | delta :: deltas' =>
      let? i' := Infoset.add_regret ix delta i in
      add_regrets_from (S ix) deltas' i'
  end.

(** The children of a node whose actions are all tried, from the action at
    position [ix] on: child [a] is run by [run] with the acting player's
    reach probability, and only that one, multiplied by the strategy's
    probability of [a]; the state is handed from child to child.  The
    list holds the children's values, each under the sign the loop
    variable [payoff] has by then. *)
Inductive child_runs {St} (run : GameState → list Q → M St Q)
    (s : GameState) (reach_probs : list Q) (pl : nat) (strategy : list Q)
  : nat → Q → list Action → St → list Q → St → Prop :=
| child_runs_nil ix payoff w :
    child_runs run s reach_probs pl strategy ix payoff [] w [] w
| child_runs_cons ix payoff a acts w p r v w1 vs w2 :
    strategy !! ix = Some p →
    reach_probs !! pl = Some r →
    run (get_next_game_state s a) (<[pl := (r * p)%Q]> reach_probs) w
      = Ok (v, w1) →
    child_runs run s reach_probs pl strategy (S ix)
      (flip_payoff payoff s (get_next_game_state s a)) acts w1 vs w2 →
    child_runs run s reach_probs pl strategy ix payoff (a :: acts) w
      ((flip_payoff payoff s (get_next_game_state s a) * v)%Q :: vs) w2.

(** What a node whose actions are all tried does, for a traversal [run]
    on states [St] that hold the dictionary ([dict_of], [with_dict]):
    from [w] it returns [v] and leaves [w']. *)
Definition all_actions_node {St} (run : GameState → list Q → M St Q)
    (dict_of : St → Store) (with_dict : Store → St → St)
    (s : GameState) (reach_probs : list Q) (w : St) (v : Q) (w' : St) : Prop :=
  let pl := player s in
  let opponent := (pl + 1) mod 2 in
  let k := get_info_key s in
  let infoset := deref (dict_of w) k in
  let strategy := Infoset.regret_matching infoset in
  ∃ (r_player r_opponent : Q) (counterfactual_values : list Q) (w3 : St),
    reach_probs !! pl = Some r_player ∧
    reach_probs !! opponent = Some r_opponent ∧
    child_runs run s reach_probs pl strategy 0 (-1)%Q (get_possible_actions s)
      (with_dict (<[k := Infoset.update_strategy_sum r_player infoset]> (dict_of w)) w)
      counterfactual_values w3 ∧
    dot counterfactual_values strategy = Ok v ∧
    w' = with_dict
           (<[k := add_regrets
                     (map (λ cf, r_opponent * (cf - v))%Q counterfactual_values)
                     (deref (dict_of w3) k)]> (dict_of w3)) w3.

(** The iterations of chance-sampled training: each samples a new game
    and walks it from reach probabilities [1, 1]. *)
Inductive chance_iterations (fuel : nat)
  : nat → World → list Q → World → Prop :=
| chance_iterations_O w : chance_iterations fuel 0 w [] w
| chance_iterations_S n w v d1 vs w2 :
    chance_cfr fuel (sample_new_game w.2).1 (ones 2) w.1 = Ok (v, d1) →
    chance_iterations fuel n (d1, (sample_new_game w.2).2) vs w2 →
    chance_iterations fuel (S n) w (v :: vs) w2.

(** A sequence of external-sampling traversals, one per entry of the list
    of update players: each samples a new game and starts from reach
    probabilities [1, 1]; the list holds the root values. *)
Inductive traversals_run (fuel : nat)
  : list nat → World → list Q → World → Prop :=
| traversals_nil w : traversals_run fuel [] w [] w
| traversals_cons u us w v w1 vs w2 :
    external_cfr fuel (sample_new_game w.2).1 (ones 2) u
      (w.1, (sample_new_game w.2).2) = Ok (v, w1) →
    traversals_run fuel us w1 vs w2 →
    traversals_run fuel (u :: us) w (v :: vs) w2.

(** Every sampled game can be played out within [n] actions. *)
Definition samples_playable (n : nat) : Prop :=
  ∀ g : Rng, playable n (sample_new_game g).1 = true.

End Notions.

(** ** Notions for what a run leaves unchanged *)

(** Every run of [m] that returns takes a state to one related to it by
    [R]. *)
Definition preserves {S A} (R : S → S → Prop) (m : M S A) : Prop :=
  ∀ s a s', m s = Ok (a, s') → R s s'.

(** The two methods that change an infoset. *)
Inductive infoset_step : Infoset.t → Infoset.t → Prop :=
| step_strategy_sum reach_prob i :
    infoset_step i (Infoset.update_strategy_sum reach_prob i)
| step_regret ix delta i i' :
    Infoset.add_regret ix delta i = Ok i' → infoset_step i i'.

Section Writes.
Context {AbsCard AbsHist : Type}.
Context `{!EqDecision AbsCard, !Countable AbsCard}.
Context `{!EqDecision AbsHist, !Countable AbsHist}.

Abbreviation Key := (InfoKey (AbsCard:=AbsCard) (AbsHist:=AbsHist)).
Abbreviation Store := (gmap Key Infoset.t).

(** One write to the dictionary: a fresh infoset under a key that was
    absent, or a method call on the infoset of a key in [updated]. *)
Inductive store_step (updated : Key → Prop) : Store → Store → Prop :=
| step_create k d :
    d !! k = None →
    store_step updated d (<[k := Infoset.new (num_actions k)]> d)
| step_update k d i :
    updated k → infoset_step (deref d k) i →
    store_step updated d (<[k := i]> d).

(** A sequence of such writes. *)
Definition writes (updated : Key → Prop) : Store → Store → Prop :=
  rtc (store_step updated).

End Writes.

Section Keys.
Context {Card Action GameState SuitHand SuitHist Mean Rng AbsCard AbsHist : Type}.
Context `{!Game Card Action GameState SuitHand SuitHist Mean Rng}.
Context `{!Abstraction SuitHand SuitHist Action Mean AbsCard AbsHist}.

(** The abstracted hand and history of a state: what [get_info_key]
    gets from the abstraction function. *)
Definition abstracted (game_state : GameState) : list AbsCard * AbsHist :=
  let '(new_hand, new_hist) := translate_suits game_state in
  abstraction_function new_hand new_hist
    (get_possible_actions game_state) mean.

(** The action leaves the move with the player who made it. *)
Definition keeps_move (game_state : GameState) (action : Action) : bool :=
  bool_decide
    (player game_state = player (get_next_game_state game_state action)).

(** +1 once an action at a position up to [ix] has kept the move with
    the acting player, -1 before. *)
Definition sticky_sign (game_state : GameState) (possible_actions : list Action)
    (ix : nat) : Q :=
  if existsb (keeps_move game_state) (take (S ix) possible_actions)
  then 1%Q else (-1)%Q.

End Keys.

(** The run returned (it neither raised nor ran out of fuel). *)
Definition returned {S A} (o : outcome (A * S)) : bool :=
  match o with
  | Ok _ => true
  | _ => false
  end.

(** The number an outcome carries is [q], as a rational number. *)
Definition number_is (o : outcome Q) (q : Q) : Prop :=
  match o with
  | Ok v => (v == q)%Q
  | _ => False
  end.

Section Expected.
Context {Card Action GameState SuitHand SuitHist Mean Rng AbsCard AbsHist : Type}.
Context `{!EqDecision AbsCard, !Countable AbsCard}.
Context `{!EqDecision AbsHist, !Countable AbsHist}.
Context `{!Game Card Action GameState SuitHand SuitHist Mean Rng}.
Context `{!Abstraction SuitHand SuitHist Action Mean AbsCard AbsHist}.

Abbreviation Store := (gmap (InfoKey (AbsCard:=AbsCard) (AbsHist:=AbsHist)) Infoset.t).

(** Following the spec's words, not the code: the sign of a child's
    value is that of its own transition ("whenever the acting player is
    unchanged across a transition, the downstream recursive value must
    be negated relative to when the player changes"). *)
Definition transition_sign (game_state : GameState) (action : Action) : Q :=
  if decide (player game_state
             = player (get_next_game_state game_state action))
  then 1%Q else (-1)%Q.

(** Following the spec's words, not the code: the expected payoff of a
    state under the average strategy of [d] ("all actions at a decision
    node are weighted by the average strategy probabilities and their
    recursive values summed (no regret update)"), every child's value
    under the sign of its own transition. *)
Fixpoint expected_payoff (fuel : nat) (d : Store) (game_state : GameState)
  : outcome Q :=
  match fuel with
  | O => OutOfFuel
  | S fuel =>
      if terminal game_state then Ok (get_payoff game_state)
      else
        let child action :=
          let? v := expected_payoff fuel d
                      (get_next_game_state game_state action) in
          Ok (transition_sign game_state action * v)%Q in
        match get_possible_actions game_state with
        | [action] => child action
        | possible_actions =>
            let strategy :=
              Infoset.get_average_strategy (deref d (get_info_key game_state)) in
            let? values :=
              pure_loop (λ values action,
                  let? v := child action in Ok (values ++ [v]))
                possible_actions [] in
            dot values strategy
        end
  end.

(** Following the spec's words, not the code: "the sum over all
    enumerated deals divided by the total count of ordered (hand1,
    hand2) partitions", over the given deals and their initial states. *)
Definition expected_evaluate (fuel : nat) (d : Store)
    (initial_states : list GameState) : outcome Q :=
  let? util :=
    pure_loop (λ util game_state,
        let? v := expected_payoff fuel d game_state in Ok (util + v)%Q)
      initial_states 0%Q in
  py_div util (length initial_states).

End Expected.

(** ** A three-card instance

    One card each from the deck [0; 1; 2]; the tuple of a state is
    (player, hands, history, terminal).  The first player has three actions:
    action 1 lets the same player move again, actions 0 and 2 pass the move.
    After action 1 the only action is 0.  Every play ends after two actions;
    the payoff compares the two cards and is doubled after a final action 1. *)

Module Toy.

Record state : Type := mk_state {
  st_player : nat;
  st_hands : list (list nat);
  st_history : list nat;
  st_terminal : bool
}.

Definition hand (s : state) (pl : nat) : list nat :=
  default [] (st_hands s !! pl).

Definition actions (s : state) : list nat :=
  match st_history s with
  | [] => [0; 1; 2]
  | [1] => [0]
  | [_] => [0; 1]
  | _ => []
  end.

Definition next (s : state) (a : nat) : state :=
  mk_state (if decide (a = 1) then st_player s else (st_player s + 1) mod 2)
           (st_hands s)
           (st_history s ++ [a])
           (bool_decide (length (st_history s) = 1)).

Definition payoff (s : state) : Q :=
  let mine := hand s (st_player s) in
  let theirs := hand s ((st_player s + 1) mod 2) in
  let stake := if decide (last (st_history s) = Some 1) then 2%Q else 1%Q in
  if decide (foldr max 0 theirs < foldr max 0 mine) then stake else (- stake)%Q.

Definition start (hands : list (list nat)) : state :=
  mk_state 0 hands [] false.

(** The generator is a counter: draw [k] is [(k mod 4) / 4]. *)
Definition draw (g : nat) : Q * nat :=
  (inject_Z (Z.of_nat (g mod 4)) / 4, S g)%Q.

Definition deal (g : nat) : state * nat :=
  (start (if Nat.even g then [[2]; [0]] else [[0]; [1]]), S g).

#[export] Instance random_source : RandomSource nat := draw.

#[export] Instance game : Game nat nat state (list nat) (list nat) unit nat := {|
  player := st_player;
  terminal := st_terminal;
  get_payoff := payoff;
  get_possible_actions := actions;
  get_next_game_state := next;
  translate_suits := λ s, (hand s (st_player s), st_history s);
  mean := tt;
  sample_new_game := deal;
  sample_new_game_hands := start;
  deck2 := [0; 1; 2];
  handsize := 1;
  card_lt := Nat.ltb
|}.

(** The identity abstraction. *)
#[export] Instance abstraction
  : Abstraction (list nat) (list nat) nat unit nat (list nat) :=
  λ new_hand new_hist _ _, (new_hand, new_hist).

Definition root : state := start [[2]; [0]].

End Toy.

(** The dictionaries of the three-card instance. *)
Abbreviation ToyStore :=
  (gmap (InfoKey (AbsCard:=nat) (AbsHist:=list nat)) Infoset.t).

(** The same game dealt from another deck with hands of [h] cards, for the
    evaluator's behaviour on decks that are too small. *)
Definition toy_game_with (deck : list nat) (h : nat)
  : Game nat nat Toy.state (list nat) (list nat) unit nat := {|
  player := Toy.st_player;
  terminal := Toy.st_terminal;
  get_payoff := Toy.payoff;
  get_possible_actions := Toy.actions;
  get_next_game_state := Toy.next;
  translate_suits := λ s, (Toy.hand s (Toy.st_player s), Toy.st_history s);
  mean := tt;
  sample_new_game := Toy.deal;
  sample_new_game_hands := Toy.start;
  deck2 := deck;
  handsize := h;
  card_lt := Nat.ltb
|}.

(** A console for the instance: the lines typed are -1, 0, 1, 2, ... *)
#[global] Instance toy_console : Console nat :=
  λ c, (Some (Z.of_nat c - 1)%Z, S c).

(** * Properties *)

(** ** Sums of rationals *)

Lemma fold_left_Qplus (v : list Q) (a : Q) :
  (fold_left Qplus v a == a + qsum v)%Q.
Proof.
  unfold qsum. revert a. induction v as [|x v IH]; intros a; simpl.
  - ring.
  - rewrite (IH (a + x)%Q), (IH (0 + x)%Q). ring.
Qed.

Lemma qsum_cons x v : (qsum (x :: v) == x + qsum v)%Q.
Proof. unfold qsum at 1. simpl. rewrite fold_left_Qplus. ring. Qed.

Lemma qsum_nonneg v : Forall (λ x, 0 <= x)%Q v → (0 <= qsum v)%Q.
Proof.
  induction 1 as [|x v Hx _ IH].
  - unfold qsum; simpl. apply Qle_refl.
  - rewrite qsum_cons.
    pose proof (Qplus_le_compat _ _ _ _ Hx IH) as H. by rewrite Qplus_0_l in H.
Qed.

Lemma qsum_scale (c : Q) v : (qsum (map (λ x, x / c) v) == qsum v / c)%Q.
Proof.
  induction v as [|x v IH]; simpl.
  - unfold qsum; simpl. unfold Qdiv. ring.
  - rewrite !qsum_cons, IH. unfold Qdiv. ring.
Qed.

Lemma qsum_replicate n (c : Q) :
  (qsum (replicate n c) == inject_Z (Z.of_nat n) * c)%Q.
Proof.
  induction n as [|n IH].
  - unfold qsum; simpl. ring.
  - cbn [replicate]. rewrite qsum_cons, IH, Nat2Z.inj_succ.
    unfold Z.succ. rewrite inject_Z_plus. ring.
Qed.

(** ** Regret matching *)

Lemma length_normalize v : length (Infoset.normalize v) = length v.
Proof.
  unfold Infoset.normalize.
  destruct (Qlt_le_dec _ _); by rewrite ?length_map, ?length_replicate.
Qed.

Lemma normalize_sum v : v ≠ [] → (qsum (Infoset.normalize v) == 1)%Q.
Proof.
  intros Hv. unfold Infoset.normalize.
  destruct (Qlt_le_dec 0 (qsum v)) as [Hpos|Hle].
  - rewrite qsum_scale. field. intros Heq. rewrite Heq in Hpos.
    by apply Qlt_irrefl in Hpos.
  - rewrite qsum_replicate. field.
    destruct v as [|x v]; [done|]. simpl length.
    intros Heq. unfold Qeq in Heq. simpl in Heq. lia.
Qed.

Lemma normalize_nonneg v :
  Forall (λ x, 0 <= x)%Q v → Forall (λ x, 0 <= x)%Q (Infoset.normalize v).
Proof.
  intros Hv. unfold Infoset.normalize.
  destruct (Qlt_le_dec 0 (qsum v)) as [Hpos|Hle].
  - apply Forall_map. eapply Forall_impl; [exact Hv|]. intros x Hx. simpl.
    apply Qle_shift_div_l; [done|]. by rewrite Qmult_0_l.
  - apply Forall_replicate.
    destruct (length v) as [|n]; [done|].
    apply Qle_shift_div_l; [|done].
    rewrite <- (Zlt_Qlt 0). lia.
Qed.

Lemma normalize_lookup v a x :
  v !! a = Some x →
  Infoset.normalize v !! a =
    Some (if Qlt_le_dec 0 (qsum v) then x / qsum v
          else 1 / inject_Z (Z.of_nat (length v)))%Q.
Proof.
  intros Ha. unfold Infoset.normalize. destruct (Qlt_le_dec 0 (qsum v)).
  - by rewrite list_lookup_fmap, Ha.
  - apply lookup_replicate_2. by eapply lookup_lt_Some.
Qed.

Lemma length_regret_matching i :
  length (Infoset.regret_matching i) = length (Infoset.cumulative_regrets i).
Proof. unfold Infoset.regret_matching. by rewrite length_normalize, length_map. Qed.

Lemma length_get_average_strategy i :
  length (Infoset.get_average_strategy i) = length (Infoset.strategy_sum i).
Proof. apply length_normalize. Qed.

Lemma regret_matching_sum i :
  Infoset.cumulative_regrets i ≠ [] → (qsum (Infoset.regret_matching i) == 1)%Q.
Proof.
  intros Hne. apply normalize_sum. by destruct (Infoset.cumulative_regrets i).
Qed.

(** C9.  Regret matching returns a probability vector for every vector of
    cumulative regrets with at least one action: one entry per action, every
    entry non-negative, the entries summing to 1; entry [a] is
    [max(cumulative_regret[a], 0)] over the sum of the positive regrets when
    that sum is positive, and [1 / num_actions] otherwise. *)
Theorem regret_matching_valid (i : Infoset.t) :
  Infoset.cumulative_regrets i ≠ [] →
  let regrets := Infoset.cumulative_regrets i in
  let positive := map (λ r, Qmax r 0) regrets in
  let strategy := Infoset.regret_matching i in
  length strategy = length regrets ∧
  Forall (λ p, 0 <= p)%Q strategy ∧
  (qsum strategy == 1)%Q ∧
  ∀ a r, regrets !! a = Some r →
    strategy !! a =
      Some (if Qlt_le_dec 0 (qsum positive) then Qmax r 0 / qsum positive
            else 1 / inject_Z (Z.of_nat (length regrets)))%Q.
Proof.
  intros Hne regrets positive strategy. repeat split.
  - apply length_regret_matching.
  - apply normalize_nonneg, Forall_map, Forall_forall. intros r _. simpl.
    apply Q.le_max_r.
  - by apply regret_matching_sum.
  - intros a r Ha. subst regrets positive strategy.
    unfold Infoset.regret_matching.
    erewrite normalize_lookup; [|by rewrite list_lookup_fmap, Ha].
    by rewrite length_map.
Qed.

Lemma regret_matching_valid_witness :
  let i := Infoset.mk [3; -1; 1]%Q [0; 0; 0]%Q in
  Infoset.cumulative_regrets i ≠ [] ∧
  (qsum (Infoset.regret_matching i) == 1)%Q ∧
  Infoset.regret_matching i !! 0 = Some (3 / 4)%Q.
Proof.
  intros i.
  assert (Hne : Infoset.cumulative_regrets i ≠ []) by discriminate.
  destruct (regret_matching_valid i Hne) as (_ & _ & Hsum & Hentry).
  split; [exact Hne|]. split; [exact Hsum|].
  rewrite (Hentry 0 3%Q eq_refl). reflexivity.
Defined.

(** ** Loops *)

Lemma pure_loop_ext {A B} (f g : B → A → outcome B) l acc :
  (∀ acc x, x ∈ l → f acc x = g acc x) → pure_loop f l acc = pure_loop g l acc.
Proof.
  revert acc. induction l as [|x l IH]; intros acc Hfg; simpl; [done|].
  rewrite Hfg by left. destruct (g acc x); simpl; [|done..].
  apply IH. intros ???. apply Hfg. by right.
Qed.

Lemma pure_loop_inv {A B} (body : B → A → outcome B) (P : B → Prop) l acc :
  (∀ acc x, x ∈ l → P acc → ∃ acc', body acc x = Ok acc' ∧ P acc') →
  P acc → ∃ acc', pure_loop body l acc = Ok acc' ∧ P acc'.
Proof.
  revert acc. induction l as [|x l IH]; intros acc Hbody Hacc; simpl.
  - eauto.
  - destruct (Hbody acc x) as (acc' & -> & Hacc'); [by left|done|]. simpl.
    apply IH; [|done]. intros ????. apply Hbody; [by right|done].
Qed.

(** A loop whose body computes its value without the state and acts on the
    state by [eff]. *)
Lemma for_loop_pure {S A B} (body : B → A → M S B)
    (pbody : B → A → outcome B) (eff : A → S → S) (I : S → Prop) l :
  (∀ acc x s, x ∈ l → I s →
     body acc x s = let? acc' := pbody acc x in Ok (acc', eff x s)) →
  (∀ x s, x ∈ l → I s → I (eff x s)) →
  ∀ acc s, I s →
    for_loop body l acc s =
      let? acc' := pure_loop pbody l acc in
      Ok (acc', foldl (λ s x, eff x s) s l).
Proof.
  induction l as [|x l IH]; intros Hbody HI acc s Hs; simpl; [done|].
  unfold bind. rewrite Hbody by (done || left).
  destruct (pbody acc x) as [acc'| |]; simpl; [|done..].
  apply IH.
  - intros ?????. apply Hbody; [by right|done].
  - intros ????. apply HI; [by right|done].
  - apply HI; [left|done].
Qed.

Lemma enumerate_snd {A} (l : list A) : (enumerate l).*2 = l.
Proof. unfold enumerate. apply snd_zip. by rewrite length_seq. Qed.

Lemma enumerate_lookup {A} (l : list A) ix x :
  (ix, x) ∈ enumerate l → l !! ix = Some x.
Proof.
  unfold enumerate. intros Hin.
  apply list_elem_of_lookup in Hin as [j Hj].
  apply lookup_zip_with_Some in Hj as (i & y & [= <- <-] & Hi & Hy).
  apply lookup_seq in Hi as [-> _]. done.
Qed.

Lemma enumerate_elem {A} (l : list A) ix x :
  (ix, x) ∈ enumerate l → ix < length l ∧ x ∈ l.
Proof.
  intros Hin%enumerate_lookup. split.
  - by eapply lookup_lt_Some.
  - by eapply list_elem_of_lookup_2.
Qed.

Section Evaluation.
Context {Card Action GameState SuitHand SuitHist Mean Rng AbsCard AbsHist : Type}.
Context `{!EqDecision Card, !EqDecision Action}.
Context `{!EqDecision AbsCard, !Countable AbsCard}.
Context `{!EqDecision AbsHist, !Countable AbsHist}.
Context `{!Game Card Action GameState SuitHand SuitHist Mean Rng}.
Context `{!Abstraction SuitHand SuitHist Action Mean AbsCard AbsHist}.
Context `{!RandomSource Rng}.

Abbreviation Key := (InfoKey (AbsCard:=AbsCard) (AbsHist:=AbsHist)).
Abbreviation Store := (gmap Key Infoset.t).
Implicit Types (d : Store) (k : Key).
Implicit Types (s : GameState).

(** *** The dictionary under [get_infoset] *)

Lemma get_infoset_eq k d : get_infoset k d = Ok (deref d k, touch k d).
Proof. unfold get_infoset, deref, touch. by destruct (d !! k). Qed.

(** The infoset [get_infoset] hands out is the entry of its key: a
    reference taken from it is in the dictionary from then on. *)
Lemma get_infoset_present k d i d' :
  get_infoset k d = Ok (i, d') → d' !! k = Some i ∧ deref d' k = i.
Proof.
  unfold get_infoset, deref. destruct (d !! k) as [i0|] eqn:Hk.
  - intros [= <- <-]. by rewrite Hk.
  - intros [= <- <-]. by rewrite lookup_insert_eq.
Qed.

Lemma deref_touch k k' d : deref (touch k d) k' = deref d k'.
Proof.
  unfold deref, touch. destruct (d !! k) eqn:Hk; [done|].
  destruct (decide (k = k')) as [<-|Hne].
  - by rewrite lookup_insert_eq, Hk.
  - by rewrite lookup_insert_ne.
Qed.

Lemma touch_all_app ks1 ks2 d :
  touch_all (ks1 ++ ks2) d = touch_all ks2 (touch_all ks1 d).
Proof. apply foldl_app. Qed.

Lemma deref_touch_all ks k' d : deref (touch_all ks d) k' = deref d k'.
Proof.
  revert d. induction ks as [|k ks IH]; intros d; simpl; [done|].
  by rewrite IH, deref_touch.
Qed.

Lemma touch_all_flat_map {A} (f : A → list Key) l d :
  foldl (λ d x, touch_all (f x) d) d l = touch_all (flat_map f l) d.
Proof.
  revert d. induction l as [|x l IH]; intros d; simpl; [done|].
  by rewrite touch_all_app, IH.
Qed.

Lemma extends_refl d : extends d d.
Proof. intros k. by left. Qed.

Lemma extends_trans d1 d2 d3 : extends d1 d2 → extends d2 d3 → extends d1 d3.
Proof.
  intros H12 H23 k. destruct (H12 k) as [H1|[H1 H1']], (H23 k) as [H2|[H2 H2']].
  - left. congruence.
  - right. split; congruence.
  - right. split; congruence.
  - congruence.
Qed.

Lemma extends_touch k d : extends d (touch k d).
Proof.
  intros k'. unfold touch. destruct (d !! k) eqn:Hk; [by left|].
  destruct (decide (k = k')) as [<-|Hne].
  - right. by rewrite lookup_insert_eq.
  - left. by rewrite lookup_insert_ne.
Qed.

Lemma extends_touch_all ks d : extends d (touch_all ks d).
Proof.
  revert d. induction ks as [|k ks IH]; intros d; simpl.
  - apply extends_refl.
  - eapply extends_trans; [apply extends_touch|apply IH].
Qed.

Lemma touch_present k d : is_Some (d !! k) → touch k d = d.
Proof. intros [i Hi]. unfold touch. by rewrite Hi. Qed.

Lemma touch_is_Some k k' d : is_Some (d !! k') → is_Some (touch k d !! k').
Proof.
  intros [i Hi]. destruct (extends_touch k d k') as [->|[? _]]; [eauto|congruence].
Qed.

Lemma touch_all_is_Some ks k' d :
  is_Some (d !! k') → is_Some (touch_all ks d !! k').
Proof.
  revert d. induction ks as [|k ks IH]; intros d Hd; simpl; [done|].
  by apply IH, touch_is_Some.
Qed.

Lemma touch_all_elem ks k d : k ∈ ks → is_Some (touch_all ks d !! k).
Proof.
  revert d. induction ks as [|k0 ks IH]; intros d Hin; simpl.
  - by apply elem_of_nil in Hin.
  - apply elem_of_cons in Hin as [->|Hin]; [|by apply IH].
    apply touch_all_is_Some. unfold touch.
    destruct (d !! k0) eqn:Hk; [by rewrite Hk|]. by rewrite lookup_insert_eq.
Qed.

(** Asking again for keys that are all present changes nothing. *)
Lemma touch_all_present ks d :
  (∀ k, k ∈ ks → is_Some (d !! k)) → touch_all ks d = d.
Proof.
  revert d. induction ks as [|k ks IH]; intros d Hd; simpl; [done|].
  rewrite touch_present by (apply Hd; left).
  apply IH. intros ??. apply Hd. by right.
Qed.

Lemma touch_all_nonempty ks d : ks ≠ [] → touch_all ks d ≠ ∅.
Proof.
  intros Hne Hempty. destruct ks as [|k ks]; [done|].
  destruct (touch_all_elem (k :: ks) k d) as [i Hi]; [left|].
  by rewrite Hempty, lookup_empty in Hi.
Qed.

Lemma touch_all_idem ks d : touch_all ks (touch_all ks d) = touch_all ks d.
Proof. apply touch_all_present. intros k Hk. by apply touch_all_elem. Qed.

(** *** The average-strategy value *)

Lemma average_value_ext fuel d d' s :
  (∀ k, deref d k = deref d' k) →
  average_value fuel d s = average_value fuel d' s.
Proof.
  intros Hd. revert s. induction fuel as [|fuel IH]; intros s; [done|].
  cbn [average_value].
  destruct (terminal s); [done|].
  destruct (get_possible_actions s) as [|a [|b l]].
  - by rewrite Hd.
  - by rewrite IH.
  - rewrite Hd.
    erewrite pure_loop_ext; [done|].
    intros [payoff pv] [ix act] _. unfold weighted_child. by rewrite IH.
Qed.

Lemma evaluate_node_eq fuel s r acts d :
  (∀ s' r' d', evaluate_helper fuel s' r' d' =
     let? v := average_value fuel d' s' in
     Ok (v, touch_all (visited fuel s') d')) →
  evaluate_node (evaluate_helper fuel) s r acts d =
    let strategy := Infoset.get_average_strategy (deref d (get_info_key s)) in
    let? acc :=
      pure_loop (weighted_child (average_value fuel d) s strategy)
        (enumerate acts) ((-1)%Q, zeros (length acts)) in
    let? v := dot acc.2 strategy in
    Ok (v, touch_all (get_info_key s ::
                      flat_map (λ a, visited fuel (get_next_game_state s a)) acts) d).
Proof.
  intros IH. unfold evaluate_node, bind. rewrite get_infoset_eq.
  rewrite (for_loop_pure _
    (weighted_child (average_value fuel d) s
       (Infoset.get_average_strategy (deref d (get_info_key s))))
    (λ item d1, touch_all (visited fuel (get_next_game_state s item.2)) d1)
    (λ d1, ∀ k, deref d1 k = deref d k)).
  - simpl. destruct (pure_loop _ _ _) as [[payoff pv]| |]; simpl; [|done..].
    unfold lift. destruct (dot _ _); simpl; [|done..].
    rewrite (touch_all_flat_map
               (λ item : nat * Action, visited fuel (get_next_game_state s item.2))).
    do 3 f_equal.
    rewrite <- (enumerate_snd acts) at 2.
    rewrite !flat_map_concat_map. by rewrite <- list_fmap_compose.
  - intros [payoff pv] [ix act] d1 _ Hd1. unfold partial_value, weighted_child, bind, lift.
    destruct (index _ ix); simpl; [|done..].
    rewrite IH. rewrite (average_value_ext fuel d1 d) by done.
    destruct (average_value fuel d _); simpl; [|done..].
    by destruct (store_at _ _ _).
  - intros [ix act] d1 _ Hd1 k. by rewrite deref_touch_all.
  - intros k. apply deref_touch.
Qed.

(** [evaluate_helper] returns the average-strategy value of the state,
    which it computes without using [reach_prob], and leaves the
    dictionary with a fresh infoset for every key it asked for. *)
Lemma evaluate_helper_eq fuel s r d :
  evaluate_helper fuel s r d =
    let? v := average_value fuel d s in
    Ok (v, touch_all (visited fuel s) d).
Proof.
  revert s r d. induction fuel as [|fuel IH]; intros s r d; [done|].
  cbn [evaluate_helper average_value visited].
  destruct (terminal s); [done|].
  destruct (get_possible_actions s) as [|a [|b l]] eqn:Hacts.
  - rewrite evaluate_node_eq by done. simpl.
    by destruct (dot _ _).
  - unfold single_action, bind. rewrite IH.
    by destruct (average_value fuel d _).
  - rewrite evaluate_node_eq by done. cbv zeta.
    destruct (pure_loop _ _ _) as [[payoff pv]| |]; simpl; [|done..].
    by destruct (dot _ _).
Qed.

(** *** Well-formed dictionaries *)

Lemma num_actions_get_info_key s :
  num_actions (get_info_key s) = length (get_possible_actions s).
Proof.
  unfold get_info_key, num_actions.
  destruct (translate_suits s) as [new_hand new_hist].
  by destruct (abstraction_function _ _ _ _).
Qed.

Lemma player_get_info_key s : (get_info_key s).1.1.1 = player s.
Proof.
  unfold get_info_key.
  destruct (translate_suits s) as [new_hand new_hist].
  by destruct (abstraction_function _ _ _ _).
Qed.

Lemma wf_infoset_new k : wf_infoset k (Infoset.new (num_actions k)).
Proof. split; apply length_replicate. Qed.

Lemma wf_deref d k : wf_store d → wf_infoset k (deref d k).
Proof.
  intros Hd. unfold deref. destruct (d !! k) as [i|] eqn:Hk; simpl.
  - by apply (Hd k i).
  - apply wf_infoset_new.
Qed.

Lemma wf_store_insert d k i :
  wf_store d → wf_infoset k i → wf_store (<[k := i]> d).
Proof. intros Hd Hi. by apply map_Forall_insert_2. Qed.

Lemma wf_store_touch d k : wf_store d → wf_store (touch k d).
Proof.
  intros Hd. unfold touch. destruct (d !! k); [done|].
  apply wf_store_insert; [done|]. apply wf_infoset_new.
Qed.

Lemma wf_store_empty : wf_store (∅ : Store).
Proof. apply map_Forall_empty. Qed.

Lemma playable_terminal n s : terminal s = true → playable n s = true.
Proof. intros Ht. destruct n; simpl; by rewrite Ht. Qed.

Lemma playable_S n s :
  terminal s = false → playable (S n) s = true →
  get_possible_actions s ≠ [] ∧ player s < 2 ∧
  ∀ a, a ∈ get_possible_actions s →
       playable n (get_next_game_state s a) = true.
Proof.
  intros Ht. simpl. rewrite Ht. simpl.
  intros [[Hne Hpl]%andb_prop Hall]%andb_prop.
  apply bool_decide_eq_true in Hne, Hpl. split_and!; [done..|].
  intros a Ha. rewrite forallb_forall in Hall. apply Hall.
  by apply list_elem_of_In.
Qed.

Lemma playable_0 s : playable 0 s = true → terminal s = true.
Proof. simpl. by rewrite orb_false_r. Qed.

(** On a well-formed dictionary the value of a playable state exists. *)
Lemma average_value_total n d s :
  wf_store d → playable n s = true →
  ∃ v, average_value (S n) d s = Ok v.
Proof.
  intros Hd. revert s. induction n as [|n IH]; intros s Hs.
  - apply playable_0 in Hs. simpl. rewrite Hs. eauto.
  - remember (S n) as m eqn:Hm. cbn [average_value].
    destruct (terminal s) eqn:Ht; [eauto|]. subst m.
    destruct (playable_S _ _ Ht Hs) as (Hne & _ & Hch).
    pose proof (num_actions_get_info_key s) as Hk.
    pose proof (wf_deref d (get_info_key s) Hd) as [_ Hlen].
    destruct (get_possible_actions s) as [|a [|b l]] eqn:Hacts; [done| |].
    + destruct (IH (get_next_game_state s a)) as [v Hv]; [apply Hch; left|].
      rewrite Hv. simpl. eauto.
    + set (acts := a :: b :: l) in *.
      set (strategy := Infoset.get_average_strategy _).
      assert (Hstrat : length strategy = length acts).
      { unfold strategy. by rewrite length_get_average_strategy, Hlen, Hk. }
      destruct (pure_loop_inv
        (weighted_child (average_value (S n) d) s strategy)
        (λ acc, length acc.2 = length acts)
        (enumerate acts) ((-1)%Q, zeros (length acts)))
        as ([payoff pv] & Hloop & Hpv).
      * intros [payoff pv] [ix act] [Hix Hact]%enumerate_elem Hacc.
        cbn [snd] in Hacc. unfold weighted_child, index.
        destruct (lookup_lt_is_Some_2 strategy ix) as [p ->]; [lia|].
        cbn [obind].
        destruct (IH (get_next_game_state s act)) as [v ->]; [by apply Hch|].
        cbn [obind]. unfold store_at. rewrite decide_True by lia. cbn [obind].
        eexists. split; [done|]. cbn [snd]. by rewrite length_insert.
      * apply length_replicate.
      * rewrite Hloop. cbn [obind snd] in *. unfold dot.
        rewrite decide_True by lia. eauto.
Qed.

(** *** [evaluate] *)

Lemma evaluate_eq fuel d :
  evaluate fuel d =
    let? c1 := math_comb (Z.of_nat (length (deck2 (Card:=Card))))
                 (Z.of_nat (handsize (Card:=Card))) in
    let? c2 := math_comb (Z.of_nat (length (deck2 (Card:=Card)))
                          - Z.of_nat (handsize (Card:=Card)))
                 (Z.of_nat (handsize (Card:=Card))) in
    let? util :=
      pure_loop (λ util deal,
          let? v := average_value fuel d (deal_state deal) in
          Ok (util + v)%Q) deals 0%Q in
    let? r := py_div util (c1 * c2) in
    Ok (r, touch_all (flat_map (λ deal, visited fuel (deal_state deal)) deals) d).
Proof.
  unfold evaluate, bind, lift.
  destruct (math_comb _ _) as [c1| |]; simpl; [|done..].
  destruct (math_comb _ _) as [c2| |]; simpl; [|done..].
  rewrite (for_loop_pure _
    (λ util deal, let? v := average_value fuel d (deal_state deal) in
                  Ok (util + v)%Q)
    (λ deal d1, touch_all (visited fuel (deal_state deal)) d1)
    (λ d1, ∀ k, deref d1 k = deref d k)).
  - destruct (pure_loop _ _ _) as [util| |]; simpl; [|done..].
    destruct (py_div _ _); simpl; [|done..].
    by rewrite touch_all_flat_map.
  - intros util deal d1 _ Hd1. unfold bind. rewrite evaluate_helper_eq.
    rewrite (average_value_ext fuel d1 d) by done.
    by destruct (average_value fuel d _).
  - intros deal d1 _ Hd1 k. by rewrite deref_touch_all.
  - done.
Qed.

Lemma pure_loop_sum {A} (f : A → outcome Q) (value : A → Q) l (acc : Q) :
  (∀ x, x ∈ l → f x = Ok (value x)) →
  pure_loop (λ util x, let? v := f x in Ok (util + v)%Q) l acc =
    Ok (fold_left Qplus (map value l) acc).
Proof.
  revert acc. induction l as [|x l IH]; intros acc Hf; simpl; [done|].
  rewrite Hf by left. simpl. apply IH. intros ??. apply Hf. by right.
Qed.

End Evaluation.

(** ** Counting: [math.comb] and [itertools.combinations] *)

Lemma choose_gt n k : n < k → choose n k = 0.
Proof.
  revert k. induction n as [|n IH]; intros [|k] Hlt; simpl; try lia.
  rewrite !IH by lia. done.
Qed.

Lemma choose_fact n k :
  k ≤ n → choose n k * fact k * fact (n - k) = fact n.
Proof.
  revert k. induction n as [|n IH]; intros [|k] Hle; try lia.
  - done.
  - simpl choose. rewrite Nat.sub_0_r. simpl fact at 1. lia.
  - change (choose (S n) (S k)) with (choose n k + choose n (S k)).
    replace (S n - S k) with (n - k) by lia.
    destruct (decide (k = n)) as [->|Hne].
    + rewrite (choose_gt n (S n)) by lia.
      pose proof (IH n (Nat.le_refl _)) as H. rewrite Nat.sub_diag in *.
      change (fact (S n)) with (S n * fact n). simpl fact in *. nia.
    + pose proof (IH k ltac:(lia)) as H1. pose proof (IH (S k) ltac:(lia)) as H2.
      replace (n - k) with (S (n - S k)) in * by lia.
      change (fact (S n)) with (S n * fact n).
      change (fact (S k)) with (S k * fact k) in *.
      change (fact (S (n - S k))) with (S (n - S k) * fact (n - S k)) in *.
      assert (S n = S k + S (n - S k)) as -> by lia.
      set (a := S k) in *. set (b := S (n - S k)) in *. nia.
Qed.

(** The two ways of counting the deals agree. *)
Lemma choose_two_hands n h :
  choose n (h * 2) * choose (h * 2) h = choose n h * choose (n - h) h.
Proof.
  destruct (decide (h * 2 ≤ n)) as [Hle|Hgt].
  - pose proof (fact_neq_0 h) as Hh. pose proof (fact_neq_0 (n - h * 2)) as Hr.
    apply (Nat.mul_cancel_r _ _ (fact h * fact h * fact (n - h * 2))); [nia|].
    pose proof (choose_fact n (h * 2) Hle) as H1.
    pose proof (choose_fact (h * 2) h ltac:(lia)) as H2.
    pose proof (choose_fact n h ltac:(lia)) as H3.
    pose proof (choose_fact (n - h) h ltac:(lia)) as H4.
    replace (h * 2 - h) with h in H2 by lia.
    replace (n - h - h) with (n - h * 2) in H4 by lia.
    transitivity (fact n).
    + rewrite <- H1, <- H2. lia.
    + rewrite <- H3, <- H4. lia.
  - rewrite (choose_gt n (h * 2)) by lia.
    destruct (decide (h ≤ n)).
    + rewrite (choose_gt (n - h) h) by lia. lia.
    + rewrite (choose_gt n h) by lia. lia.
Qed.

Section Combinations.
Context {A : Type} `{!EqDecision A}.
Implicit Types (l : list A) (x : A).

Lemma combinations_nil r :
  combinations ([] : list A) r = match r with O => [[]] | S _ => [] end.
Proof. by destruct r. Qed.

Lemma combinations_cons x l r :
  combinations (x :: l) r =
    match r with
    | O => [[]]
    | S r' => map (cons x) (combinations l r') ++ combinations l r
    end.
Proof. by destruct r. Qed.

Lemma elem_of_combinations l r l1 :
  l1 ∈ combinations l r ↔ l1 `sublist_of` l ∧ length l1 = r.
Proof.
  revert r l1. induction l as [|x l IH]; intros r l1.
  - rewrite combinations_nil, sublist_nil_r. destruct r.
    + rewrite list_elem_of_singleton. split; [by intros ->|by intros [-> _]].
    + rewrite elem_of_nil. split; [done|]. by intros [-> ?].
  - rewrite combinations_cons. destruct r as [|r].
    + rewrite list_elem_of_singleton. split.
      * intros ->. split; [apply sublist_nil_l|done].
      * intros [_ Hlen]. by apply nil_length_inv.
    + rewrite elem_of_app, list_elem_of_fmap, sublist_cons_r.
      setoid_rewrite IH. split.
      * intros [(l1' & -> & Hsub & Hlen)|[Hsub Hlen]].
        -- split; [right; eauto|simpl; lia].
        -- split; [by left|done].
      * intros [[Hsub|(l1' & -> & Hsub)] Hlen].
        -- by right.
        -- left. exists l1'. simpl in Hlen. split_and!; [done..|lia].
Qed.

Lemma NoDup_combinations l r : NoDup l → NoDup (combinations l r).
Proof.
  intros Hl. revert r. induction Hl as [|x l Hx Hl IH]; intros r.
  - rewrite combinations_nil. destruct r; [apply NoDup_singleton|constructor].
  - rewrite combinations_cons. destruct r as [|r]; [apply NoDup_singleton|].
    apply NoDup_app. split_and!.
    + apply (NoDup_fmap_2 _), IH.
    + intros l1 (l1' & -> & _)%list_elem_of_fmap [Hsub _]%elem_of_combinations.
      apply Hx. eapply elem_of_sublist; [|done]. left.
    + apply IH.
Qed.

Lemma length_combinations l r :
  length (combinations l r) = choose (length l) r.
Proof.
  revert r. induction l as [|x l IH]; intros r.
  - rewrite combinations_nil. by destruct r.
  - rewrite combinations_cons. destruct r as [|r]; [done|].
    rewrite length_app, length_map, !IH. done.
Qed.

Lemma filter_iff_elem (P1 P2 : A → Prop)
    `{!∀ x, Decision (P1 x), !∀ x, Decision (P2 x)} l :
  (∀ x, x ∈ l → P1 x ↔ P2 x) → filter P1 l = filter P2 l.
Proof.
  induction l as [|x l IH]; intros HP; [done|].
  rewrite !filter_cons.
  rewrite IH by (intros ??; apply HP; by right).
  apply decide_ext, HP. left.
Qed.

(** In a list without repetition a sublist is what a filter keeps. *)
Lemma sublist_filter_elem l1 l :
  NoDup l → l1 `sublist_of` l → filter (λ x, x ∈ l1) l = l1.
Proof.
  intros Hl Hsub. induction Hsub as [|x l1 l Hsub IH|x l1 l Hsub IH].
  - done.
  - apply NoDup_cons in Hl as [Hx Hl].
    rewrite filter_cons_True by left. f_equal.
    transitivity (filter (λ y, y ∈ l1) l); [|by apply IH].
    apply filter_iff_elem. intros y Hy. rewrite elem_of_cons.
    split; [|by right]. intros [->|?]; done.
  - apply NoDup_cons in Hl as [Hx Hl].
    rewrite filter_cons_False; [by apply IH|].
    intros Hin. apply Hx. by eapply elem_of_sublist.
Qed.

Lemma length_filter_not_elem l1 l :
  NoDup l → l1 `sublist_of` l →
  length (filter (λ x, x ∉ l1) l) + length l1 = length l.
Proof.
  intros Hl Hsub. induction Hsub as [|x l1 l Hsub IH|x l1 l Hsub IH].
  - done.
  - apply NoDup_cons in Hl as [Hx Hl].
    rewrite filter_cons_False by (intros Hn; apply Hn; left).
    rewrite (filter_iff_elem _ (λ y, y ∉ l1)); [simpl; rewrite <- IH by done; lia|].
    intros y Hy. rewrite not_elem_of_cons. split; [by intros [_ ?]|].
    intros ?. split; [|done]. by intros ->.
  - apply NoDup_cons in Hl as [Hx Hl].
    rewrite filter_cons_True
      by (intros Hin; apply Hx; by eapply elem_of_sublist).
    simpl. rewrite <- IH by done. lia.
Qed.

Lemma elem_of_hand_pairs_1 l h h1 h2 :
  (h1, h2) ∈ hand_pairs l h ↔
  ∃ dealt, dealt `sublist_of` l ∧ length dealt = h * 2 ∧
           h1 `sublist_of` dealt ∧ length h1 = h ∧
           h2 = filter (λ card, card ∉ h1) dealt.
Proof.
  unfold hand_pairs. rewrite list_elem_of_bind.
  setoid_rewrite list_elem_of_bind. setoid_rewrite elem_of_combinations.
  setoid_rewrite list_elem_of_singleton. split.
  - intros (dealt & (h1' & [= <- ->] & ? & ?) & ? & ?). eauto 10.
  - intros (dealt & ? & ? & ? & ? & ->). eauto 10.
Qed.

Lemma elem_of_hand_pairs l h h1 h2 :
  NoDup l →
  (h1, h2) ∈ hand_pairs l h ↔
  h1 `sublist_of` l ∧ h2 `sublist_of` l ∧
  length h1 = h ∧ length h2 = h ∧ (∀ card, card ∈ h1 → card ∉ h2).
Proof.
  intros Hl. rewrite elem_of_hand_pairs_1. split.
  - intros (dealt & Hdealt & Hlen & Hh1 & Hlen1 & ->).
    assert (NoDup dealt) as Hnd by (by eapply sublist_NoDup).
    pose proof (length_filter_not_elem h1 dealt Hnd Hh1) as Hcount.
    split_and!.
    + by etrans.
    + etrans; [apply sublist_filter|done].
    + done.
    + lia.
    + intros card Hin [Hnot _]%list_elem_of_filter. done.
  - intros (Hh1 & Hh2 & Hlen1 & Hlen2 & Hdisj).
    set (dealt := filter (λ card, card ∈ h1 ∨ card ∈ h2) l).
    assert (Hsub : dealt `sublist_of` l) by apply sublist_filter.
    assert (Hnd : NoDup dealt) by (by eapply sublist_NoDup).
    assert (Hh1' : h1 `sublist_of` dealt).
    { rewrite <- (sublist_filter_elem h1 l) at 1 by done.
      rewrite <- (list_filter_filter_l (λ x, x ∈ h1) (λ x, x ∈ h1 ∨ x ∈ h2))
        by (by left).
      apply sublist_filter. }
    assert (Hrest : filter (λ card, card ∉ h1) dealt = h2).
    { unfold dealt. rewrite list_filter_filter.
      transitivity (filter (λ x, x ∈ h2) l);
        [|by apply sublist_filter_elem].
      apply list_filter_iff. intros card. split.
      - intros [Hn [?|?]]; done.
      - intros Hin. split; [|by right]. intros Hin1. by apply (Hdisj card). }
    exists dealt. split_and!; [done| |done|done|done].
    pose proof (length_filter_not_elem h1 dealt Hnd Hh1') as Hcount.
    rewrite Hrest in Hcount. lia.
Qed.

Lemma NoDup_hand_pairs l h : NoDup l → NoDup (hand_pairs l h).
Proof.
  intros Hl. unfold hand_pairs. apply NoDup_bind.
  - intros d1 d2 [h1 h2] [Hd1 _]%elem_of_combinations [Hd2 _]%elem_of_combinations.
    intros (h1' & [= <- ->]%list_elem_of_singleton & [Hs1 _]%elem_of_combinations)
             %list_elem_of_bind.
    intros (h1' & [= <- Heq]%list_elem_of_singleton & [Hs2 _]%elem_of_combinations)
             %list_elem_of_bind.
    rewrite <- (sublist_filter_elem d1 l), <- (sublist_filter_elem d2 l) by done.
    apply list_filter_iff. intros card.
    assert (∀ d, h1 `sublist_of` d →
              card ∈ d ↔ card ∈ h1 ∨ card ∈ filter (λ c, c ∉ h1) d) as Hsplit.
    { intros d Hs. rewrite list_elem_of_filter. split.
      - intros Hin. destruct (decide (card ∈ h1)); [by left|by right].
      - intros [Hin|[_ Hin]]; [by eapply elem_of_sublist|done]. }
    rewrite (Hsplit d1), (Hsplit d2), Heq by done. done.
  - intros dealt [Hd _]%elem_of_combinations.
    assert (NoDup dealt) as Hnd by (by eapply sublist_NoDup).
    apply NoDup_bind.
    + intros x1 x2 [h1 h2] _ _ [= <- _]%list_elem_of_singleton
        [= <- _]%list_elem_of_singleton. done.
    + intros ? _. apply NoDup_singleton.
    + by apply NoDup_combinations.
  - by apply NoDup_combinations.
Qed.

Lemma length_bind_const {B C} (f : B → list C) (l : list B) c :
  (∀ y, y ∈ l → length (f y) = c) → length (l ≫= f) = length l * c.
Proof.
  induction l as [|y l IH]; intros Hf; csimpl; [done|].
  rewrite length_app, Hf by left. rewrite IH; [lia|].
  intros ??. apply Hf. by right.
Qed.

Lemma length_hand_pairs l h :
  length (hand_pairs l h) = choose (length l) h * choose (length l - h) h.
Proof.
  unfold hand_pairs.
  rewrite (length_bind_const _ _ (choose (h * 2) h)).
  - rewrite length_combinations. apply choose_two_hands.
  - intros dealt [_ Hlen]%elem_of_combinations.
    rewrite (length_bind_const _ _ 1) by done.
    rewrite length_combinations, Hlen. lia.
Qed.

End Combinations.

Lemma choose_pos n k : k ≤ n → 0 < choose n k.
Proof.
  revert k. induction n as [|n IH]; intros [|k] Hle; simpl; try lia.
  pose proof (IH k ltac:(lia)). lia.
Qed.

(** ** The evaluator *)

Section Evaluator.
Context {Card Action GameState SuitHand SuitHist Mean Rng AbsCard AbsHist : Type}.
Context `{!EqDecision Card, !EqDecision Action}.
Context `{!EqDecision AbsCard, !Countable AbsCard}.
Context `{!EqDecision AbsHist, !Countable AbsHist}.
Context `{!Game Card Action GameState SuitHand SuitHist Mean Rng}.
Context `{!Abstraction SuitHand SuitHist Action Mean AbsCard AbsHist}.
Context `{!RandomSource Rng}.

Abbreviation Key := (InfoKey (AbsCard:=AbsCard) (AbsHist:=AbsHist)).
Abbreviation Store := (gmap Key Infoset.t).
Implicit Types (d : Store) (k : Key) (s : GameState).

(** C10.  The value and the dictionary [evaluate_helper] returns do not
    depend on its [reach_prob] argument, whatever the state, the
    dictionary and the recursion budget. *)
Theorem evaluate_helper_reach_prob_dead fuel s (r1 r2 : Q) d :
  evaluate_helper fuel s r1 d = evaluate_helper fuel s r2 d.
Proof. by rewrite !evaluate_helper_eq. Qed.

(** A second call of [evaluate], on the dictionary the first call left,
    returns the same value and changes nothing; the first call keeps every
    entry it found and adds only fresh infosets. *)
Lemma evaluate_twice fuel d v d' :
  evaluate fuel d = Ok (v, d') →
  evaluate fuel d' = Ok (v, d') ∧ extends d d'.
Proof.
  rewrite !evaluate_eq.
  destruct (math_comb _ _) as [c1| |]; simpl; [|done..].
  destruct (math_comb _ _) as [c2| |]; simpl; [|done..].
  set (keys := flat_map (λ deal, visited fuel (deal_state deal)) deals).
  destruct (pure_loop _ deals 0%Q) as [util| |] eqn:Hloop; simpl; [|done..].
  destruct (py_div _ _) as [r| |] eqn:Hdiv; simpl; [|done..].
  intros [= <- <-]. split; [|apply extends_touch_all].
  erewrite pure_loop_ext; [rewrite Hloop|]; simpl.
  - by rewrite Hdiv, touch_all_idem.
  - intros util' deal _.
    rewrite (average_value_ext fuel (touch_all keys d) d); [done|].
    intros k. apply deref_touch_all.
Qed.

Lemma math_comb_hands :
  handsize (Card:=Card) * 2 ≤ length (deck2 (Card:=Card)) →
  let n := length (deck2 (Card:=Card)) in
  let h := handsize (Card:=Card) in
  math_comb (Z.of_nat n) (Z.of_nat h) = Ok (choose n h) ∧
  math_comb (Z.of_nat n - Z.of_nat h) (Z.of_nat h) = Ok (choose (n - h) h) ∧
  0 < choose n h * choose (n - h) h.
Proof.
  intros Hle n h. unfold math_comb. rewrite !decide_False by lia.
  rewrite <- Nat2Z.inj_sub, !Nat2Z.id by lia. split_and!; [done..|].
  pose proof (choose_pos n h ltac:(lia)).
  pose proof (choose_pos (n - h) h ltac:(lia)). nia.
Qed.

(** On a well-formed dictionary, for a game whose deals can all be played
    out, [evaluate] returns the sum of the deals' average-strategy values
    over the number of deals. *)
Lemma evaluate_total n d :
  wf_store d →
  forallb (λ deal, playable n (deal_state deal)) deals = true →
  handsize (Card:=Card) * 2 ≤ length (deck2 (Card:=Card)) →
  ∃ value : list Card * list Card → Q,
    (∀ deal, deal ∈ deals →
       average_value (S n) d (deal_state deal) = Ok (value deal)) ∧
    evaluate (S n) d =
      Ok ((fold_left Qplus (map value deals) 0
           / inject_Z (Z.of_nat
               (choose (length (deck2 (Card:=Card))) (handsize (Card:=Card))
                * choose (length (deck2 (Card:=Card)) - handsize (Card:=Card))
                    (handsize (Card:=Card)))))%Q,
          touch_all (flat_map (λ deal, visited (S n) (deal_state deal)) deals) d).
Proof.
  intros Hd Hplay Hsize.
  exists (λ deal, match average_value (S n) d (deal_state deal) with
                  | Ok v => v
                  | _ => 0%Q
                  end).
  assert (Hval : ∀ deal, deal ∈ deals →
    average_value (S n) d (deal_state deal) =
      Ok (match average_value (S n) d (deal_state deal) with
          | Ok v => v
          | _ => 0%Q
          end)).
  { intros deal Hin. rewrite forallb_forall in Hplay.
    destruct (average_value_total n d (deal_state deal)) as [v Hv]; [done| |].
    - apply Hplay. by apply list_elem_of_In.
    - by rewrite Hv. }
  split; [done|].
  rewrite evaluate_eq.
  destruct (math_comb_hands Hsize) as (-> & -> & Hpos). cbn [obind].
  rewrite (pure_loop_sum _ _ _ _ Hval). cbn [obind].
  unfold py_div.
  destruct (choose _ _ * choose _ _) eqn:Hprod; [lia|]. done.
Qed.

(** What [get_infoset] has left under a key after the keys [ks] have
    been asked for. *)
Lemma lookup_touch_all ks k d :
  touch_all ks d !! k =
    match d !! k with
    | Some i => Some i
    | None =>
        if bool_decide (k ∈ ks) then Some (Infoset.new (num_actions k))
        else None
    end.
Proof.
  revert d. induction ks as [|k0 ks IH]; intros d.
  - cbn [touch_all foldl]. by destruct (d !! k).
  - change (touch_all (k0 :: ks) d) with (touch_all ks (touch k0 d)).
    rewrite IH. unfold touch. destruct (d !! k0) as [i0|] eqn:Hk0.
    + destruct (d !! k) as [i|] eqn:Hk; [done|].
      apply (f_equal (λ b : bool, if b then _ else _)).
      apply bool_decide_ext. rewrite elem_of_cons.
      split; [by right|]. intros [->|?]; [congruence|done].
    + destruct (decide (k = k0)) as [->|Hne].
      * rewrite lookup_insert_eq, Hk0.
        by rewrite (bool_decide_eq_true_2 (k0 ∈ k0 :: ks)) by left.
      * rewrite lookup_insert_ne by done.
        destruct (d !! k) as [i|]; [done|].
        apply (f_equal (λ b : bool, if b then _ else _)).
        apply bool_decide_ext. rewrite elem_of_cons.
        split; [by right|by intros [?|?]].
Qed.

(** C2, as the code has it.  [evaluate] is deterministic: called twice in
    succession it returns the same value both times.  It changes no
    infoset that is in the dictionary.  It is not free of effects on the
    keys: the first call adds an all-zero infoset for every key it
    reaches that was absent (the keys of the nodes with other than one
    action that can be reached from the initial states of the deals),
    and adds nothing else; the second call leaves the dictionary exactly
    as the first call left it. *)
Theorem evaluate_deterministic_up_to_creation n d :
  wf_store d →
  forallb (λ deal, playable n (deal_state deal)) deals = true →
  handsize (Card:=Card) * 2 ≤ length (deck2 (Card:=Card)) →
  let reached : list Key :=
    flat_map (λ deal : list Card * list Card,
        visited (S n)
          (sample_new_game_hands
             [sorted card_lt deal.1; sorted card_lt deal.2]))
      (hand_pairs deck2 handsize) in
  ∃ v d',
    evaluate (S n) d = Ok (v, d') ∧
    evaluate (S n) d' = Ok (v, d') ∧
    extends d d' ∧
    (∀ k i, d !! k = Some i → d' !! k = Some i) ∧
    (∀ k, d !! k = None → k ∈ reached →
       d' !! k = Some (Infoset.mk (zeros (num_actions k))
                                  (zeros (num_actions k)))) ∧
    (∀ k, d !! k = None → k ∉ reached → d' !! k = None).
Proof.
  intros Hd Hplay Hsize reached.
  destruct (evaluate_total n d Hd Hplay Hsize) as (value & _ & Heval).
  eexists _, _. split; [exact Heval|].
  destruct (evaluate_twice _ _ _ _ Heval) as [Htwice Hext].
  split_and!; [done|done| | |].
  - intros k i Hk. by rewrite lookup_touch_all, Hk.
  - intros k Hk Hin. rewrite lookup_touch_all, Hk.
    by rewrite bool_decide_eq_true_2.
  - intros k Hk Hin. rewrite lookup_touch_all, Hk.
    by rewrite bool_decide_eq_false_2.
Qed.

(** The enumeration and the divisor of [evaluate].  It walks through
    every ordered pair of disjoint hands of [handsize] cards from the
    deck, each once; there are
    [C(deck, handsize) * C(deck - handsize, handsize)] of them.  For each
    it takes the value [evaluate_helper] returns for the initial state
    with the two hands sorted (children weighted by the average strategy
    and summed, under the signs of the loop variable [payoff]), and it
    returns the sum of these values over that number. *)
Lemma evaluate_enumerates_deals n d :
  NoDup (deck2 (Card:=Card)) →
  wf_store d →
  forallb (λ deal, playable n (deal_state deal)) deals = true →
  handsize (Card:=Card) * 2 ≤ length (deck2 (Card:=Card)) →
  let deck := deck2 (Card:=Card) in
  let h := handsize (Card:=Card) in
  let count := choose (length deck) h * choose (length deck - h) h in
  NoDup deals ∧
  (∀ deal, deal_state deal
           = sample_new_game_hands
               [sorted card_lt deal.1; sorted card_lt deal.2]) ∧
  (∀ hand1 hand2,
     (hand1, hand2) ∈ deals ↔
     hand1 `sublist_of` deck ∧ hand2 `sublist_of` deck ∧
     length hand1 = h ∧ length hand2 = h ∧
     ∀ card, card ∈ hand1 → card ∉ hand2) ∧
  length deals = count ∧
  ∃ (value : list Card * list Card → Q) d',
    (∀ deal, deal ∈ deals →
       average_value (S n) d (deal_state deal) = Ok (value deal) ∧
       ∃ d1, evaluate_helper (S n) (deal_state deal) 1 d
             = Ok (value deal, d1)) ∧
    evaluate (S n) d =
      Ok ((fold_left Qplus (map value deals) 0
           / inject_Z (Z.of_nat count))%Q, d') ∧
    extends d d'.
Proof.
  intros Hnd Hd Hplay Hsize deck h count. split_and!.
  - by apply NoDup_hand_pairs.
  - done.
  - intros hand1 hand2. by apply elem_of_hand_pairs.
  - apply length_hand_pairs.
  - destruct (evaluate_total n d Hd Hplay Hsize) as (value & Hval & Heval).
    exists value. eexists. split_and!; [|done|apply extends_touch_all].
    intros deal Hin. split; [by apply Hval|].
    rewrite evaluate_helper_eq, (Hval deal Hin). eauto.
Qed.

End Evaluator.

(** ** Runs that return *)

Lemma returns_ret {S A} (a : A) (s : S) post : post a s → returns (ret a) s post.
Proof. intros. by exists a, s. Qed.

Lemma returns_bind {S A B} (m : M S A) (k : A → M S B) s post :
  returns m s (λ a s', returns (k a) s' post) → returns (bind m k) s post.
Proof.
  intros (a & s' & Hm & b & s'' & Hk & Hpost).
  exists b, s''. unfold bind. by rewrite Hm.
Qed.

Lemma returns_lift {S A} (o : outcome A) (a : A) (s : S) post :
  o = Ok a → post a s → returns (lift o) s post.
Proof. intros -> ?. by exists a, s. Qed.

Lemma returns_mono {S A} (m : M S A) s (post post' : A → S → Prop) :
  returns m s post → (∀ a s', post a s' → post' a s') → returns m s post'.
Proof. intros (a & s' & ? & ?) Himp. exists a, s'. eauto. Qed.

Lemma returns_ext {S A} (m m' : M S A) s post :
  m s = m' s → returns m' s post → returns m s post.
Proof. intros Heq (a & s' & ? & ?). exists a, s'. by rewrite Heq. Qed.

Lemma returns_zoom {S T A} (proj : S → T) (upd : T → S → S) (m : M T A) s post :
  returns m (proj s) (λ a t, post a (upd t s)) → returns (zoom proj upd m) s post.
Proof.
  intros (a & t & Hm & Hpost). exists a, (upd t s). unfold zoom. by rewrite Hm.
Qed.

Lemma returns_for_loop {S A B} (body : B → A → M S B)
    (I : list A → B → S → Prop) l acc s :
  I l acc s →
  (∀ x rest acc s, x ∈ l → I (x :: rest) acc s → returns (body acc x) s (I rest)) →
  returns (for_loop body l acc) s (I []).
Proof.
  revert acc s. induction l as [|x l IH]; intros acc s HI Hbody; simpl.
  - by apply returns_ret.
  - apply returns_bind. eapply returns_mono; [apply Hbody; [left|done]|].
    intros acc' s' HI'. apply IH; [done|].
    intros ??????. apply Hbody; [by right|done].
Qed.

(** ** Vectors *)

Lemma index_Some {A} (v : list A) i x : v !! i = Some x → index v i = Ok x.
Proof. unfold index. by intros ->. Qed.

Lemma zip_seq_cons {A} ix (x : A) l :
  zip (seq ix (length (x :: l))) (x :: l) = (ix, x) :: zip (seq (S ix) (length l)) l.
Proof. done. Qed.

Lemma length_update_strategy_sum rp i :
  length (Infoset.strategy_sum i) = length (Infoset.cumulative_regrets i) →
  length (Infoset.strategy_sum (Infoset.update_strategy_sum rp i))
  = length (Infoset.strategy_sum i).
Proof.
  intros Hlen. unfold Infoset.update_strategy_sum. simpl.
  rewrite length_zip_with, length_map, length_regret_matching. lia.
Qed.

Lemma add_regret_Some ix delta i r :
  Infoset.cumulative_regrets i !! ix = Some r →
  Infoset.add_regret ix delta i =
    Ok (Infoset.mk (<[ix := (r + delta)%Q]> (Infoset.cumulative_regrets i))
                   (Infoset.strategy_sum i)).
Proof. intros Hr. unfold Infoset.add_regret. by rewrite (index_Some _ _ _ Hr). Qed.

Lemma add_regrets_from_eq ix deltas i :
  ix + length deltas = length (Infoset.cumulative_regrets i) →
  add_regrets_from ix deltas i =
    Ok (Infoset.mk
          (take ix (Infoset.cumulative_regrets i)
           ++ zip_with Qplus (drop ix (Infoset.cumulative_regrets i)) deltas)
          (Infoset.strategy_sum i)).
Proof.
  revert ix i. induction deltas as [|delta deltas IH]; intros ix [r ss] Hlen;
    simpl in *.
  - rewrite zip_with_nil_r, app_nil_r, take_ge by lia. done.
  - destruct (lookup_lt_is_Some_2 r ix) as [x Hx]; [lia|].
    rewrite (add_regret_Some _ _ _ x) by done. cbn [obind].
    rewrite IH by (simpl; rewrite length_insert; lia). simpl. do 2 f_equal.
    rewrite (take_S_r _ _ (x + delta)%Q)
      by (apply list_lookup_insert_eq; by eapply lookup_lt_Some).
    rewrite take_insert_ge, drop_insert_lt by lia.
    rewrite (drop_S r x ix) by done. simpl. by rewrite <- app_assoc.
Qed.

Lemma add_regrets_from_0 deltas i :
  length deltas = length (Infoset.cumulative_regrets i) →
  add_regrets_from 0 deltas i = Ok (add_regrets deltas i).
Proof. intros Hlen. by rewrite add_regrets_from_eq. Qed.

(** ** Nodes whose actions are all tried *)

Section Trainer.
Context {Card Action GameState SuitHand SuitHist Mean Rng AbsCard AbsHist : Type}.
Context `{!EqDecision Card, !EqDecision Action}.
Context `{!EqDecision AbsCard, !Countable AbsCard}.
Context `{!EqDecision AbsHist, !Countable AbsHist}.
Context `{!Game Card Action GameState SuitHand SuitHist Mean Rng}.
Context `{!Abstraction SuitHand SuitHist Action Mean AbsCard AbsHist}.
Context `{!RandomSource Rng}.

Abbreviation Key := (InfoKey (AbsCard:=AbsCard) (AbsHist:=AbsHist)).
Abbreviation Store := (gmap Key Infoset.t).
Abbreviation World := (Store * Rng)%type.
Implicit Types (d : Store) (k : Key) (s : GameState) (i : Infoset.t).

Lemma deref_insert k i d : deref (<[k := i]> d) k = i.
Proof. unfold deref. by rewrite lookup_insert_eq. Qed.

Lemma deref_insert_ne k k' i d : k ≠ k' → deref (<[k := i]> d) k' = deref d k'.
Proof. intros. unfold deref. by rewrite lookup_insert_ne. Qed.

Lemma insert_touch k i d : <[k := i]> (touch k d) = <[k := i]> d.
Proof. unfold touch. destruct (d !! k); [done|]. apply insert_insert_eq. Qed.

Lemma mutate_infoset_Ok k f i d :
  f (deref d k) = Ok i → mutate_infoset k f d = Ok (tt, <[k := i]> d).
Proof. intros Hf. unfold mutate_infoset. by rewrite Hf. Qed.

Lemma regret_loop k rp opp cfv (v r_opp : Q) (l : list Action) ix i d :
  rp !! opp = Some r_opp → ix + length l = length cfv →
  for_loop (regret_update k rp opp cfv v) (zip (seq ix (length l)) l) tt
    (<[k := i]> d) =
  let? i' := add_regrets_from ix
               (map (λ cf, r_opp * (cf - v))%Q (drop ix cfv)) i in
  Ok (tt, <[k := i']> d).
Proof.
  intros Hopp. revert ix i. induction l as [|a l IH]; intros ix i Hlen.
  - simpl in *. rewrite drop_ge by lia. done.
  - rewrite zip_seq_cons. cbn [for_loop]. unfold bind at 1.
    unfold regret_update at 1. unfold bind, lift.
    rewrite (index_Some _ _ _ Hopp).
    destruct (lookup_lt_is_Some_2 cfv ix) as [c Hc]; [simpl in Hlen; lia|].
    rewrite (index_Some _ _ _ Hc), (drop_S _ _ _ Hc).
    cbn [map add_regrets_from]. unfold mutate_infoset. rewrite deref_insert.
    destruct (Infoset.add_regret _ _ _) as [i'| |]; cbn [obind]; [|done..].
    rewrite insert_insert_eq. apply IH. simpl in Hlen. lia.
Qed.

Lemma regret_loop_start k rp opp cfv (v r_opp : Q) (l : list Action) d :
  l ≠ [] → rp !! opp = Some r_opp → length l = length cfv →
  for_loop (regret_update k rp opp cfv v) (enumerate l) tt d =
  let? i' := add_regrets_from 0
               (map (λ cf, r_opp * (cf - v))%Q cfv) (deref d k) in
  Ok (tt, <[k := i']> d).
Proof.
  intros Hne Hopp Hlen.
  pose proof (regret_loop k rp opp cfv v r_opp l 0 (deref d k) d Hopp Hlen) as H.
  rewrite drop_0 in H. rewrite <- H. clear H.
  unfold enumerate. destruct l as [|a l]; [done|].
  rewrite zip_seq_cons. cbn [for_loop].
  assert (regret_update k rp opp cfv v () (0, a) d
          = regret_update k rp opp cfv v () (0, a) (<[k := deref d k]> d))
    as Hstep.
  { unfold regret_update, bind, lift.
    destruct (index rp opp); [|done..]. destruct (index cfv 0); [|done..].
    unfold mutate_infoset. rewrite deref_insert.
    destruct (Infoset.add_regret _ _ _); cbn [obind]; [|done..].
    by rewrite insert_insert_eq. }
  unfold bind. by rewrite Hstep.
Qed.

Section Node.
Context {St : Type} (dict_of : St → Store) (with_dict : Store → St → St).
Context (dict : ∀ A, M Store A → M St A).
Context (run : GameState → list Q → M St Q).
Context (Inv : St → Prop).
Hypothesis dict_zoom : ∀ A (m : M Store A) w, dict A m w = zoom dict_of with_dict m w.
Hypothesis dict_of_with : ∀ d w, dict_of (with_dict d w) = d.
Hypothesis with_with : ∀ d d' w, with_dict d (with_dict d' w) = with_dict d w.

Lemma child_loop s rp pl strategy (r_pl : Q) :
  rp !! pl = Some r_pl →
  ∀ (l : list Action) ix payoff cfv w,
    ix + length l = length cfv → ix + length l ≤ length strategy → Inv w →
    (∀ a rp' w1, a ∈ l → length rp' = length rp → Inv w1 →
       returns (run (get_next_game_state s a) rp') w1 (λ _ w2, Inv w2)) →
    ∃ vs payoff' w',
      for_loop (child_values run s rp pl strategy)
        (zip (seq ix (length l)) l) (payoff, cfv) w
        = Ok ((payoff', take ix cfv ++ vs), w') ∧
      child_runs run s rp pl strategy ix payoff l w vs w' ∧
      length vs = length l ∧ Inv w'.
Proof.
  intros Hpl. induction l as [|a l IH]; intros ix payoff cfv w Hlen Hstr Hw Hrun.
  - exists [], payoff, w. simpl in *.
    rewrite app_nil_r, take_ge by lia. split_and!; [done|constructor|done..].
  - rewrite zip_seq_cons. cbn [for_loop]. unfold bind at 1.
    unfold child_values at 1. unfold bind, lift.
    destruct (lookup_lt_is_Some_2 strategy ix) as [p Hp]; [simpl in *; lia|].
    rewrite (index_Some _ _ _ Hp). unfold scale_reach.
    rewrite (index_Some _ _ _ Hpl). cbn [obind].
    destruct (Hrun a (<[pl := (r_pl * p)%Q]> rp) w) as (v & w1 & Hv & Hw1);
      [left|by rewrite length_insert|done|].
    rewrite Hv. unfold store_at. rewrite decide_True by (simpl in *; lia).
    set (payoff1 := flip_payoff payoff s (get_next_game_state s a)).
    destruct (IH (S ix) payoff1 (<[ix := (payoff1 * v)%Q]> cfv) w1)
      as (vs & payoff' & w' & Hloop & Hruns & Hvs & Hw').
    { rewrite length_insert. simpl in *. lia. }
    { simpl in *. lia. }
    { done. }
    { intros ?????. apply Hrun; [by right|done..]. }
    exists ((payoff1 * v)%Q :: vs), payoff', w'. split_and!.
    + unfold ret. rewrite Hloop. do 3 f_equal.
      rewrite (take_S_r _ _ (payoff1 * v)%Q)
        by (apply list_lookup_insert_eq; simpl in *; lia).
      rewrite take_insert_ge by lia. by rewrite <- app_assoc.
    + by econstructor.
    + simpl. lia.
    + done.
Qed.

Lemma update_node_returns s rp w :
  get_possible_actions s ≠ [] → player s < 2 → length rp = 2 → Inv w →
  (∀ w, Inv w → wf_store (dict_of w)) →
  (∀ w i, Inv w → wf_infoset (get_info_key s) i →
          Inv (with_dict (<[get_info_key s := i]> (dict_of w)) w)) →
  (∀ a rp' w1, a ∈ get_possible_actions s → length rp' = 2 → Inv w1 →
     returns (run (get_next_game_state s a) rp') w1 (λ _ w2, Inv w2)) →
  returns (update_node dict run s rp (get_possible_actions s)) w
    (λ v w', all_actions_node run dict_of with_dict s rp w v w' ∧ Inv w').
Proof.
  intros Hne Hplayer Hrp Hw Hwf Hins Hrun.
  set (acts := get_possible_actions s) in *.
  set (k := get_info_key s) in *.
  set (i0 := deref (dict_of w) k).
  set (strategy := Infoset.regret_matching i0).
  assert (Hk : num_actions k = length acts) by apply num_actions_get_info_key.
  destruct (wf_deref (dict_of w) k (Hwf w Hw)) as [Hreg Hss]. fold i0 in Hreg, Hss.
  destruct (lookup_lt_is_Some_2 rp (player s)) as [r_pl Hr_pl]; [lia|].
  destruct (lookup_lt_is_Some_2 rp ((player s + 1) mod 2)) as [r_opp Hr_opp].
  { rewrite Hrp. apply Nat.mod_upper_bound. lia. }
  set (i1 := Infoset.update_strategy_sum r_pl i0).
  set (w2 := with_dict (<[k := i1]> (dict_of w)) w).
  assert (Hi1 : wf_infoset k i1).
  { split; [done|]. unfold i1. rewrite length_update_strategy_sum; lia. }
  destruct (child_loop s rp (player s) strategy r_pl Hr_pl acts 0 (-1)%Q
              (zeros (length acts)) w2)
    as (cfv & payoff' & w3 & Hloop & Hruns & Hcfv & Hw3).
  { unfold zeros. by rewrite length_replicate. }
  { unfold strategy. rewrite length_regret_matching. simpl. lia. }
  { by apply Hins. }
  { intros a rp' w1 Ha Hlen. apply Hrun; [done|lia]. }
  assert (Hstrat : length cfv = length strategy).
  { unfold strategy. rewrite length_regret_matching. lia. }
  destruct (wf_deref (dict_of w3) k (Hwf w3 Hw3)) as [Hreg3 Hss3].
  set (deltas := map (λ cf, r_opp * (cf - qsum (zip_with Qmult cfv strategy)))%Q cfv).
  exists (qsum (zip_with Qmult cfv strategy)),
    (with_dict (<[k := add_regrets deltas (deref (dict_of w3) k)]> (dict_of w3)) w3).
  split; [|split].
  - unfold update_node. fold acts k. unfold bind, lift.
    rewrite dict_zoom. unfold zoom. rewrite get_infoset_eq. fold i0 strategy.
    rewrite (index_Some _ _ _ Hr_pl).
    rewrite dict_zoom. unfold zoom. rewrite dict_of_with.
    erewrite mutate_infoset_Ok; [|by rewrite deref_touch].
    rewrite insert_touch, with_with. fold i0 i1 w2.
    unfold enumerate. rewrite Hloop. simpl take. cbn [app].
    unfold dot. rewrite decide_True by done.
    rewrite dict_zoom. unfold zoom.
    rewrite (regret_loop_start k rp _ cfv _ r_opp acts (dict_of w3))
      by (done || lia).
    rewrite add_regrets_from_0 by (unfold deltas; rewrite length_map; lia).
    done.
  - exists r_pl, r_opp, cfv, w3. split_and!; try done.
    unfold dot. by rewrite decide_True.
  - apply Hins; [done|]. split; simpl; [|done].
    rewrite length_zip_with. unfold deltas. rewrite length_map. lia.
Qed.

End Node.

(** *** Chance-sampled CFR *)

Lemma single_action_returns {St} (run : GameState → M St Q) s a (w : St) post :
  returns (run (get_next_game_state s a)) w
    (λ v w', post (flip_payoff (-1) s (get_next_game_state s a) * v)%Q w') →
  returns (single_action run s a) w post.
Proof.
  intros Hrun. unfold single_action. apply returns_bind.
  eapply returns_mono; [exact Hrun|]. intros v w' Hpost. by apply returns_ret.
Qed.

(** On a well-formed dictionary a traversal of a playable state returns,
    and leaves the dictionary well-formed. *)
Lemma chance_cfr_returns n s rp d :
  wf_store d → playable n s = true → length rp = 2 →
  returns (chance_cfr (S n) s rp) d (λ _ d', wf_store d').
Proof.
  revert s rp d. induction n as [|n IH]; intros s rp d Hd Hs Hrp.
  - apply playable_0 in Hs. simpl. rewrite Hs. by apply returns_ret.
  - remember (S n) as m eqn:Hm. cbn [chance_cfr].
    destruct (terminal s) eqn:Ht; [by apply returns_ret|]. subst m.
    destruct (playable_S _ _ Ht Hs) as (Hne & Hpl & Hch).
    destruct (get_possible_actions s) as [|a [|b l]] eqn:Hacts; [done| |].
    + apply single_action_returns. eapply returns_mono.
      * apply IH; [done| |done]. apply Hch. left.
      * done.
    + rewrite <- Hacts in *.
      eapply returns_mono.
      * apply (update_node_returns id (λ d _, d) (λ _ m, m)
                 (chance_cfr (S n)) wf_store); try done.
        -- intros A m w. unfold zoom, id. simpl. by destruct (m w) as [[]| |].
        -- intros w i Hw Hi. by apply wf_store_insert.
        -- intros a' rp' w1 Ha Hrp' Hw1. apply IH; [done| |done]. by apply Hch.
      * by intros v d' [_ ?].
Qed.

Lemma train_chance_loop fuel n :
  samples_playable fuel →
  ∀ a util (w : World), wf_store w.1 →
    ∃ vs w',
      for_loop (λ util _,
          let! game_state := on_rng (λ g, Ok (sample_new_game g)) in
          let! v := on_dict (chance_cfr (S fuel) game_state (ones 2)) in
          ret (util + v)%Q) (seq a n) util w
      = Ok (fold_left Qplus vs util, w') ∧
      chance_iterations (S fuel) n w vs w' ∧ length vs = n ∧ wf_store w'.1.
Proof.
  intros Hplay. induction n as [|n IH]; intros a util [d g] Hd.
  - exists [], (d, g). split_and!; [done|constructor|done..].
  - cbn [seq for_loop]. unfold bind at 1. unfold bind at 1.
    unfold on_rng at 1. unfold zoom at 1. cbn [snd fst].
    destruct (sample_new_game g) as [gs g1] eqn:Hsample.
    unfold bind at 1. unfold on_dict at 1. unfold zoom at 1. cbn [snd fst].
    destruct (chance_cfr_returns fuel gs (ones 2) d) as (v & d1 & Hv & Hd1);
      [done| |done|].
    { specialize (Hplay g). by rewrite Hsample in Hplay. }
    rewrite Hv. unfold ret at 1.
    destruct (IH (S a) (util + v)%Q (d1, g1) Hd1) as (vs & w' & Hloop & Hits & Hlen & Hw').
    exists (v :: vs), w'. split_and!; [done| |simpl; lia|done].
    econstructor; cbn [fst snd]; rewrite Hsample; done.
Qed.

Lemma chance_cfr_node_eq fuel s rp d :
  terminal s = false → length (get_possible_actions s) ≠ 1 →
  chance_cfr (S fuel) s rp d =
    update_node (λ _ m, m) (chance_cfr fuel) s rp (get_possible_actions s) d.
Proof.
  intros Ht Hlen. cbn [chance_cfr]. rewrite Ht.
  by destruct (get_possible_actions s) as [|a [|b l]].
Qed.

Lemma chance_node_returns n s rp d :
  wf_store d → terminal s = false → playable (S n) s = true → length rp = 2 →
  returns (update_node (λ _ m, m) (chance_cfr (S n)) s rp
             (get_possible_actions s)) d
    (λ v d', all_actions_node (chance_cfr (S n)) id (λ d _, d) s rp d v d'
             ∧ wf_store d').
Proof.
  intros Hd Ht Hs Hrp.
  destruct (playable_S _ _ Ht Hs) as (Hne & Hpl & Hch).
  apply (update_node_returns id (λ d _, d) (λ _ m, m)
           (chance_cfr (S n)) wf_store); try done.
  - intros A m w. unfold zoom, id. simpl. by destruct (m w) as [[]| |].
  - intros w i Hw Hi. by apply wf_store_insert.
  - intros a' rp' w1 Ha Hrp' Hw1. apply chance_cfr_returns; [done| |done].
    by apply Hch.
Qed.

(** C4.  In chance-sampled CFR, at a node with two or more actions (of
    either player): the strategy is the regret-matching strategy of the
    node's infoset; the infoset's strategy sum is updated with the acting
    player's reach probability; every action's counterfactual value comes
    from the recursive call in which the acting player's reach
    probability, and no other, is multiplied by that action's
    probability; the node value is the dot product of these values with
    the strategy; and the regret of every action grows by the opponent's
    reach probability times (its counterfactual value minus the node
    value).  Every iteration of [train_chance] is such a traversal of a
    newly sampled game from reach probabilities [1, 1], with no player
    left out. *)
Theorem chance_cfr_full_update (n : nat) s (rp : list Q) d
    (iterations : nat) (w : World) :
  wf_store d → terminal s = false →
  2 ≤ length (get_possible_actions s) →
  playable (S n) s = true → length rp = 2 →
  samples_playable n → wf_store w.1 → 0 < iterations →
  let pl := player s in
  let opponent := (pl + 1) mod 2 in
  let k := get_info_key s in
  let infoset := deref d k in
  let strategy := Infoset.regret_matching infoset in
  (∃ (r_player r_opponent : Q) (counterfactual_values : list Q)
     (d3 : Store) (node_value : Q) (d' : Store),
     chance_cfr (S (S n)) s rp d = Ok (node_value, d') ∧
     rp !! pl = Some r_player ∧
     rp !! opponent = Some r_opponent ∧
     child_runs (chance_cfr (S n)) s rp pl strategy 0 (-1)%Q
       (get_possible_actions s)
       (<[k := Infoset.update_strategy_sum r_player infoset]> d)
       counterfactual_values d3 ∧
     dot counterfactual_values strategy = Ok node_value ∧
     d' = <[k := add_regrets
                   (map (λ cf, r_opponent * (cf - node_value))%Q
                      counterfactual_values)
                   (deref d3 k)]> d3) ∧
  (∃ (utils : list Q) (w' : World),
     length utils = iterations ∧
     chance_iterations (S n) iterations w utils w' ∧
     train_chance (S n) iterations w
     = Ok ((qsum utils / inject_Z (Z.of_nat iterations))%Q, w')).
Proof.
  intros Hd Ht Hacts Hs Hrp Hplay Hw Hit pl opponent k infoset strategy. split.
  - destruct (chance_node_returns n s rp d Hd Ht Hs Hrp)
      as (v & d' & Hrun & Hnode & _).
    destruct Hnode as (r_pl & r_opp & cfv & d3 & Hpl & Hopp & Hruns & Hdot & ->).
    exists r_pl, r_opp, cfv, d3, v. eexists. split_and!; [|done..].
    rewrite chance_cfr_node_eq by (done || lia). exact Hrun.
  - destruct (train_chance_loop n iterations Hplay 0 0%Q w Hw)
      as (utils & w' & Hloop & Hits & Hlen & _).
    exists utils, w'. split_and!; [done..|].
    unfold train_chance. unfold bind at 1. rewrite Hloop. unfold lift, py_div.
    destruct iterations; [lia|]. done.
Qed.

End Trainer.

(** ** Sampling an action *)

Lemma bisect_from_le a x lo hi : lo ≤ hi → bisect_from a x lo hi ≤ hi.
Proof.
  revert lo. induction a as [|y a IH]; intros lo Hle; simpl; [done|].
  destruct (decide (hi ≤ lo)); [done|].
  destruct (Qlt_le_dec x y); [lia|]. apply IH. lia.
Qed.

Lemma length_accumulate_from acc w : length (accumulate_from acc w) = length w.
Proof. revert acc. induction w as [|x w IH]; intros acc; simpl; [done|]. by rewrite IH. Qed.

Lemma length_accumulate w : length (accumulate w) = length w.
Proof. destruct w; simpl; [done|]. by rewrite length_accumulate_from. Qed.

Lemma last_accumulate_from acc w :
  w ≠ [] → ∃ t, last (accumulate_from acc w) = Some t ∧ (t == acc + qsum w)%Q.
Proof.
  revert acc. induction w as [|x w IH]; intros acc Hne; [done|].
  destruct w as [|y w].
  - exists (acc + x)%Q. split; [done|]. rewrite qsum_cons. unfold qsum. simpl. ring.
  - destruct (IH (acc + x)%Q) as (t & Hlast & Ht); [done|].
    exists t. split.
    + simpl in *. exact Hlast.
    + rewrite Ht, (qsum_cons x). ring.
Qed.

Lemma last_accumulate w :
  w ≠ [] → ∃ t, last (accumulate w) = Some t ∧ (t == qsum w)%Q.
Proof.
  intros Hne. destruct w as [|x w]; [done|]. destruct w as [|y w].
  - exists x. split; [done|]. unfold qsum. simpl. ring.
  - destruct (last_accumulate_from x (y :: w)) as (t & Hlast & Ht); [done|].
    exists t. split.
    + simpl in *. exact Hlast.
    + rewrite Ht, (qsum_cons x). ring.
Qed.

Lemma choices_returns {Rng A} `{!RandomSource Rng}
    (population : list A) (weights : list Q) (g : Rng) :
  population ≠ [] → length weights = length population → (0 < qsum weights)%Q →
  ∃ a g', choices population weights g = Ok (a, g') ∧ a ∈ population.
Proof.
  intros Hne Hlen Hpos. unfold choices.
  rewrite decide_True by (by rewrite length_accumulate).
  destruct (last_accumulate weights) as (t & -> & Ht).
  { intros ->. by destruct population. }
  destruct (Qlt_le_dec 0 t) as [_|Hle].
  - unfold bind. destruct (random g) as [u g'].
    set (j := bisect _ _ _).
    assert (j < length population) as Hj.
    { unfold j, bisect.
      pose proof (bisect_from_le (accumulate weights) (u * t)%Q 0
                    (length population - 1) ltac:(lia)).
      destruct population; [done|]. simpl in *. lia. }
    destruct (lookup_lt_is_Some_2 _ _ Hj) as [a Ha].
    exists a, g'. unfold lift. rewrite (index_Some _ _ _ Ha).
    split; [done|]. by eapply list_elem_of_lookup_2.
  - rewrite Ht in Hle. exfalso. by apply (Qlt_not_le _ _ Hpos).
Qed.

Lemma list_index_elem `{EqDecision A} (l : list A) (x : A) :
  x ∈ l → ∃ ix, list_index l x = Ok ix ∧ l !! ix = Some x.
Proof.
  intros Hin. unfold list_index.
  destruct (list_find_elem_of (λ y, y = x) l x Hin eq_refl) as [[ix y] Hfind].
  rewrite Hfind. apply list_find_Some in Hfind as (Hy & -> & _). eauto.
Qed.

(** ** External-sampled CFR *)

Section External.
Context {Card Action GameState SuitHand SuitHist Mean Rng AbsCard AbsHist : Type}.
Context `{!EqDecision Card, !EqDecision Action}.
Context `{!EqDecision AbsCard, !Countable AbsCard}.
Context `{!EqDecision AbsHist, !Countable AbsHist}.
Context `{!Game Card Action GameState SuitHand SuitHist Mean Rng}.
Context `{!Abstraction SuitHand SuitHist Action Mean AbsCard AbsHist}.
Context `{!RandomSource Rng}.

Abbreviation Key := (InfoKey (AbsCard:=AbsCard) (AbsHist:=AbsHist)).
Abbreviation Store := (gmap Key Infoset.t).
Abbreviation World := (Store * Rng)%type.
Implicit Types (d : Store) (k : Key) (s : GameState) (i : Infoset.t).
Implicit Types (w : World) (rp : list Q) (u n : nat).

Lemma external_cfr_sampled_eq fuel s rp u w :
  terminal s = false → length (get_possible_actions s) ≠ 1 → player s ≠ u →
  external_cfr (S fuel) s rp u w =
    sampled_node (λ s rp, external_cfr fuel s rp u) s rp
      (get_possible_actions s) w.
Proof.
  intros Ht Hlen Hpl. cbn [external_cfr]. rewrite Ht.
  destruct (get_possible_actions s) as [|a [|b l]]; [|done|];
    by rewrite decide_True.
Qed.

Lemma external_cfr_update_eq fuel s rp u w :
  terminal s = false → length (get_possible_actions s) ≠ 1 → player s = u →
  external_cfr (S fuel) s rp u w =
    update_node (@on_dict _ _ _ _ _ _ _)
      (λ s rp, external_cfr fuel s rp u) s rp (get_possible_actions s) w.
Proof.
  intros Ht Hlen Hpl. cbn [external_cfr]. rewrite Ht.
  destruct (get_possible_actions s) as [|a [|b l]]; [|done|];
    by rewrite decide_False by (by intros ?).
Qed.

(** What the branch for a player that is not updated does. *)
Lemma sampled_node_returns (run : GameState → list Q → M World Q) s rp w
    (post : World → Prop) :
  wf_store w.1 → get_possible_actions s ≠ [] → player s < 2 → length rp = 2 →
  (∀ a rp' g', a ∈ get_possible_actions s → length rp' = 2 →
     returns (run (get_next_game_state s a) rp')
       (touch (get_info_key s) w.1, g') (λ _ w', post w')) →
  let k := get_info_key s in
  let strategy := Infoset.regret_matching (deref w.1 k) in
  ∃ action g' action_index action_prob r_player v w',
    choices (get_possible_actions s) strategy w.2 = Ok (action, g') ∧
    action ∈ get_possible_actions s ∧
    list_index (get_possible_actions s) action = Ok action_index ∧
    strategy !! action_index = Some action_prob ∧
    rp !! player s = Some r_player ∧
    run (get_next_game_state s action)
      (<[player s := (r_player * action_prob)%Q]> rp) (touch k w.1, g')
      = Ok (v, w') ∧
    sampled_node run s rp (get_possible_actions s) w
      = Ok ((flip_payoff (-1) s (get_next_game_state s action) * v)%Q, w') ∧
    post w'.
Proof.
  intros Hw Hne Hpl Hrp Hrun k strategy. destruct w as [d g]. simpl in *.
  pose proof (num_actions_get_info_key s) as Hk. fold k in Hk.
  destruct (wf_deref d k Hw) as [Hreg _].
  assert (Hstrat : length strategy = length (get_possible_actions s)).
  { unfold strategy. rewrite length_regret_matching. lia. }
  destruct (choices_returns (get_possible_actions s) strategy g)
    as (a & g' & Hchoice & Ha); [done..| |].
  { unfold strategy. rewrite regret_matching_sum; [done|].
    intros Hnil. rewrite Hnil in Hreg. simpl in Hreg.
    destruct (get_possible_actions s); [done|simpl in *; lia]. }
  destruct (list_index_elem _ _ Ha) as (ix & Hix & Hlookup).
  destruct (lookup_lt_is_Some_2 strategy ix) as [p Hp].
  { rewrite Hstrat. by eapply lookup_lt_Some. }
  destruct (lookup_lt_is_Some_2 rp (player s)) as [r_pl Hr_pl]; [lia|].
  destruct (Hrun a (<[player s := (r_pl * p)%Q]> rp) g')
    as (v & w' & Hv & Hpost); [done|by rewrite length_insert|].
  exists a, g', ix, p, r_pl, v, w'. split_and!; try done.
  unfold sampled_node. fold k. unfold bind, lift.
  unfold on_dict at 1. unfold zoom. cbn [fst snd].
  rewrite get_infoset_eq. fold strategy.
  unfold on_rng, zoom. cbn [fst snd]. rewrite Hchoice.
  rewrite Hix. rewrite (index_Some _ _ _ Hp). unfold scale_reach.
  rewrite (index_Some _ _ _ Hr_pl). cbn [obind]. fold k in Hv. rewrite Hv. done.
Qed.

Lemma kept_refl u d : wf_store d → kept u d d.
Proof. by split. Qed.

Lemma kept_trans u d1 d2 d3 : kept u d1 d2 → kept u d2 d3 → kept u d1 d3.
Proof.
  intros [_ H12] [Hwf H23]. split; [done|].
  intros k Hk. by rewrite H23, H12.
Qed.

Lemma kept_touch u k d : wf_store d → kept u d (touch k d).
Proof.
  intros Hd. split; [by apply wf_store_touch|]. intros ??. apply deref_touch.
Qed.

(** On a well-formed dictionary a traversal of a playable state returns;
    it keeps the dictionary well-formed and changes no infoset of a player
    other than [update_player]. *)
Lemma external_cfr_returns n u s rp w :
  wf_store w.1 → playable n s = true → length rp = 2 →
  returns (external_cfr (S n) s rp u) w (λ _ w', kept u w.1 w'.1).
Proof.
  revert s rp w. induction n as [|n IH]; intros s rp w Hw Hs Hrp.
  - apply playable_0 in Hs. simpl. rewrite Hs. apply returns_ret.
    by apply kept_refl.
  - destruct (terminal s) eqn:Ht.
    { cbn [external_cfr]. rewrite Ht. apply returns_ret. by apply kept_refl. }
    destruct (playable_S _ _ Ht Hs) as (Hne & Hpl & Hch).
    destruct (decide (length (get_possible_actions s) = 1)) as [Hone|Hmany].
    + cbn [external_cfr]. rewrite Ht.
      destruct (get_possible_actions s) as [|a [|b l]] eqn:Hacts; [done| |done].
      apply single_action_returns. eapply returns_mono.
      * apply IH; [done| |done]. apply Hch. left.
      * done.
    + destruct (decide (player s ≠ u)) as [Hother|Hsame].
      * eapply returns_ext; [by apply external_cfr_sampled_eq|].
        destruct (sampled_node_returns (λ s rp, external_cfr (S n) s rp u)
                    s rp w (λ w', kept u w.1 w'.1))
          as (a & g' & ix & p & r & v & w' & _ & _ & _ & _ & _ & _ & Hnode & Hpost);
          try done.
        { intros a rp' g' Ha Hrp'. eapply returns_mono.
          - apply IH; [by apply wf_store_touch|by apply Hch|done].
          - intros v' w' Hkept. simpl in Hkept.
            eapply kept_trans; [|exact Hkept]. by apply kept_touch. }
        eexists _, _. split; [exact Hnode|done].
      * apply dec_stable in Hsame.
        eapply returns_ext; [by apply external_cfr_update_eq|].
        eapply returns_mono.
        -- apply (update_node_returns fst (λ d (w : World), (d, w.2))
                    (@on_dict _ _ _ _ _ _ _)
                    (λ s rp, external_cfr (S n) s rp u)
                    (λ w', kept u w.1 w'.1)); try done.
           ++ by intros w' [? _].
           ++ intros w' i [Hwf Hkeep] Hi. split; simpl.
              ** by apply wf_store_insert.
              ** intros k Hk. rewrite deref_insert_ne; [by apply Hkeep|].
                 intros <-. apply Hk. unfold key_player.
                 by rewrite player_get_info_key.
           ++ intros a rp' w1 Ha Hrp' Hkept. eapply returns_mono.
              ** apply IH; [by destruct Hkept|by apply Hch|done].
              ** intros v' w2 Hkept2. by eapply kept_trans.
        -- by intros v w' [_ ?].
Qed.

(** C6.  In external-sampled CFR, at a node with two or more actions
    whose player is not [update_player]: one action is drawn, by one call
    of [random.choices] weighted by the regret-matching strategy of the
    node's infoset; the recursion goes into that action's child only, with
    the acting player's reach probability multiplied by the probability
    of the drawn action; and the node's infoset, like every infoset of a
    player that is not updated, has the same cumulative regrets and
    strategy sum after the traversal as before (the child starts from the
    dictionary as it was, but for the fresh entry [get_infoset] makes when
    the key is new). *)
Theorem external_cfr_samples_other_player n s rp u w :
  wf_store w.1 → terminal s = false →
  2 ≤ length (get_possible_actions s) →
  playable (S n) s = true → length rp = 2 →
  player s ≠ u →
  let k := get_info_key s in
  let strategy := Infoset.regret_matching (deref w.1 k) in
  ∃ (action : Action) (g' : Rng) (action_index : nat)
    (action_prob r_player v : Q) (w' : World),
    choices (get_possible_actions s) strategy w.2 = Ok (action, g') ∧
    action ∈ get_possible_actions s ∧
    list_index (get_possible_actions s) action = Ok action_index ∧
    strategy !! action_index = Some action_prob ∧
    rp !! player s = Some r_player ∧
    external_cfr (S n) (get_next_game_state s action)
      (<[player s := (r_player * action_prob)%Q]> rp) u (touch k w.1, g')
      = Ok (v, w') ∧
    external_cfr (S (S n)) s rp u w
      = Ok ((flip_payoff (-1) s (get_next_game_state s action) * v)%Q, w') ∧
    deref (touch k w.1) k = deref w.1 k ∧
    deref w'.1 k = deref w.1 k ∧
    ∀ k', key_player k' ≠ u → deref w'.1 k' = deref w.1 k'.
Proof.
  intros Hw Ht Hacts Hs Hrp Hother k strategy.
  destruct (playable_S _ _ Ht Hs) as (Hne & Hpl & Hch).
  destruct (sampled_node_returns (λ s rp, external_cfr (S n) s rp u)
              s rp w (λ w', kept u w.1 w'.1))
    as (a & g' & ix & p & r & v & w' & Hchoice & Ha & Hix & Hp & Hr & Hv
        & Hnode & [_ Hkept]);
    try done.
  { intros a rp' g' Ha Hrp'. eapply returns_mono.
    - apply external_cfr_returns; [by apply wf_store_touch|by apply Hch|done].
    - intros v' w' Hkept. simpl in Hkept.
      eapply kept_trans; [|exact Hkept]. by apply kept_touch. }
  exists a, g', ix, p, r, v, w'. split_and!; try done.
  - rewrite external_cfr_sampled_eq by (done || lia). exact Hnode.
  - apply deref_touch.
  - apply Hkept. unfold key_player, k. by rewrite player_get_info_key.
Qed.

(** *** The training loop *)

Lemma sample_then {A} (k : GameState → M World A) w :
  (let! game_state := on_rng (λ g, Ok (sample_new_game g)) in k game_state) w
  = k (sample_new_game w.2).1 (w.1, (sample_new_game w.2).2).
Proof.
  destruct w as [d g]. unfold bind, on_rng, zoom. cbn [fst snd].
  by destruct (sample_new_game g).
Qed.

Lemma traversal_step fuel u (util : Q) w :
  samples_playable fuel → wf_store w.1 →
  ∃ v w1,
    (let! game_state := on_rng (λ g, Ok (sample_new_game g)) in
     let! v := external_cfr (S fuel) game_state (ones 2) u in
     ret (util + v)%Q) w = Ok ((util + v)%Q, w1) ∧
    external_cfr (S fuel) (sample_new_game w.2).1 (ones 2) u
      (w.1, (sample_new_game w.2).2) = Ok (v, w1) ∧
    wf_store w1.1.
Proof.
  intros Hplay Hw. destruct w as [d g]. cbn [fst snd] in *.
  specialize (Hplay g).
  unfold bind at 1. unfold on_rng, zoom. cbn [fst snd].
  destruct (sample_new_game g) as [gs g1]. cbn [fst snd] in *.
  destruct (external_cfr_returns fuel u gs (ones 2) (d, g1))
    as (v & w1 & Hv & [Hw1 _]); [done..|].
  exists v, w1. unfold bind, ret. rewrite Hv. done.
Qed.

Lemma train_external_loop fuel n :
  samples_playable fuel →
  ∀ a util w, wf_store w.1 →
    ∃ vs w',
      for_loop (λ util _,
          for_loop (λ util (i : nat),
              let! game_state := on_rng (λ g, Ok (sample_new_game g)) in
              let! v := external_cfr (S fuel) game_state (ones 2) i in
              ret (util + v)%Q) (seq 0 2) util) (seq a n) util w
      = Ok (fold_left Qplus vs util, w') ∧
      traversals_run (S fuel) (concat (replicate n [0; 1])) w vs w' ∧
      length vs = 2 * n ∧ wf_store w'.1.
Proof.
  intros Hplay. induction n as [|n IH]; intros a util w Hw.
  - exists [], w. split_and!; [done|constructor|done..].
  - cbn [seq for_loop]. unfold bind at 1. unfold bind at 1.
    destruct (traversal_step fuel 0 util w Hplay Hw) as (v0 & w1 & -> & Hv0 & Hw1).
    unfold bind at 1.
    destruct (traversal_step fuel 1 (util + v0)%Q w1 Hplay Hw1)
      as (v1 & w2 & -> & Hv1 & Hw2).
    unfold ret at 1.
    destruct (IH (S a) (util + v0 + v1)%Q w2 Hw2) as (vs & w' & Hloop & Hruns & Hlen & Hw').
    exists (v0 :: v1 :: vs), w'. split_and!; [done| |simpl; lia|done].
    cbn [replicate concat app].
    eapply traversals_cons; [exact Hv0|].
    eapply traversals_cons; [exact Hv1|]. exact Hruns.
Qed.

(** C5, as the code has it.  For a positive number of iterations,
    [train_external] makes two traversals in each of its iterations, the
    first with update player 0 and the second with update player 1, each
    on a newly sampled game from reach probabilities [1, 1]; it returns
    the sum of the root values over twice the number of iterations. *)
Theorem train_external_alternates n (iterations : nat) w :
  samples_playable n → wf_store w.1 → 0 < iterations →
  ∃ (utils : list Q) (w' : World),
    length utils = 2 * iterations ∧
    traversals_run (S n) (concat (replicate iterations [0; 1])) w utils w' ∧
    train_external (S n) iterations w
    = Ok ((qsum utils / inject_Z (Z.of_nat (iterations * 2)))%Q, w').
Proof.
  intros Hplay Hw Hpos.
  destruct (train_external_loop n iterations Hplay 0 0%Q w Hw)
    as (utils & w' & Hloop & Hruns & Hlen & _).
  exists utils, w'. split_and!; [done..|].
  unfold train_external. unfold bind at 1. rewrite Hloop. unfold lift, py_div.
  destruct iterations; [lia|]. done.
Qed.

(** With no iteration the final division is [0 / 0]. *)
Lemma train_external_0 fuel w :
  train_external fuel 0 w = Raise ZeroDivisionError.
Proof. done. Qed.

(** *** The exploitability estimate *)

Lemma exploitability_pass fuel u n :
  samples_playable fuel →
  ∀ a w, wf_store w.1 →
    ∃ vs w',
      for_loop (λ _ _,
          let! game_state := on_rng (λ g, Ok (sample_new_game g)) in
          let! _ := external_cfr (S fuel) game_state (ones 2) u in
          ret ()) (seq a n) () w
      = Ok ((), w') ∧
      traversals_run (S fuel) (replicate n u) w vs w' ∧ wf_store w'.1.
Proof.
  intros Hplay. induction n as [|n IH]; intros a w Hw.
  - exists [], w. split_and!; [done|constructor|done].
  - cbn [seq for_loop]. unfold bind at 1.
    destruct (traversal_step fuel u 0%Q w Hplay Hw) as (v & w1 & Hstep & Hv & Hw1).
    rewrite sample_then. unfold bind at 1. rewrite Hv. unfold ret at 1.
    destruct (IH (S a) w1 Hw1) as (vs & w' & Hloop & Hruns & Hw').
    exists (v :: vs), w'. split_and!; [done| |done].
    cbn [replicate]. eapply traversals_cons; [exact Hv|]. exact Hruns.
Qed.

(** C7.  [get_exploitability] returns [b1 - b2], where [b1] is what
    [evaluate] returns after the given number of traversals with update
    player 0 from the dictionary of the call, and [b2] what it returns
    after as many traversals with update player 1 from that same
    dictionary; when it returns, the dictionary is the one of the call
    again. *)
Theorem get_exploitability_restores n (iterations : nat) w :
  wf_store w.1 → samples_playable n →
  forallb (λ deal, playable n (deal_state deal)) deals = true →
  handsize (Card:=Card) * 2 ≤ length (deck2 (Card:=Card)) →
  ∃ (utils1 utils2 : list Q) (w1 w2 : World) (b1 b2 : Q) (d1 d2 : Store),
    traversals_run (S n) (replicate iterations 0) w utils1 w1 ∧
    evaluate (S n) w1.1 = Ok (b1, d1) ∧
    traversals_run (S n) (replicate iterations 1) (w.1, w1.2) utils2 w2 ∧
    evaluate (S n) w2.1 = Ok (b2, d2) ∧
    get_exploitability (S n) iterations w = Ok ((b1 - b2)%Q, (w.1, w2.2)).
Proof.
  intros Hw Hplay Hdeals Hsize.
  destruct (exploitability_pass n 0 iterations Hplay 0 w Hw)
    as (utils1 & w1 & Hpass1 & Hruns1 & Hw1).
  destruct (evaluate_total n w1.1 Hw1 Hdeals Hsize) as (value1 & _ & Heval1).
  destruct (exploitability_pass n 1 iterations Hplay 0 (w.1, w1.2) Hw)
    as (utils2 & w2 & Hpass2 & Hruns2 & Hw2).
  destruct (evaluate_total n w2.1 Hw2 Hdeals Hsize) as (value2 & _ & Heval2).
  eexists utils1, utils2, w1, w2, _, _, _, _.
  split_and!; [exact Hruns1|exact Heval1|exact Hruns2|exact Heval2|].
  unfold get_exploitability. unfold bind at 1. unfold get at 1.
  unfold bind at 1. rewrite Hpass1.
  unfold bind at 1. unfold on_dict at 1. unfold zoom at 1. rewrite Heval1.
  unfold bind at 1. unfold on_dict at 1. unfold zoom at 1. unfold put at 1.
  cbn [fst snd].
  unfold bind at 1. rewrite Hpass2.
  unfold bind at 1. unfold on_dict at 1. unfold zoom at 1. rewrite Heval2.
  unfold bind at 1. unfold on_dict at 1. unfold zoom at 1. unfold put at 1.
  cbn [fst snd]. done.
Qed.

End External.

(** * Further properties of the class *)

(** ** The variable [payoff] in the loops over the actions *)

Section Signs.
Context {Card Action GameState SuitHand SuitHist Mean Rng AbsCard AbsHist : Type}.
Context `{!EqDecision Card, !EqDecision Action}.
Context `{!EqDecision AbsCard, !Countable AbsCard}.
Context `{!EqDecision AbsHist, !Countable AbsHist}.
Context `{!Game Card Action GameState SuitHand SuitHist Mean Rng}.
Context `{!Abstraction SuitHand SuitHist Action Mean AbsCard AbsHist}.
Context `{!RandomSource Rng}.

Abbreviation Key := (InfoKey (AbsCard:=AbsCard) (AbsHist:=AbsHist)).
Abbreviation Store := (gmap Key Infoset.t).
Implicit Types (d : Store) (s : GameState) (rp : list Q).

Lemma flip_payoff_keeps payoff s a :
  flip_payoff payoff s (get_next_game_state s a)
  = if keeps_move s a then 1%Q else payoff.
Proof.
  unfold flip_payoff, keeps_move.
  destruct (decide _); [by rewrite bool_decide_eq_true_2|
                        by rewrite bool_decide_eq_false_2].
Qed.

Lemma payoff_after_1 s (l : list Action) :
  foldl (λ p a, flip_payoff p s (get_next_game_state s a)) 1%Q l = 1%Q.
Proof.
  induction l as [|a l IH]; [done|]. cbn [foldl].
  rewrite flip_payoff_keeps. by destruct (keeps_move s a).
Qed.

Lemma payoff_after_sticky s (l : list Action) :
  foldl (λ p a, flip_payoff p s (get_next_game_state s a)) (-1)%Q l
  = if existsb (keeps_move s) l then 1%Q else (-1)%Q.
Proof.
  induction l as [|a l IH]; [done|]. cbn [foldl existsb].
  rewrite flip_payoff_keeps. destruct (keeps_move s a); cbn [orb].
  - apply payoff_after_1.
  - apply IH.
Qed.

Lemma payoff_after_prefix s (acts : list Action) ix :
  foldl (λ p a, flip_payoff p s (get_next_game_state s a)) (-1)%Q
    (take (S ix) acts)
  = sticky_sign s acts ix.
Proof. apply payoff_after_sticky. Qed.

Lemma child_values_loop_signs {St} (rec : GameState → list Q → M St Q)
    s rp (pl : nat) (strategy : list Q) :
  ∀ (l : list Action) (ix0 : nat) (payoff : Q) (cfv0 : list Q) (w : St)
    (payoff' : Q) (cfv : list Q) (w' : St),
    for_loop (child_values rec s rp pl strategy)
      (zip (seq ix0 (length l)) l) (payoff, cfv0) w
    = Ok ((payoff', cfv), w') →
    (∀ j, j < ix0 → cfv !! j = cfv0 !! j) ∧
    ∀ j a, l !! j = Some a →
      ∃ rp' w1 w2 v,
        rec (get_next_game_state s a) rp' w1 = Ok (v, w2) ∧
        cfv !! (ix0 + j) =
          Some (foldl (λ p a, flip_payoff p s (get_next_game_state s a))
                  payoff (take (S j) l) * v)%Q.
Proof.
  induction l as [|a l IH]; intros ix0 payoff cfv0 w payoff' cfv w' Hloop.
  - simpl in Hloop. injection Hloop as <- <- <-. split; [done|].
    intros j a. by rewrite lookup_nil.
  - rewrite zip_seq_cons in Hloop. cbn [for_loop] in Hloop.
    unfold bind at 1 in Hloop.
    destruct (child_values rec s rp pl strategy (payoff, cfv0) (ix0, a) w)
      as [[[payoff1 cfv1] w1]| |] eqn:Hstep; [|done..].
    unfold child_values, bind, lift in Hstep.
    destruct (index strategy ix0) as [p| |]; [|done..].
    destruct (scale_reach rp pl p) as [rp'| |]; [|done..].
    destruct (rec (get_next_game_state s a) rp' w) as [[v w2]| |] eqn:Hrec;
      [|done..].
    unfold store_at in Hstep.
    destruct (decide (ix0 < length cfv0)) as [Hlt|]; [|done].
    unfold ret in Hstep. injection Hstep as <- <- <-.
    destruct (IH _ _ _ _ _ _ _ Hloop) as [Hkeep Hrest]. split.
    + intros j Hj. rewrite Hkeep by lia. by rewrite list_lookup_insert_ne by lia.
    + intros [|j] a' Ha'.
      * injection Ha' as <-. exists rp', w, w2, v. split; [done|].
        rewrite Nat.add_0_r, Hkeep by lia.
        by rewrite list_lookup_insert_eq by done.
      * destruct (Hrest j a' Ha') as (rp'' & w1' & w2' & v' & Hrec' & Hcfv).
        exists rp'', w1', w2', v'. split; [done|].
        replace (ix0 + S j) with (S ix0 + j) by lia. by rewrite Hcfv.
Qed.

Lemma partial_value_loop_signs (rec : GameState → Q → M Store Q)
    s (r : Q) (strategy : list Q) :
  ∀ (l : list Action) (ix0 : nat) (payoff : Q) (pv0 : list Q) d
    (payoff' : Q) (pv : list Q) d',
    for_loop (partial_value rec s r strategy)
      (zip (seq ix0 (length l)) l) (payoff, pv0) d
    = Ok ((payoff', pv), d') →
    (∀ j, j < ix0 → pv !! j = pv0 !! j) ∧
    ∀ j a, l !! j = Some a →
      ∃ r' d1 d2 v,
        rec (get_next_game_state s a) r' d1 = Ok (v, d2) ∧
        pv !! (ix0 + j) =
          Some (foldl (λ p a, flip_payoff p s (get_next_game_state s a))
                  payoff (take (S j) l) * v)%Q.
Proof.
  induction l as [|a l IH]; intros ix0 payoff pv0 d payoff' pv d' Hloop.
  - simpl in Hloop. injection Hloop as <- <- <-. split; [done|].
    intros j a. by rewrite lookup_nil.
  - rewrite zip_seq_cons in Hloop. cbn [for_loop] in Hloop.
    unfold bind at 1 in Hloop.
    destruct (partial_value rec s r strategy (payoff, pv0) (ix0, a) d)
      as [[[payoff1 pv1] d1]| |] eqn:Hstep; [|done..].
    unfold partial_value, bind, lift in Hstep.
    destruct (index strategy ix0) as [p| |]; [|done..].
    destruct (rec (get_next_game_state s a) (r * p)%Q d) as [[v d2]| |] eqn:Hrec;
      [|done..].
    unfold store_at in Hstep.
    destruct (decide (ix0 < length pv0)) as [Hlt|]; [|done].
    unfold ret in Hstep. injection Hstep as <- <- <-.
    destruct (IH _ _ _ _ _ _ _ Hloop) as [Hkeep Hrest]. split.
    + intros j Hj. rewrite Hkeep by lia. by rewrite list_lookup_insert_ne by lia.
    + intros [|j] a' Ha'.
      * injection Ha' as <-. exists (r * p)%Q, d, d2, v. split; [done|].
        rewrite Nat.add_0_r, Hkeep by lia.
        by rewrite list_lookup_insert_eq by done.
      * destruct (Hrest j a' Ha') as (r'' & d1' & d2' & v' & Hrec' & Hpv).
        exists r'', d1', d2', v'. split; [done|].
        replace (ix0 + S j) with (S ix0 + j) by lia. by rewrite Hpv.
Qed.

(** X17.  In the loop over the actions of [chance_cfr] and
    [external_cfr] the variable [payoff] is set to 1 by an action that
    keeps the move and is never set back: the entry of
    [counterfactual_values] at position [ix] is the value the recursive
    call returned for that action, times +1 if the action at that or at
    an earlier position keeps the move with the acting player, and
    times -1 otherwise. *)
Theorem child_values_signs {St} (rec : GameState → list Q → M St Q)
    s rp (pl : nat) (strategy : list Q) (possible_actions : list Action)
    (zeros : list Q) (w : St) (payoff : Q)
    (counterfactual_values : list Q) (w' : St) :
  for_loop (child_values rec s rp pl strategy)
    (enumerate possible_actions) ((-1)%Q, zeros) w
  = Ok ((payoff, counterfactual_values), w') →
  ∀ ix action, possible_actions !! ix = Some action →
    ∃ rp' w1 w2 v,
      rec (get_next_game_state s action) rp' w1 = Ok (v, w2) ∧
      counterfactual_values !! ix
      = Some (sticky_sign s possible_actions ix * v)%Q.
Proof.
  intros Hloop ix a Ha.
  destruct (child_values_loop_signs rec s rp pl strategy possible_actions 0
              _ _ _ _ _ _ Hloop) as [_ Hsigns].
  destruct (Hsigns ix a Ha) as (rp' & w1 & w2 & v & Hrec & Hcfv).
  exists rp', w1, w2, v. split; [done|].
  by rewrite <- payoff_after_prefix.
Qed.

(** X18.  The same holds in the loop of [evaluate_helper]: the entry of
    [partial_values] at position [ix] is the value the recursive call
    returned for that action, times +1 if the action at that or at an
    earlier position keeps the move with the acting player, and times
    -1 otherwise. *)
Theorem partial_values_signs (rec : GameState → Q → M Store Q)
    s (reach_prob : Q) (strategy : list Q) (possible_actions : list Action)
    (zeros : list Q) d (payoff : Q) (partial_values : list Q) d' :
  for_loop (partial_value rec s reach_prob strategy)
    (enumerate possible_actions) ((-1)%Q, zeros) d
  = Ok ((payoff, partial_values), d') →
  ∀ ix action, possible_actions !! ix = Some action →
    ∃ r' d1 d2 v,
      rec (get_next_game_state s action) r' d1 = Ok (v, d2) ∧
      partial_values !! ix
      = Some (sticky_sign s possible_actions ix * v)%Q.
Proof.
  intros Hloop ix a Ha.
  destruct (partial_value_loop_signs rec s reach_prob strategy
              possible_actions 0 _ _ _ _ _ _ Hloop) as [_ Hsigns].
  destruct (Hsigns ix a Ha) as (r' & d1 & d2 & v & Hrec & Hpv).
  exists r', d1, d2, v. split; [done|].
  by rewrite <- payoff_after_prefix.
Qed.

End Signs.


(** ** Runs that keep a relation *)

Section Preserves.
Context {S : Type} (R : S → S → Prop) `{!PreOrder R}.

Lemma preserves_ret {A} (a : A) : preserves R (ret a).
Proof. intros s a' s' [= _ <-]. reflexivity. Qed.

Lemma preserves_lift {A} (o : outcome A) : preserves R (lift o).
Proof. intros s a s'. unfold lift. destruct o; [|done..]. by intros [= _ <-]. Qed.

Lemma preserves_bind {A B} (m : M S A) (k : A → M S B) :
  preserves R m → (∀ a, preserves R (k a)) → preserves R (bind m k).
Proof.
  intros Hm Hk s b s''. unfold bind.
  destruct (m s) as [[a s']| |] eqn:Hrun; [|done..].
  intros Hrun'. etrans; [by eapply Hm|by eapply Hk].
Qed.

Lemma preserves_for_loop {A B} (body : B → A → M S B) l acc :
  (∀ acc x, preserves R (body acc x)) → preserves R (for_loop body l acc).
Proof.
  intros Hbody. revert acc. induction l as [|x l IH]; intros acc; simpl.
  - apply preserves_ret.
  - apply preserves_bind; [apply Hbody|]. intros acc'. apply IH.
Qed.

End Preserves.

Lemma preserves_zoom {S T A} (RT : T → T → Prop) (proj : S → T)
    (upd : T → S → S) (m : M T A) :
  (∀ t s, proj (upd t s) = t) →
  preserves RT m → preserves (λ s s', RT (proj s) (proj s')) (zoom proj upd m).
Proof.
  intros Hlens Hm s a s'. unfold zoom.
  destruct (m (proj s)) as [[a' t]| |] eqn:Hrun; [|done..].
  intros [= _ <-]. rewrite Hlens. by eapply Hm.
Qed.

(** ** Writes to the dictionary *)

Section WritesFacts.
Context {AbsCard AbsHist : Type}.
Context `{!EqDecision AbsCard, !Countable AbsCard}.
Context `{!EqDecision AbsHist, !Countable AbsHist}.

Abbreviation Key := (InfoKey (AbsCard:=AbsCard) (AbsHist:=AbsHist)).
Abbreviation Store := (gmap Key Infoset.t).
Implicit Types (d : Store) (k : Key) (U : Key → Prop).

Lemma writes_preorder U : PreOrder (writes U).
Proof. unfold writes. apply _. Qed.

Lemma writes_mono U U' d d' :
  (∀ k, U k → U' k) → writes U d d' → writes U' d d'.
Proof.
  intros HU. induction 1 as [|d1 d2 d3 Hstep _ IH]; [reflexivity|].
  etrans; [|exact IH]. apply rtc_once.
  destruct Hstep; [by constructor|]. constructor; auto.
Qed.

Lemma get_infoset_writes U k : preserves (writes U) (get_infoset k).
Proof.
  intros d i d'. unfold get_infoset. destruct (d !! k) eqn:Hk.
  - intros [= _ <-]. reflexivity.
  - intros [= _ <-]. apply rtc_once. by constructor.
Qed.

Lemma mutate_infoset_writes U k (f : Infoset.t → outcome Infoset.t) :
  U k → (∀ i i', f i = Ok i' → infoset_step i i') →
  preserves (writes U) (mutate_infoset k f).
Proof.
  intros HU Hf d [] d'. unfold mutate_infoset.
  destruct (f (deref d k)) as [i'| |] eqn:Hfi; simpl; [|done..].
  intros [= <-]. apply rtc_once. constructor; [done|]. by eapply Hf.
Qed.

Lemma touch_all_writes U ks d : writes U d (touch_all ks d).
Proof.
  revert d. induction ks as [|k ks IH]; intros d; simpl; [reflexivity|].
  etrans; [|apply IH]. unfold touch. destruct (d !! k) eqn:Hk; [reflexivity|].
  apply rtc_once. by constructor.
Qed.

(** *** What a sequence of writes keeps *)

Lemma store_step_dom U d d' : store_step U d d' → dom d ⊆ dom d'.
Proof. destruct 1; apply dom_insert_subseteq. Qed.

Lemma writes_dom U d d' : writes U d d' → dom d ⊆ dom d'.
Proof.
  induction 1 as [|d1 d2 d3 Hstep _ IH]; [done|].
  etrans; [by eapply store_step_dom|done].
Qed.

Lemma infoset_step_wf k i i' :
  wf_infoset k i → infoset_step i i' → wf_infoset k i'.
Proof.
  intros [Hreg Hss] Hstep. destruct Hstep as [r i|ix delta i i' Hadd].
  - split; [done|]. rewrite length_update_strategy_sum; lia.
  - unfold Infoset.add_regret in Hadd.
    destruct (index _ ix) as [x| |]; simpl in Hadd; [|done..].
    injection Hadd as <-. split; simpl; [by rewrite length_insert|done].
Qed.

Lemma writes_wf U d d' : writes U d d' → wf_store d → wf_store d'.
Proof.
  induction 1 as [|d1 d2 d3 Hstep _ IH]; [done|]. intros Hwf. apply IH.
  destruct Hstep as [k d Hk|k d i HU Hstep].
  - apply wf_store_insert; [done|apply wf_infoset_new].
  - apply wf_store_insert; [done|].
    eapply infoset_step_wf; [|done]. by apply wf_deref.
Qed.

(** A key that is not in [U] keeps its entry, or gets a fresh one. *)
Lemma writes_kept U d d' k :
  writes U d d' → ¬ U k →
  d' !! k = d !! k ∨
  (d !! k = None ∧ d' !! k = Some (Infoset.new (num_actions k))).
Proof.
  intros Hw HU. induction Hw as [|d1 d2 d3 Hstep _ IH]; [by left|].
  assert (d2 !! k = d1 !! k ∨
          (d1 !! k = None ∧ d2 !! k = Some (Infoset.new (num_actions k))))
    as Hfirst.
  { destruct Hstep as [k0 d Hk0|k0 d i HU0 Hstep].
    - destruct (decide (k0 = k)) as [->|Hne].
      + right. by rewrite lookup_insert_eq.
      + left. by rewrite lookup_insert_ne.
    - left. rewrite lookup_insert_ne; [done|]. by intros ->. }
  destruct Hfirst as [H1|[H1 H1']], IH as [H2|[H2 H2']].
  - left. congruence.
  - right. split; congruence.
  - right. split; congruence.
  - congruence.
Qed.

End WritesFacts.

#[global] Existing Instance writes_preorder.

(** ** The traversals write only infosets *)

Section TraversalWrites.
Context {Card Action GameState SuitHand SuitHist Mean Rng AbsCard AbsHist : Type}.
Context `{!EqDecision Card, !EqDecision Action}.
Context `{!EqDecision AbsCard, !Countable AbsCard}.
Context `{!EqDecision AbsHist, !Countable AbsHist}.
Context `{!Game Card Action GameState SuitHand SuitHist Mean Rng}.
Context `{!Abstraction SuitHand SuitHist Action Mean AbsCard AbsHist}.
Context `{!RandomSource Rng}.

Abbreviation Key := (InfoKey (AbsCard:=AbsCard) (AbsHist:=AbsHist)).
Abbreviation Store := (gmap Key Infoset.t).
Abbreviation World := (Store * Rng)%type.
Implicit Types (d : Store) (k : Key) (s : GameState) (U : Key → Prop).
Implicit Types (w : World) (rp : list Q) (u fuel : nat).

(** The relation on worlds: the dictionaries are related by writes. *)
Abbreviation world_writes U := (λ w w' : World, writes U w.1 w'.1).

Lemma world_writes_preorder U : PreOrder (world_writes U).
Proof.
  split.
  - intros w. reflexivity.
  - intros w1 w2 w3 H12 H23. by etrans.
Qed.

Lemma on_dict_writes {A} U (m : M Store A) :
  preserves (writes U) m → preserves (world_writes U) (on_dict m).
Proof. intros Hm. unfold on_dict. by apply (preserves_zoom (writes U) fst). Qed.

Lemma on_rng_writes {A} U (m : M Rng A) : preserves (world_writes U) (on_rng m).
Proof.
  intros [d g] a w'. unfold on_rng, zoom. simpl.
  destruct (m g) as [[a' g']| |]; [|done..]. intros [= _ <-]. reflexivity.
Qed.

Lemma regret_loop_writes U k rp opp cfv (v : Q) (l : list (nat * Action)) :
  U k →
  preserves (writes U) (for_loop (regret_update k rp opp cfv v) l ()).
Proof.
  intros HU. apply preserves_for_loop; [apply _|].
  intros [] [ix a]. unfold regret_update.
  apply preserves_bind; [apply _|apply preserves_lift, _|]. intros r.
  apply preserves_bind; [apply _|apply preserves_lift, _|]. intros cf.
  apply mutate_infoset_writes; [done|]. intros i i' Hi. by econstructor.
Qed.

Section NodeWrites.
Context {St : Type} (R : St → St → Prop) `{!PreOrder R}.
Context (dict : ∀ A, M Store A → M St A) (U : Key → Prop).
Hypothesis dict_writes :
  ∀ A (m : M Store A), preserves (writes U) m → preserves R (dict A m).

Lemma child_values_preserves (run : GameState → list Q → M St Q)
    s rp pl strategy acc item :
  (∀ s' rp', preserves R (run s' rp')) →
  preserves R (child_values run s rp pl strategy acc item).
Proof.
  intros Hrun. destruct acc as [payoff cfv], item as [ix a].
  unfold child_values.
  apply preserves_bind; [apply _|apply preserves_lift, _|]. intros p.
  apply preserves_bind; [apply _|apply preserves_lift, _|]. intros rp'.
  apply preserves_bind; [apply _|apply Hrun|]. intros v.
  apply preserves_bind; [apply _|apply preserves_lift, _|]. intros cfv'.
  apply preserves_ret, _.
Qed.

Lemma update_node_preserves (run : GameState → list Q → M St Q) s rp acts :
  U (get_info_key s) →
  (∀ s' rp', preserves R (run s' rp')) →
  preserves R (update_node dict run s rp acts).
Proof.
  intros HU Hrun. unfold update_node.
  apply preserves_bind; [apply _|apply dict_writes, get_infoset_writes|].
  intros infoset.
  apply preserves_bind; [apply _|apply preserves_lift, _|]. intros r.
  apply preserves_bind; [apply _| |].
  { apply dict_writes, mutate_infoset_writes; [done|].
    intros i i' [= <-]. constructor. }
  intros [].
  apply preserves_bind; [apply _| |].
  { apply preserves_for_loop; [apply _|]. intros acc item.
    by apply child_values_preserves. }
  intros [payoff cfv].
  apply preserves_bind; [apply _|apply preserves_lift, _|]. intros v.
  apply preserves_bind; [apply _|by apply dict_writes, regret_loop_writes|].
  intros []. apply preserves_ret, _.
Qed.

Lemma single_action_preserves (run : GameState → M St Q) s a :
  (∀ s', preserves R (run s')) → preserves R (single_action run s a).
Proof.
  intros Hrun. unfold single_action.
  apply preserves_bind; [apply _|apply Hrun|]. intros v.
  apply preserves_ret, _.
Qed.

End NodeWrites.

(** Chance-sampled CFR changes the dictionary only by creating infosets
    and by calling the two updating methods on infosets. *)
Lemma chance_cfr_writes fuel s rp :
  preserves (writes (λ _, True)) (chance_cfr fuel s rp).
Proof.
  revert s rp. induction fuel as [|fuel IH]; intros s rp; [by intros ???|].
  cbn [chance_cfr]. destruct (terminal s); [apply preserves_ret, _|].
  destruct (get_possible_actions s) as [|a [|b l]].
  - apply (update_node_preserves _ (λ _ m, m) (λ _, True)); auto.
  - apply single_action_preserves; [apply _|]. intros s'. apply IH.
  - apply (update_node_preserves _ (λ _ m, m) (λ _, True)); auto.
Qed.

Lemma sampled_node_writes U (run : GameState → list Q → M World Q) s rp acts :
  (∀ s' rp', preserves (world_writes U) (run s' rp')) →
  preserves (world_writes U) (sampled_node run s rp acts).
Proof.
  intros Hrun. pose proof (world_writes_preorder U). unfold sampled_node.
  apply preserves_bind; [done|apply on_dict_writes, get_infoset_writes|].
  intros infoset.
  apply preserves_bind; [done|apply on_rng_writes|]. intros a.
  apply preserves_bind; [done|by apply preserves_lift|]. intros ix.
  apply preserves_bind; [done|by apply preserves_lift|]. intros p.
  apply preserves_bind; [done|by apply preserves_lift|]. intros rp'.
  apply preserves_bind; [done|apply Hrun|]. intros v.
  by apply preserves_ret.
Qed.

(** External-sampled CFR creates infosets and updates only infosets of
    the update player. *)
Lemma external_cfr_writes fuel s rp u :
  preserves (world_writes (λ k, key_player k = u)) (external_cfr fuel s rp u).
Proof.
  pose proof (world_writes_preorder (λ k : Key, key_player k = u)) as Hpo.
  revert s rp. induction fuel as [|fuel IH]; intros s rp; [by intros ???|].
  cbn [external_cfr]. destruct (terminal s); [by apply preserves_ret|].
  assert (∀ acts,
    preserves (world_writes (λ k, key_player k = u))
      (if decide (player s ≠ u)
       then sampled_node (λ s rp, external_cfr fuel s rp u) s rp acts
       else update_node (@on_dict _ _ _ _ _ _ _)
              (λ s rp, external_cfr fuel s rp u) s rp acts)) as Hnode.
  { intros acts. destruct (decide (player s ≠ u)) as [Hne|Heq].
    - apply sampled_node_writes. intros s' rp'. apply IH.
    - apply dec_stable in Heq.
      apply (update_node_preserves _ (@on_dict _ _ _ _ _ _ _)
               (λ k, key_player k = u)).
      + intros A m. apply on_dict_writes.
      + unfold key_player. by rewrite player_get_info_key.
      + intros s' rp'. apply IH. }
  destruct (get_possible_actions s) as [|a [|b l]].
  - apply Hnode.
  - apply single_action_preserves; [done|]. intros s'. apply IH.
  - apply Hnode.
Qed.

(** [evaluate_helper] and [evaluate] only create infosets. *)
Lemma evaluate_helper_writes fuel s (r : Q) :
  preserves (writes (λ _, False)) (evaluate_helper fuel s r).
Proof.
  intros d v d'. rewrite evaluate_helper_eq.
  destruct (average_value fuel d s); simpl; [|done..].
  intros [= _ <-]. apply touch_all_writes.
Qed.

Lemma evaluate_writes fuel : preserves (writes (λ _, False)) (evaluate fuel).
Proof.
  intros d v d'. rewrite evaluate_eq.
  destruct (math_comb _ _); simpl; [|done..].
  destruct (math_comb _ _); simpl; [|done..].
  destruct (pure_loop _ _ _); simpl; [|done..].
  destruct (py_div _ _); simpl; [|done..].
  intros [= _ <-]. apply touch_all_writes.
Qed.

End TraversalWrites.

(** ** Counting infosets *)

Section CountingFacts.
Context {AbsCard AbsHist : Type}.
Context `{!EqDecision AbsCard, !Countable AbsCard}.
Context `{!EqDecision AbsHist, !Countable AbsHist}.

Abbreviation Key := (InfoKey (AbsCard:=AbsCard) (AbsHist:=AbsHist)).
Abbreviation Store := (gmap Key Infoset.t).
Implicit Types (d : Store) (k : Key).

Lemma length_filter_keys (P : Key → Prop) `{!∀ k, Decision (P k)} d :
  length (filter P (map fst (map_to_list d))) = size (filter P (dom d)).
Proof.
  rewrite <- (size_list_to_set (C:=gset Key))
    by apply NoDup_filter, NoDup_fst_map_to_list.
  f_equal. apply set_eq. intros k.
  rewrite elem_of_list_to_set, list_elem_of_filter, elem_of_filter.
  by rewrite (dom_alt d), elem_of_list_to_set.
Qed.

Lemma size_filter_complement (P : Key → Prop) `{!∀ k, Decision (P k)}
    (X : gset Key) :
  size (filter P X) + size (filter (λ k, ¬ P k) X) = size X.
Proof.
  rewrite <- size_union by apply disjoint_filter_complement.
  f_equal. apply leibniz_equiv, filter_union_complement.
Qed.

Lemma count_infosets_eq d :
  count_infosets d =
    (size (filter (λ k, key_player k = 0) (dom d)),
     size (filter (λ k, key_player k ≠ 0) (dom d))).
Proof.
  unfold count_infosets.
  rewrite (length_filter_keys (λ k, key_player k = 0)), length_map_to_list.
  f_equal. rewrite <- (size_dom (D:=gset Key)).
  apply Nat.add_sub_eq_l, (size_filter_complement (λ k, key_player k = 0)).
Qed.

(** X1.  [count_infosets] splits the keys of the dictionary in two: the
    first count is the number of keys of player 0, the second the number
    of all other keys (of whatever player), and together they are the
    number of infosets. *)
Theorem count_infosets_partition d :
  (count_infosets d).1 = size (filter (λ k, key_player k = 0) (dom d)) ∧
  (count_infosets d).2 = size (filter (λ k, key_player k ≠ 0) (dom d)) ∧
  (count_infosets d).1 + (count_infosets d).2 = size d.
Proof.
  rewrite count_infosets_eq. cbn [fst snd]. split_and!; [done..|].
  rewrite <- (size_dom (D:=gset Key)).
  apply (size_filter_complement (λ k, key_player k = 0)).
Qed.

Lemma count_infosets_mono d d' :
  dom d ⊆ dom d' →
  (count_infosets d).1 ≤ (count_infosets d').1 ∧
  (count_infosets d).2 ≤ (count_infosets d').2.
Proof.
  intros Hdom. rewrite !count_infosets_eq. cbn [fst snd].
  split; apply subseteq_size; intros k; rewrite !elem_of_filter;
    intros [? ?]; split; auto.
Qed.

End CountingFacts.

(** ** What the traversals and the training loops never do *)

Lemma preserves_mono {S A} (R R' : S → S → Prop) (m : M S A) :
  (∀ s s', R s s' → R' s s') → preserves R m → preserves R' m.
Proof. intros HR Hm s a s' Hrun. by eapply HR, Hm. Qed.

Section Runs.
Context {Card Action GameState SuitHand SuitHist Mean Rng AbsCard AbsHist : Type}.
Context `{!EqDecision Card, !EqDecision Action}.
Context `{!EqDecision AbsCard, !Countable AbsCard}.
Context `{!EqDecision AbsHist, !Countable AbsHist}.
Context `{!Game Card Action GameState SuitHand SuitHist Mean Rng}.
Context `{!Abstraction SuitHand SuitHist Action Mean AbsCard AbsHist}.
Context `{!RandomSource Rng}.

Abbreviation Key := (InfoKey (AbsCard:=AbsCard) (AbsHist:=AbsHist)).
Abbreviation Store := (gmap Key Infoset.t).
Abbreviation World := (Store * Rng)%type.
Implicit Types (d : Store) (k : Key) (s : GameState) (U : Key → Prop).
Implicit Types (w : World) (rp : list Q) (u fuel n : nat).

Abbreviation world_writes U := (λ w w' : World, writes U w.1 w'.1).

(** X2.  A run of [chance_cfr] that returns never removes an entry of
    the dictionary: every key is still there, so neither count of
    [count_infosets] goes down, and a dictionary whose vectors have the
    lengths their keys announce stays so. *)
Theorem chance_cfr_only_adds fuel s rp d (v : Q) d' :
  chance_cfr fuel s rp d = Ok (v, d') →
  dom d ⊆ dom d' ∧
  (count_infosets d).1 ≤ (count_infosets d').1 ∧
  (count_infosets d).2 ≤ (count_infosets d').2 ∧
  (wf_store d → wf_store d').
Proof.
  intros Hrun. apply chance_cfr_writes in Hrun.
  pose proof (writes_dom _ _ _ Hrun) as Hdom.
  destruct (count_infosets_mono d d' Hdom) as [H1 H2].
  split_and!; [done..|]. intros Hwf. by eapply writes_wf.
Qed.

Lemma train_chance_writes fuel n :
  preserves (world_writes (λ _, True)) (train_chance fuel n).
Proof.
  pose proof (world_writes_preorder (Rng:=Rng) (λ _ : Key, True)) as Hpo.
  unfold train_chance. apply preserves_bind; [done| |].
  - apply preserves_for_loop; [done|]. intros util i.
    apply preserves_bind; [done|apply on_rng_writes|]. intros gs.
    apply preserves_bind; [done|apply on_dict_writes, chance_cfr_writes|].
    intros v. by apply preserves_ret.
  - intros util. by apply preserves_lift.
Qed.

Lemma train_external_writes fuel n :
  preserves (world_writes (λ _, True)) (train_external fuel n).
Proof.
  pose proof (world_writes_preorder (Rng:=Rng) (λ _ : Key, True)) as Hpo.
  unfold train_external. apply preserves_bind; [done| |].
  - apply preserves_for_loop; [done|]. intros util j.
    apply preserves_for_loop; [done|]. intros util' i.
    apply preserves_bind; [done|apply on_rng_writes|]. intros gs.
    apply preserves_bind; [done| |].
    + eapply preserves_mono; [|apply external_cfr_writes].
      intros w w'. by apply writes_mono.
    + intros v. by apply preserves_ret.
  - intros util. by apply preserves_lift.
Qed.

Lemma train_chance_returns n (iterations : nat) w :
  samples_playable n → wf_store w.1 → 0 < iterations →
  ∃ v w', train_chance (S n) iterations w = Ok (v, w').
Proof.
  intros Hplay Hw Hit.
  destruct (train_chance_loop n iterations Hplay 0 0%Q w Hw)
    as (utils & w' & Hloop & _).
  unfold train_chance. unfold bind at 1. rewrite Hloop. unfold lift, py_div.
  destruct iterations; [lia|]. by eexists _, _.
Qed.

(** X3.  Training only adds to the dictionary: after [train_chance] or
    [train_external] has returned, every key that was in the dictionary
    is still there, and a dictionary whose vectors have the lengths
    their keys announce stays so. *)
Theorem training_only_adds fuel n w (v : Q) w' :
  train_chance fuel n w = Ok (v, w') ∨ train_external fuel n w = Ok (v, w') →
  dom w.1 ⊆ dom w'.1 ∧
  (count_infosets w.1).1 ≤ (count_infosets w'.1).1 ∧
  (count_infosets w.1).2 ≤ (count_infosets w'.1).2 ∧
  (wf_store w.1 → wf_store w'.1).
Proof.
  intros Hrun.
  assert (writes (λ _, True) w.1 w'.1) as Hw.
  { destruct Hrun as [Hrun|Hrun].
    - by apply train_chance_writes in Hrun.
    - by apply train_external_writes in Hrun. }
  pose proof (writes_dom _ _ _ Hw) as Hdom.
  destruct (count_infosets_mono _ _ Hdom) as [H1 H2].
  split_and!; [done..|]. intros Hwf. by eapply writes_wf.
Qed.

(** X4.  Whatever the game does, a run of [external_cfr] that returns
    has left the infosets of every player other than [update_player] as
    they were: the entry of such a key is the same object as before, or
    a newly created infoset where there was none.  No key is removed. *)
Theorem external_cfr_updates_one_player fuel s rp u w (v : Q) w' :
  external_cfr fuel s rp u w = Ok (v, w') →
  dom w.1 ⊆ dom w'.1 ∧
  ∀ k, key_player k ≠ u →
    w'.1 !! k = w.1 !! k ∨
    (w.1 !! k = None ∧ w'.1 !! k = Some (Infoset.new (num_actions k))).
Proof.
  intros Hrun. apply external_cfr_writes in Hrun. split.
  - by eapply writes_dom.
  - intros k Hk. by eapply writes_kept.
Qed.

End Runs.

(** ** Keys and the get-or-create of infosets *)

Section KeyFacts.
Context {Card Action GameState SuitHand SuitHist Mean Rng AbsCard AbsHist : Type}.
Context `{!EqDecision Card, !EqDecision Action}.
Context `{!EqDecision AbsCard, !Countable AbsCard}.
Context `{!EqDecision AbsHist, !Countable AbsHist}.
Context `{!Game Card Action GameState SuitHand SuitHist Mean Rng}.
Context `{!Abstraction SuitHand SuitHist Action Mean AbsCard AbsHist}.
Context `{!RandomSource Rng}.

Abbreviation Key := (InfoKey (AbsCard:=AbsCard) (AbsHist:=AbsHist)).
Abbreviation Store := (gmap Key Infoset.t).
Abbreviation World := (Store * Rng)%type.
Implicit Types (d : Store) (k : Key) (s : GameState).
Implicit Types (w : World) (rp : list Q) (u fuel n : nat).

(** X5.  Two states get the same info key exactly when they agree on
    the acting player, on the abstracted history, on the number of
    possible actions, and on the abstracted hand as a set: the order of
    the cards in the abstracted hand and repeated cards play no role. *)
Theorem get_info_key_eq_iff s s' :
  get_info_key s = get_info_key s' ↔
  player s = player s' ∧
  (∀ c, c ∈ (abstracted s).1 ↔ c ∈ (abstracted s').1) ∧
  (abstracted s).2 = (abstracted s').2 ∧
  length (get_possible_actions s) = length (get_possible_actions s').
Proof.
  unfold get_info_key, abstracted.
  destruct (translate_suits s) as [hand hist].
  destruct (translate_suits s') as [hand' hist'].
  destruct (abstraction_function hand hist _ _) as [abs_hand abs_hist].
  destruct (abstraction_function hand' hist' _ _) as [abs_hand' abs_hist'].
  cbn [fst snd]. split.
  - intros [= Hpl Hhand Hhist Hlen]. split_and!; [done| |done..].
    intros c. by rewrite <- !(elem_of_list_to_set (C:=gset AbsCard)), Hhand.
  - intros (Hpl & Hhand & Hhist & Hlen). rewrite Hpl, Hhist, Hlen.
    do 3 f_equal. apply set_eq. intros c.
    by rewrite !elem_of_list_to_set.
Qed.

(** X6.  [get_infoset] gets or creates: the infoset it returns is the
    entry of the key afterwards, no other entry changes, a dictionary
    that had the key is left as it was, and asking again returns the
    same infoset and changes nothing. *)
Theorem get_infoset_get_or_create k d :
  ∃ i d',
    get_infoset k d = Ok (i, d') ∧
    d' !! k = Some i ∧
    (∀ k', k' ≠ k → d' !! k' = d !! k') ∧
    (∀ i0, d !! k = Some i0 → i = i0 ∧ d' = d) ∧
    get_infoset k d' = Ok (i, d').
Proof.
  unfold get_infoset. destruct (d !! k) as [i0|] eqn:Hk.
  - exists i0, d. rewrite Hk. split_and!; try done. by intros ? [= <-].
  - eexists _, _. split; [done|]. rewrite lookup_insert_eq.
    split_and!; try done. intros k' Hne. by rewrite lookup_insert_ne.
Qed.

(** *** The evaluator *)

Lemma average_value_strategies fuel d1 d2 s :
  (∀ k, Infoset.get_average_strategy (deref d1 k)
        = Infoset.get_average_strategy (deref d2 k)) →
  average_value fuel d1 s = average_value fuel d2 s.
Proof.
  intros Hd. revert s. induction fuel as [|fuel IH]; intros s; [done|].
  cbn [average_value].
  destruct (terminal s); [done|].
  destruct (get_possible_actions s) as [|a [|b l]].
  - by rewrite Hd.
  - by rewrite IH.
  - rewrite Hd.
    erewrite pure_loop_ext; [done|].
    intros [payoff pv] [ix act] _. unfold weighted_child. by rewrite IH.
Qed.

(** X7.  The evaluator reads nothing of an infoset but its average
    strategy: on two dictionaries whose infosets have the same average
    strategies (whatever their regrets), [evaluate_helper] and
    [evaluate] return the same value, or fail in the same way. *)
Theorem evaluate_reads_average_strategies fuel d1 d2 :
  (∀ k, Infoset.get_average_strategy (deref d1 k)
        = Infoset.get_average_strategy (deref d2 k)) →
  omap fst (evaluate fuel d1) = omap fst (evaluate fuel d2) ∧
  ∀ s (r : Q),
    omap fst (evaluate_helper fuel s r d1)
    = omap fst (evaluate_helper fuel s r d2).
Proof.
  intros Hd. split.
  - rewrite !evaluate_eq.
    destruct (math_comb _ _); cbn [obind omap]; [|done..].
    destruct (math_comb _ _); cbn [obind omap]; [|done..].
    erewrite pure_loop_ext.
    2:{ intros util deal _. by rewrite (average_value_strategies fuel d1 d2). }
    destruct (pure_loop _ _ _); cbn [obind omap]; [|done..].
    by destruct (py_div _ _).
  - intros s r. rewrite !evaluate_helper_eq.
    rewrite (average_value_strategies fuel d1 d2) by done.
    by destruct (average_value _ _ _).
Qed.

Lemma evaluate_Ok_touch fuel d (v : Q) d' :
  evaluate fuel d = Ok (v, d') →
  d' = touch_all (flat_map (λ deal, visited fuel (deal_state deal)) deals) d.
Proof.
  rewrite evaluate_eq.
  destruct (math_comb _ _); cbn [obind]; [|done..].
  destruct (math_comb _ _); cbn [obind]; [|done..].
  destruct (pure_loop _ _ _); cbn [obind]; [|done..].
  destruct (py_div _ _); cbn [obind]; [|done..].
  by intros [= _ <-].
Qed.

Lemma combinations_short {A} (l : list A) r :
  length l < r → combinations l r = [].
Proof.
  intros Hlt. apply length_zero_iff_nil.
  rewrite length_combinations. by apply choose_gt.
Qed.

(** X8.  With a deck too small for two hands [evaluate] fails before it
    looks at any deal: with fewer cards than one hand the second
    binomial coefficient gets a negative argument and [math.comb] raises
    ValueError; with enough cards for one hand but not for two the
    number of deals is 0 and the final division raises
    ZeroDivisionError. *)
Theorem evaluate_small_deck fuel d :
  length (deck2 (Card:=Card)) < handsize (Card:=Card) * 2 →
  evaluate fuel d =
    Raise (if decide (length (deck2 (Card:=Card)) < handsize (Card:=Card))
           then ValueError else ZeroDivisionError).
Proof.
  intros Hsmall. rewrite evaluate_eq. unfold math_comb.
  rewrite decide_False by lia. cbn [obind].
  destruct (decide (length (deck2 (Card:=Card)) < handsize (Card:=Card)))
    as [Hlt|Hge].
  - by rewrite decide_True by lia.
  - rewrite decide_False by lia. cbn [obind].
    unfold deals, hand_pairs. rewrite combinations_short by lia.
    cbn [mbind list_bind pure_loop obind].
    replace (Z.to_nat (Z.of_nat (length (deck2 (Card:=Card)))
                       - Z.of_nat (handsize (Card:=Card))))
      with (length (deck2 (Card:=Card)) - handsize (Card:=Card)) by lia.
    rewrite Nat2Z.id, (choose_gt (_ - _)) by lia.
    by rewrite Nat.mul_0_r.
Qed.

(** X9.  Every deal is evaluated from both seats: if the deck has no
    repeated card and [evaluate] walks through the deal
    [(hand1, hand2)], it also walks through [(hand2, hand1)]. *)
Theorem deals_both_seats (hand1 hand2 : list Card) :
  NoDup (deck2 (Card:=Card)) →
  (hand1, hand2) ∈ deals → (hand2, hand1) ∈ deals.
Proof.
  intros Hnd. unfold deals. rewrite !elem_of_hand_pairs by done.
  intros (H1 & H2 & Hl1 & Hl2 & Hdisj). split_and!; try done.
  intros card Hc2 Hc1. by apply (Hdisj card).
Qed.

(** X10.  With no iterations [get_exploitability] evaluates the same
    dictionary twice: it returns the difference of a number with itself
    and leaves dictionary and generator as they were. *)
Theorem get_exploitability_without_iterations fuel w (b : Q) d1 :
  evaluate fuel w.1 = Ok (b, d1) →
  get_exploitability fuel 0 w = Ok ((b - b)%Q, w).
Proof.
  destruct w as [d g]. cbn [fst]. intros Heval.
  unfold get_exploitability. cbn [seq for_loop].
  unfold bind, get, ret, on_dict, zoom, put. cbn [fst snd].
  by rewrite Heval.
Qed.

(** X11.  The reach probabilities are indexed by the acting player: at
    a node with two or more actions whose player has no entry in
    [reach_probs], [chance_cfr] raises IndexError, and so does
    [external_cfr] when that player is the one it updates. *)
Theorem reach_probs_too_short fuel s rp d w :
  terminal s = false → 2 ≤ length (get_possible_actions s) →
  length rp ≤ player s →
  chance_cfr (S fuel) s rp d = Raise IndexError ∧
  external_cfr (S fuel) s rp (player s) w = Raise IndexError.
Proof.
  intros Ht Hacts Hrp.
  assert (index rp (player s) = Raise IndexError) as Hindex.
  { unfold index. by rewrite lookup_ge_None_2. }
  split.
  - rewrite chance_cfr_node_eq by (done || lia).
    unfold update_node, bind. rewrite get_infoset_eq.
    by rewrite Hindex.
  - rewrite external_cfr_update_eq by (done || lia).
    unfold update_node, bind, on_dict, zoom. rewrite get_infoset_eq.
    by rewrite Hindex.
Qed.

End KeyFacts.

(** ** Sampling and the update player in external-sampled CFR *)

Lemma bisect_from_positive (w : list Q) (acc x : Q) (lo hi : nat) :
  (acc <= x)%Q → (x < acc + qsum w)%Q → lo + length w = S hi →
  ∃ j p,
    bisect_from (accumulate_from acc w) x lo hi = lo + j ∧
    w !! j = Some p ∧ (0 < p)%Q.
Proof.
  revert acc lo. induction w as [|p w IH]; intros acc lo Hle Hlt Hlen.
  { unfold qsum in Hlt. simpl in Hlt. lra. }
  rewrite qsum_cons in Hlt. cbn [accumulate_from bisect_from].
  destruct (decide (hi ≤ lo)) as [Hhi|Hhi].
  - exists 0, p. simpl in Hlen. destruct w; [|simpl in Hlen; lia].
    split_and!; [lia|done|]. unfold qsum in Hlt. simpl in Hlt. lra.
  - destruct (Qlt_le_dec x (acc + p)) as [Hx|Hx].
    + exists 0, p. split_and!; [lia|done|lra].
    + destruct (IH (acc + p)%Q (S lo)) as (j & q & Hj & Hq & Hpos).
      * done.
      * lra.
      * simpl in Hlen. lia.
      * exists (S j), q. split_and!; [lia|done..].
Qed.

Lemma bisect_positive (w : list Q) (x : Q) :
  (0 <= x)%Q → (x < qsum w)%Q →
  ∃ j p,
    bisect (accumulate w) x (length w - 1) = j ∧ w !! j = Some p ∧ (0 < p)%Q.
Proof.
  intros Hle Hlt. destruct w as [|p w].
  { unfold qsum in Hlt. simpl in Hlt. lra. }
  rewrite qsum_cons in Hlt. unfold bisect. cbn [accumulate bisect_from length].
  rewrite Nat.sub_succ, Nat.sub_0_r.
  destruct (decide (length w ≤ 0)) as [Hhi|Hhi].
  - exists 0, p. destruct w; [|simpl in Hhi; lia].
    split_and!; [done..|]. unfold qsum in Hlt. simpl in Hlt. lra.
  - destruct (Qlt_le_dec x p) as [Hx|Hx].
    + exists 0, p. split_and!; [done..|lra].
    + destruct (bisect_from_positive w p x 1 (length w)) as (j & q & Hj & Hq & Hpos);
        [done|lra|lia|].
      exists (S j), q. by split_and!.
Qed.

(** X12.  With weights that are not negative (so that the cumulative
    weights are sorted, as the bisection of [random.choices] needs) and a
    draw in [0, 1), [random.choices] returns the element at a position
    whose weight is positive: a position to which the strategy gives
    probability 0 is never the one sampled. *)
Theorem choices_positive_weight {Rng A} `{!RandomSource Rng}
    (population : list A) (weights : list Q) (g g' : Rng) (a : A) :
  Forall (λ p, 0 <= p)%Q weights →
  (0 <= (random g).1)%Q → ((random g).1 < 1)%Q →
  choices population weights g = Ok (a, g') →
  ∃ ix p, population !! ix = Some a ∧ weights !! ix = Some p ∧ (0 < p)%Q.
Proof.
  intros _ Hu0 Hu1. unfold choices.
  destruct (decide (length (accumulate weights) = length population))
    as [Hlen|]; [|done].
  rewrite length_accumulate in Hlen.
  destruct (decide (weights = [])) as [->|Hne]; [done|].
  destruct (last_accumulate weights Hne) as (t & -> & Ht).
  destruct (Qlt_le_dec 0 t) as [Hpos|]; [|done].
  unfold bind. destruct (random g) as [u g1]. cbn [fst] in Hu0, Hu1.
  destruct (bisect_positive weights (u * t)%Q) as (j & p & Hj & Hp & Hppos).
  { apply Qmult_le_0_compat; lra. }
  { rewrite <- Ht. rewrite <- (Qmult_1_l t) at 2.
    apply Qmult_lt_compat_r; done. }
  rewrite <- Hlen, Hj. unfold lift, index.
  destruct (population !! j) as [a'|] eqn:Ha; [|done].
  intros [= <- _]. by exists j, p.
Qed.

Section UpdatePlayer.
Context {Card Action GameState SuitHand SuitHist Mean Rng AbsCard AbsHist : Type}.
Context `{!EqDecision Card, !EqDecision Action}.
Context `{!EqDecision AbsCard, !Countable AbsCard}.
Context `{!EqDecision AbsHist, !Countable AbsHist}.
Context `{!Game Card Action GameState SuitHand SuitHist Mean Rng}.
Context `{!Abstraction SuitHand SuitHist Action Mean AbsCard AbsHist}.
Context `{!RandomSource Rng}.

Abbreviation Key := (InfoKey (AbsCard:=AbsCard) (AbsHist:=AbsHist)).
Abbreviation Store := (gmap Key Infoset.t).
Abbreviation World := (Store * Rng)%type.
Implicit Types (d : Store) (k : Key) (s : GameState).
Implicit Types (w : World) (rp : list Q) (u n : nat).

(** X13.  At a node of the player it updates, [external_cfr] does the
    full update of chance-sampled CFR: it adds to the strategy sum with
    the player's reach probability, runs every action's child with that
    reach probability multiplied by the action's probability, takes the
    dot product with the strategy as the node value, and adds to every
    regret the opponent's reach probability times (the action's value
    minus the node value).  The generator is the one the last child
    left. *)
Theorem external_cfr_full_update n s rp u w :
  wf_store w.1 → terminal s = false →
  2 ≤ length (get_possible_actions s) →
  playable (S n) s = true → length rp = 2 →
  player s = u →
  let pl := player s in
  let opponent := (pl + 1) mod 2 in
  let k := get_info_key s in
  let infoset := deref w.1 k in
  let strategy := Infoset.regret_matching infoset in
  ∃ (r_player r_opponent : Q) (counterfactual_values : list Q)
    (w3 : World) (node_value : Q) (w' : World),
    external_cfr (S (S n)) s rp u w = Ok (node_value, w') ∧
    rp !! pl = Some r_player ∧
    rp !! opponent = Some r_opponent ∧
    child_runs (λ s rp, external_cfr (S n) s rp u) s rp pl strategy 0 (-1)%Q
      (get_possible_actions s)
      (<[k := Infoset.update_strategy_sum r_player infoset]> w.1, w.2)
      counterfactual_values w3 ∧
    dot counterfactual_values strategy = Ok node_value ∧
    w' = (<[k := add_regrets
                   (map (λ cf, r_opponent * (cf - node_value))%Q
                      counterfactual_values)
                   (deref w3.1 k)]> w3.1, w3.2).
Proof.
  intros Hw Ht Hacts Hs Hrp Hu pl opponent k infoset strategy.
  destruct (playable_S _ _ Ht Hs) as (Hne & Hpl & Hch).
  assert (returns
            (update_node (@on_dict _ _ _ _ _ _ _)
               (λ s rp, external_cfr (S n) s rp u) s rp
               (get_possible_actions s)) w
            (λ v w', all_actions_node (λ s rp, external_cfr (S n) s rp u)
                       fst (λ d (w : World), (d, w.2)) s rp w v w'
                     ∧ wf_store w'.1))
    as (v & w' & Hrun & Hnode & _).
  { apply (update_node_returns fst (λ d (w : World), (d, w.2))
             (@on_dict _ _ _ _ _ _ _)
             (λ s rp, external_cfr (S n) s rp u)
             (λ w, wf_store w.1)); try done.
    - intros w1 i Hw1 Hi. by apply wf_store_insert.
    - intros a rp' w1 Ha Hrp' Hw1. eapply returns_mono.
      + apply external_cfr_returns; [done|by apply Hch|done].
      + by intros v' w2 [? _]. }
  destruct Hnode as (r_pl & r_opp & cfv & w3 & Hr & Hopp & Hruns & Hdot & ->).
  exists r_pl, r_opp, cfv, w3, v. eexists. split_and!; [|done..].
  rewrite external_cfr_update_eq by (done || lia). exact Hrun.
Qed.

(** The run of [get_exploitability], with the loops of its two passes. *)
Lemma get_exploitability_run n (iterations : nat) w :
  wf_store w.1 → samples_playable n →
  forallb (λ deal, playable n (deal_state deal)) deals = true →
  handsize (Card:=Card) * 2 ≤ length (deck2 (Card:=Card)) →
  let pass (update_player : nat) :=
    for_loop (λ _ _,
        let! game_state := on_rng (λ g, Ok (sample_new_game g)) in
        let! _ := external_cfr (S n) game_state (ones 2) update_player in
        ret ())
      (seq 0 iterations) () in
  ∃ (utils1 utils2 : list Q) (w1 w2 : World) (b1 b2 : Q) (d1 d2 : Store),
    traversals_run (S n) (replicate iterations 0) w utils1 w1 ∧
    pass 0 w = Ok ((), w1) ∧
    evaluate (S n) w1.1 = Ok (b1, d1) ∧
    pass 1 (w.1, w1.2) = Ok ((), w2) ∧
    evaluate (S n) w2.1 = Ok (b2, d2) ∧
    get_exploitability (S n) iterations w = Ok ((b1 - b2)%Q, (w.1, w2.2)).
Proof.
  intros Hw Hplay Hdeals Hsize pass.
  destruct (exploitability_pass n 0 iterations Hplay 0 w Hw)
    as (utils1 & w1 & Hpass1 & Hruns1 & Hw1).
  destruct (evaluate_total n w1.1 Hw1 Hdeals Hsize) as (value1 & _ & Heval1).
  destruct (exploitability_pass n 1 iterations Hplay 0 (w.1, w1.2) Hw)
    as (utils2 & w2 & Hpass2 & Hruns2 & Hw2).
  destruct (evaluate_total n w2.1 Hw2 Hdeals Hsize) as (value2 & _ & Heval2).
  eexists utils1, utils2, w1, w2, _, _, _, _.
  split_and!; [exact Hruns1|exact Hpass1|exact Heval1|exact Hpass2|exact Heval2|].
  unfold get_exploitability. unfold bind at 1. unfold get at 1.
  unfold bind at 1. rewrite Hpass1.
  unfold bind at 1. unfold on_dict at 1. unfold zoom at 1. rewrite Heval1.
  unfold bind at 1. unfold on_dict at 1. unfold zoom at 1. unfold put at 1.
  cbn [fst snd].
  unfold bind at 1. rewrite Hpass2.
  unfold bind at 1. unfold on_dict at 1. unfold zoom at 1. rewrite Heval2.
  unfold bind at 1. unfold on_dict at 1. unfold zoom at 1. unfold put at 1.
  cbn [fst snd]. done.
Qed.

End UpdatePlayer.

(** ** Playing against the strategy *)

Lemma returned_Ok {S A} (o : outcome (A * S)) :
  returned o = true → ∃ a s, o = Ok (a, s).
Proof. destruct o as [[a s]| |]; [by eexists _, _|done..]. Qed.

Section PlayFacts.
Context {Card Action GameState SuitHand SuitHist Mean Rng AbsCard AbsHist : Type}.
Context `{!EqDecision Card, !EqDecision Action}.
Context `{!EqDecision AbsCard, !Countable AbsCard}.
Context `{!EqDecision AbsHist, !Countable AbsHist}.
Context `{!Game Card Action GameState SuitHand SuitHist Mean Rng}.
Context `{!Abstraction SuitHand SuitHist Action Mean AbsCard AbsHist}.
Context `{!RandomSource Rng}.
Context {In : Type} `{!Console In}.
Context (state_4 : GameState → Q).

Abbreviation Key := (InfoKey (AbsCard:=AbsCard) (AbsHist:=AbsHist)).
Abbreviation Store := (gmap Key Infoset.t).
Abbreviation Table := (Store * Rng * In)%type.
Implicit Types (d : Store) (k : Key) (s : GameState) (U : Key → Prop).
Implicit Types (t : Table) (fuel first_player : nat) (verbose : bool).

(** The relation on tables: the dictionaries are related by writes. *)
Abbreviation table_writes U := (λ t t' : Table, writes U t.1.1 t'.1.1).

Lemma table_writes_preorder U : PreOrder (table_writes U).
Proof.
  split.
  - intros t. reflexivity.
  - intros t1 t2 t3 H12 H23. by etrans.
Qed.

Lemma at_dict_writes {A} U (m : M Store A) :
  preserves (writes U) m → preserves (table_writes U) (at_dict m).
Proof.
  intros Hm. unfold at_dict.
  by apply (preserves_zoom (writes U) (λ t : Table, t.1.1)).
Qed.

Lemma at_rng_writes {A} U (m : M Rng A) : preserves (table_writes U) (at_rng m).
Proof.
  intros [[d g] c] a t'. unfold at_rng, zoom. simpl.
  destruct (m g) as [[a' g']| |]; [|done..]. intros [= _ <-]. reflexivity.
Qed.

Lemma at_console_writes {A} U (m : M In A) :
  preserves (table_writes U) (at_console m).
Proof.
  intros [[d g] c] a t'. unfold at_console, zoom. simpl.
  destruct (m c) as [[a' c']| |]; [|done..]. intros [= _ <-]. reflexivity.
Qed.

Lemma play_loop_writes fuel first_player s :
  preserves (table_writes (λ _, False)) (play_loop fuel first_player s).
Proof.
  pose proof (table_writes_preorder (λ _ : Key, False)) as Hpo.
  revert s. induction fuel as [|fuel IH]; intros s; [by intros ???|].
  cbn [play_loop]. destruct (terminal s); [by apply preserves_ret|].
  destruct (decide (player s = first_player)) as [Hme|Hother].
  - apply preserves_bind; [done|apply at_console_writes|]. intros z.
    apply preserves_bind; [done|by apply preserves_lift|]. intros a.
    apply IH.
  - assert (preserves (table_writes (λ _, False))
              (let! infoset := at_dict (get_infoset (get_info_key s)) in
               let! action :=
                 at_rng (choices (get_possible_actions s)
                           (Infoset.get_average_strategy infoset)) in
               play_loop fuel first_player (get_next_game_state s action)))
      as Hnode.
    { apply preserves_bind; [done|apply at_dict_writes, get_infoset_writes|].
      intros infoset.
      apply preserves_bind; [done|apply at_rng_writes|]. intros a. apply IH. }
    destruct (get_possible_actions s) as [|a [|b l]]; [done|apply IH|done].
Qed.

Lemma play_round_writes fuel first_player verbose :
  preserves (table_writes (λ _, False))
    (play_round state_4 fuel first_player verbose).
Proof.
  pose proof (table_writes_preorder (λ _ : Key, False)) as Hpo.
  unfold play_round.
  apply preserves_bind; [done|apply at_rng_writes|]. intros s.
  apply preserves_bind; [done|apply play_loop_writes|]. intros s'.
  by apply preserves_ret.
Qed.

Lemma play_game_loop_writes fuel (ws : Q) verbose (s1 s2 : Q) (i : nat) :
  preserves (table_writes (λ _, False))
    (play_game_loop state_4 fuel ws verbose s1 s2 i).
Proof.
  pose proof (table_writes_preorder (λ _ : Key, False)) as Hpo.
  revert s1 s2 i. induction fuel as [|fuel IH]; intros s1 s2 i;
    [by intros ???|].
  cbn [play_game_loop].
  destruct (Qlt_le_dec s1 ws); [|by apply preserves_ret].
  destruct (Qlt_le_dec s2 ws); [|by apply preserves_ret].
  apply preserves_bind; [done|apply play_round_writes|]. intros payoff.
  destruct (Qlt_le_dec _ 0); apply IH.
Qed.

(** X14.  Playing a round never changes an infoset of the dictionary:
    after [play_round] has returned, every key has the entry it had, or
    a newly created infoset where there was none (an opponent node that
    training never reached). *)
Theorem play_round_only_creates fuel first_player verbose t (v : Q) t' :
  play_round state_4 fuel first_player verbose t = Ok (v, t') →
  ∀ k, t'.1.1 !! k = t.1.1 !! k ∨
       (t.1.1 !! k = None ∧
        t'.1.1 !! k = Some (Infoset.new (num_actions k))).
Proof.
  intros Hrun k. apply play_round_writes in Hrun.
  eapply writes_kept; [exact Hrun|]. by intros [].
Qed.

(** X15.  The index a player types is only checked from above, so a
    negative index is accepted.  At a node of the human player, when
    the line typed is a negative integer [z]: if [-len <= z] the
    action played is the one at position [len + z], counted from the
    end of the possible actions; below that the round ends with
    IndexError. *)
Theorem play_loop_negative_index fuel first_player s t (z : Z) (c' : In) :
  terminal s = false → player s = first_player →
  read_int t.2 = (Some z, c') → (z < 0)%Z →
  let len := Z.of_nat (length (get_possible_actions s)) in
  ((- len <= z)%Z →
     ∃ action,
       get_possible_actions s !! Z.to_nat (len + z) = Some action ∧
       play_loop (S fuel) first_player s t
       = play_loop fuel first_player (get_next_game_state s action) (t.1, c')) ∧
  ((z < - len)%Z →
     play_loop (S fuel) first_player s t = Raise IndexError).
Proof.
  intros Ht Hme Hread Hneg len.
  assert (play_loop (S fuel) first_player s t =
          (let! action := lift (py_getitem (get_possible_actions s) z) in
           play_loop fuel first_player (get_next_game_state s action))
            (t.1, c')) as Hstep.
  { cbn [play_loop]. rewrite Ht, decide_True by done.
    unfold bind at 1. unfold at_console, zoom. cbn [ask_index].
    unfold bind at 1. rewrite Hread.
    rewrite decide_False by (fold len; lia). done. }
  rewrite Hstep. unfold bind, lift, py_getitem.
  rewrite (decide_True (P:=(z < 0)%Z)) by done. fold len. split.
  - intros Hin. rewrite decide_False by lia.
    destruct (lookup_lt_is_Some_2 (get_possible_actions s)
                (Z.to_nat (len + z))) as [a Ha]; [lia|].
    exists a. split; [done|].
    replace (z + len)%Z with (len + z)%Z by lia.
    by rewrite (index_Some _ _ _ Ha).
  - intros Hout. by rewrite decide_True by lia.
Qed.

(** What the loop that asks for an index has read when it returns. *)
Lemma ask_index_inv fuel (possible_actions : list Action)
    (c : In) (z : Z) (c' : In) :
  ask_index fuel possible_actions c = Ok (z, c') →
  let len := Z.of_nat (length possible_actions) in
  let after (n : nat) := Nat.iter n (λ c, (read_int c).2) c in
  (z <= len - 1)%Z ∧
  ∃ n, n < fuel ∧
    (read_int (after n)).1 = Some z ∧ c' = after (S n) ∧
    ∀ m, m < n →
      match (read_int (after m)).1 with
      | None => True
      | Some y => (y > len - 1)%Z
      end.
Proof.
  revert c. induction fuel as [|fuel IH]; intros c; [done|].
  intros Hrun len after. cbn [ask_index] in Hrun. unfold bind at 1 in Hrun.
  destruct (read_int c) as [typed c1] eqn:Hread.
  assert (match typed with None => True | Some y => (y > len - 1)%Z end →
          ask_index fuel possible_actions c1 = Ok (z, c') →
          (z <= len - 1)%Z ∧
          ∃ n, n < S fuel ∧
            (read_int (after n)).1 = Some z ∧ c' = after (S n) ∧
            ∀ m, m < n →
              match (read_int (after m)).1 with
              | None => True
              | Some y => (y > len - 1)%Z
              end)
    as Hskip.
  { intros Hrejected Hrest.
    destruct (IH c1 Hrest) as (Hz & n & Hn & Hzn & Hc' & Hbefore).
    assert (∀ j : nat, after (S j) = Nat.iter j (λ c, (read_int c).2) c1)
      as Hafter.
    { intros j. unfold after. rewrite Nat.iter_succ_r. by rewrite Hread. }
    split; [done|]. exists (S n). split_and!; [lia|by rewrite Hafter..|].
    intros [|m] Hm.
    - change (after 0) with c. by rewrite Hread.
    - rewrite Hafter. apply Hbefore. lia. }
  destruct typed as [y|]; [|by apply Hskip].
  destruct (decide (y > len - 1)%Z) as [Hbig|Hok].
  - rewrite decide_True in Hrun by done. by apply Hskip.
  - rewrite decide_False in Hrun by done. injection Hrun as <- <-.
    split; [lia|]. exists 0. split_and!; [lia| | |intros m; lia].
    + change (after 0) with c. by rewrite Hread.
    + change (after 1) with (read_int c).2. by rewrite Hread.
Qed.

(** The loop returns when a line it can read is acceptable. *)
Lemma ask_index_returns fuel (possible_actions : list Action) :
  ∀ (c : In) (n : nat) (z : Z),
    n < fuel →
    (read_int (Nat.iter n (λ c, (read_int c).2) c)).1 = Some z →
    (z <= Z.of_nat (length possible_actions) - 1)%Z →
    ∃ (n0 : nat) (z0 : Z),
      n0 ≤ n ∧
      (read_int (Nat.iter n0 (λ c, (read_int c).2) c)).1 = Some z0 ∧
      (z0 <= Z.of_nat (length possible_actions) - 1)%Z ∧
      (∀ m, m < n0 →
         match (read_int (Nat.iter m (λ c, (read_int c).2) c)).1 with
         | None => True
         | Some y => (y > Z.of_nat (length possible_actions) - 1)%Z
         end) ∧
      ask_index fuel possible_actions c
      = Ok (z0, Nat.iter (S n0) (λ c, (read_int c).2) c).
Proof.
  induction fuel as [|fuel IH]; intros c n z Hn Hz Hle; [lia|].
  cbn [ask_index]. unfold bind at 1.
  destruct (read_int c) as [typed c1] eqn:Hread.
  assert (∀ j : nat, Nat.iter (S j) (λ c, (read_int c).2) c
                     = Nat.iter j (λ c, (read_int c).2) c1) as Hafter.
  { intros j. rewrite Nat.iter_succ_r. by rewrite Hread. }
  assert (match typed with
          | None => True
          | Some y => (y > Z.of_nat (length possible_actions) - 1)%Z
          end →
          ∃ (n0 : nat) (z0 : Z),
            n0 ≤ n ∧
            (read_int (Nat.iter n0 (λ c, (read_int c).2) c)).1 = Some z0 ∧
            (z0 <= Z.of_nat (length possible_actions) - 1)%Z ∧
            (∀ m, m < n0 →
               match (read_int (Nat.iter m (λ c, (read_int c).2) c)).1 with
               | None => True
               | Some y => (y > Z.of_nat (length possible_actions) - 1)%Z
               end) ∧
            ask_index fuel possible_actions c1
            = Ok (z0, Nat.iter (S n0) (λ c, (read_int c).2) c)) as Hskip.
  { intros Hrejected. destruct n as [|n].
    { exfalso. change (Nat.iter 0 (λ c, (read_int c).2) c) with c in Hz.
      rewrite Hread in Hz. cbn [fst] in Hz. subst typed. lia. }
    rewrite Hafter in Hz.
    destruct (IH c1 n z ltac:(lia) Hz Hle)
      as (n0 & z0 & Hn0 & Hz0 & Hle0 & Hbefore & Hrun).
    exists (S n0), z0. split_and!; [lia|by rewrite Hafter|done| |].
    - intros [|m] Hm.
      + change (Nat.iter 0 (λ c, (read_int c).2) c) with c.
        by rewrite Hread.
      + rewrite Hafter. apply Hbefore. lia.
    - by rewrite Hafter. }
  destruct typed as [y|]; [|by apply Hskip].
  destruct (decide (y > Z.of_nat (length possible_actions) - 1)%Z)
    as [Hbig|Hok]; [by apply Hskip|].
  exists 0, y. split_and!; [lia| |lia|intros m; lia|].
  - change (Nat.iter 0 (λ c, (read_int c).2) c) with c. by rewrite Hread.
  - change (Nat.iter 1 (λ c, (read_int c).2) c) with (read_int c).2.
    by rewrite Hread.
Qed.

(** X20.  The loop that asks for an index returns the first line typed
    that holds an integer not above [len(possible_actions) - 1].  When
    one of the lines it can read is such a line, the loop returns: its
    result is the first such line, the lines before it did not hold an
    integer or held a larger one, and every line up to it has been read
    once.  And the loop returns nothing else. *)
Theorem ask_index_first_accepted fuel (possible_actions : list Action)
    (c : In) :
  let len := Z.of_nat (length possible_actions) in
  let after (n : nat) := Nat.iter n (λ c, (read_int c).2) c in
  let accepted (n : nat) (z : Z) :=
    (read_int (after n)).1 = Some z ∧ (z <= len - 1)%Z in
  let rejected (n : nat) :=
    match (read_int (after n)).1 with
    | None => True
    | Some y => (y > len - 1)%Z
    end in
  (∀ n z, n < fuel → accepted n z →
     ∃ n0 z0,
       n0 ≤ n ∧ accepted n0 z0 ∧ (∀ m, m < n0 → rejected m) ∧
       ask_index fuel possible_actions c = Ok (z0, after (S n0))) ∧
  (∀ z c', ask_index fuel possible_actions c = Ok (z, c') →
     ∃ n, n < fuel ∧ accepted n z ∧ c' = after (S n) ∧
          ∀ m, m < n → rejected m).
Proof.
  intros len after accepted rejected. split.
  - intros n z Hn [Hz Hle].
    destruct (ask_index_returns fuel possible_actions c n z Hn Hz Hle)
      as (n0 & z0 & Hn0 & Hz0 & Hle0 & Hbefore & Hrun).
    exists n0, z0. by split_and!.
  - intros z c' Hrun.
    destruct (ask_index_inv fuel possible_actions c z c' Hrun)
      as (Hle & n & Hn & Hz & Hc' & Hbefore).
    exists n. by split_and!.
Qed.

Lemma play_game_loop_scores fuel (ws : Q) verbose (s1 s2 : Q) (i : nat)
    t (r1 r2 : Q) t' :
  (s1 < ws ∨ s2 < ws)%Q →
  play_game_loop state_4 fuel ws verbose s1 s2 i t = Ok ((r1, r2), t') →
  (ws <= r1 ∧ r2 < ws)%Q ∨ (ws <= r2 ∧ r1 < ws)%Q.
Proof.
  revert s1 s2 i t. induction fuel as [|fuel IH]; intros s1 s2 i t Hone;
    [done|].
  cbn [play_game_loop].
  destruct (Qlt_le_dec s1 ws) as [H1|H1].
  - destruct (Qlt_le_dec s2 ws) as [H2|H2].
    + unfold bind.
      destruct (play_round _ _ _ _ _) as [[payoff t1]| |]; [|done..].
      destruct (Qlt_le_dec _ 0); apply IH; auto.
    + intros [= <- <- _]. right. done.
  - intros [= <- <- _]. left. split; [done|].
    destruct Hone as [Hone|Hone]; [|done].
    exfalso. by apply (Qlt_not_le _ _ Hone).
Qed.

(** X16.  When [play_game] returns with a positive winning score,
    exactly one of the two scores has reached it: the loop stops at the
    first round that takes a score to [winning_score].  With a winning
    score that is not positive no round is played and the result is
    (0, 0).  In both cases no infoset of the dictionary has changed. *)
Theorem play_game_final_score fuel (winning_score : Q) verbose t
    (score1 score2 : Q) t' :
  play_game state_4 fuel winning_score verbose t = Ok ((score1, score2), t') →
  (if Qlt_le_dec 0 winning_score
   then (winning_score <= score1 ∧ score2 < winning_score)%Q ∨
        (winning_score <= score2 ∧ score1 < winning_score)%Q
   else score1 = 0%Q ∧ score2 = 0%Q ∧ t' = t) ∧
  ∀ k, t'.1.1 !! k = t.1.1 !! k ∨
       (t.1.1 !! k = None ∧
        t'.1.1 !! k = Some (Infoset.new (num_actions k))).
Proof.
  unfold play_game. intros Hrun. split.
  - destruct (Qlt_le_dec 0 winning_score) as [Hpos|Hle].
    + eapply play_game_loop_scores; [|exact Hrun]. by left.
    + destruct fuel as [|fuel]; [done|]. cbn [play_game_loop] in Hrun.
      destruct (Qlt_le_dec 0 winning_score) as [Hpos|_].
      { exfalso. by apply (Qlt_not_le _ _ Hpos). }
      by injection Hrun as <- <- <-.
  - intros k. apply play_game_loop_writes in Hrun.
    eapply writes_kept; [exact Hrun|]. by intros [].
Qed.

End PlayFacts.

(** ** The dictionary as an object *)

Lemma bind_Ok {S A B} (m : M S A) (k : A → M S B) s a s' r :
  m s = Ok (a, s') → k a s' = r → bind m k s = r.
Proof. intros Hm Hk. unfold bind. by rewrite Hm. Qed.

Section ObjectFacts.
Context {Card Action GameState SuitHand SuitHist Mean Rng AbsCard AbsHist : Type}.
Context `{!EqDecision Card, !EqDecision Action}.
Context `{!EqDecision AbsCard, !Countable AbsCard}.
Context `{!EqDecision AbsHist, !Countable AbsHist}.
Context `{!Game Card Action GameState SuitHand SuitHist Mean Rng}.
Context `{!Abstraction SuitHand SuitHist Action Mean AbsCard AbsHist}.
Context `{!RandomSource Rng}.

Abbreviation Key := (InfoKey (AbsCard:=AbsCard) (AbsHist:=AbsHist)).
Abbreviation Store := (gmap Key Infoset.t).
Abbreviation World := (Store * Rng)%type.
Abbreviation Self := (Objects.Self (Rng:=Rng) (AbsCard:=AbsCard) (AbsHist:=AbsHist)).
Implicit Types (d : Store) (w : World) (self : Self) (h : list Store).

Lemma in_place_Ok {A} (m : M World A) self (x : A) w :
  m (Objects.dict_at self (Objects.infoset_dict self), Objects.generator self)
  = Ok (x, w) →
  Objects.in_place m self =
    Ok (x, Objects.mk_self
             (<[Objects.infoset_dict self := w.1]> (Objects.heap self))
             (Objects.infoset_dict self) (Objects.infoset_data_0 self) w.2).
Proof. intros Hm. unfold Objects.in_place, zoom. by rewrite Hm. Qed.

Lemma dict_at_insert h (a a0 : nat) (g : Rng) (ref : nat) d :
  ref < length h →
  Objects.dict_at (Objects.mk_self (<[ref := d]> h) a a0 g) ref = d.
Proof.
  intros Hlt. unfold Objects.dict_at. simpl.
  by rewrite list_lookup_insert_eq.
Qed.

Lemma dict_at_insert_ne h (a a0 : nat) (g g' : Rng) (ref ref' : nat) d :
  ref ≠ ref' →
  Objects.dict_at (Objects.mk_self (<[ref := d]> h) a a0 g) ref'
  = Objects.dict_at (Objects.mk_self h a a0 g') ref'.
Proof.
  intros Hne. unfold Objects.dict_at. simpl.
  by rewrite list_lookup_insert_ne.
Qed.

Lemma dict_at_new h (a a0 : nat) (g : Rng) d :
  Objects.dict_at (Objects.mk_self (h ++ [d]) a a0 g) (length h) = d.
Proof.
  unfold Objects.dict_at. simpl.
  by rewrite lookup_app_r, Nat.sub_diag by lia.
Qed.

Lemma dict_at_old h (a a0 : nat) (g g' : Rng) (ref : nat) d :
  ref < length h →
  Objects.dict_at (Objects.mk_self (h ++ [d]) a a0 g) ref
  = Objects.dict_at (Objects.mk_self h a a0 g') ref.
Proof.
  intros Hlt. unfold Objects.dict_at. simpl. by rewrite lookup_app_l.
Qed.

(** X19.  [get_exploitability] restores [self.infoset_dict] by binding
    the attribute to a new copy, so the tuple [self.infoset_data], which
    [__init__] made refer to the same object, is left behind: when both
    referred to one dictionary before the call, afterwards
    [infoset_dict] is a new object with the content of before, while
    [infoset_data[0]] is still the old object, and its content is the
    dictionary as the first pass and the first evaluation left it.  The
    value returned and the generator are those of the method on
    dictionary values. *)
Theorem get_exploitability_leaves_infoset_data_behind n (iterations : nat) self :
  Objects.infoset_data_0 self = Objects.infoset_dict self →
  Objects.infoset_dict self < length (Objects.heap self) →
  wf_store (Objects.dict_at self (Objects.infoset_dict self)) →
  samples_playable n →
  forallb (λ deal, playable n (deal_state deal)) deals = true →
  handsize (Card:=Card) * 2 ≤ length (deck2 (Card:=Card)) →
  let d := Objects.dict_at self (Objects.infoset_dict self) in
  ∃ (utils1 : list Q) (w1 : World) (b1 : Q) (d1 : Store) (v : Q) (self' : Self),
    traversals_run (S n) (replicate iterations 0)
      (d, Objects.generator self) utils1 w1 ∧
    evaluate (S n) w1.1 = Ok (b1, d1) ∧
    Objects.get_exploitability (S n) iterations self = Ok (v, self') ∧
    get_exploitability (S n) iterations (d, Objects.generator self)
    = Ok (v, (d, Objects.generator self')) ∧
    Objects.dict_at self' (Objects.infoset_dict self') = d ∧
    Objects.infoset_dict self' ≠ Objects.infoset_data_0 self' ∧
    Objects.infoset_data_0 self' = Objects.infoset_data_0 self ∧
    Objects.dict_at self' (Objects.infoset_data_0 self') = d1.
Proof.
  destruct self as [h a a0 g]. cbn [Objects.infoset_data_0 Objects.infoset_dict
    Objects.heap Objects.generator].
  set (d := Objects.dict_at _ a).
  intros -> Ha Hd Hplay Hdeals Hsize.
  destruct (get_exploitability_run n iterations (d, g) Hd Hplay Hdeals Hsize)
    as (utils1 & utils2 & w1 & w2 & b1 & b2 & d1 & d2
        & Hruns1 & Hpass1 & Heval1 & Hpass2 & Heval2 & Hvalue).
  cbn [fst] in Hpass2, Hvalue.
  pose (c := length h).
  pose (h3 := <[a := d1]> (<[a := w1.1]> (h ++ [d]))).
  pose (f1 := length h3).
  pose (h7 := <[f1 := d2]> (<[f1 := w2.1]> (h3 ++ [d]))).
  pose (f2 := length h7).
  pose (o1 := Objects.mk_self (h ++ [d]) a a g).
  pose (o2 := Objects.mk_self (<[a := w1.1]> (h ++ [d])) a a w1.2).
  pose (o3 := Objects.mk_self h3 a a w1.2).
  pose (o4 := Objects.mk_self (h3 ++ [d]) a a w1.2).
  pose (o5 := Objects.mk_self (h3 ++ [d]) f1 a w1.2).
  pose (o6 := Objects.mk_self (<[f1 := w2.1]> (h3 ++ [d])) f1 a w2.2).
  pose (o7 := Objects.mk_self h7 f1 a w2.2).
  pose (o8 := Objects.mk_self (h7 ++ [d]) f1 a w2.2).
  pose (o9 := Objects.mk_self (h7 ++ [d]) f2 a w2.2).
  assert (length h3 = S c) as Hh3.
  { unfold h3. rewrite !length_insert, length_app. simpl. unfold c. lia. }
  assert (length h7 = S f1) as Hh7.
  { unfold h7. rewrite !length_insert, length_app. simpl. unfold f1. lia. }
  assert (Objects.dict_at o1 a = d) as E1.
  { unfold o1. by rewrite (dict_at_old _ _ _ _ g). }
  assert (Objects.dict_at o2 a = w1.1) as E2.
  { unfold o2. apply dict_at_insert. rewrite length_app. simpl. lia. }
  assert (Objects.dict_at o3 c = d) as E3.
  { unfold o3, h3.
    rewrite !(dict_at_insert_ne _ _ _ _ w1.2) by (unfold c; lia).
    apply dict_at_new. }
  assert (Objects.dict_at o5 f1 = d) as E5.
  { unfold o5, f1. apply dict_at_new. }
  assert (Objects.dict_at o6 f1 = w2.1) as E6.
  { unfold o6. apply dict_at_insert. rewrite length_app. unfold f1. simpl. lia. }
  assert (Objects.dict_at o7 c = d) as E7.
  { unfold o7, h7.
    rewrite !(dict_at_insert_ne _ _ _ _ w2.2) by (unfold f1, c in *; lia).
    rewrite (dict_at_old _ _ _ _ w2.2) by lia. exact E3. }
  assert (Objects.in_place
            (for_loop (λ _ _,
                 let! game_state := on_rng (λ g, Ok (sample_new_game g)) in
                 let! _ := external_cfr (S n) game_state (ones 2) 0 in
                 ret ()) (seq 0 iterations) ()) o1 = Ok ((), o2)) as H2.
  { apply (in_place_Ok _ o1 () w1).
    change (Objects.infoset_dict o1) with a.
    change (Objects.generator o1) with g. rewrite E1. exact Hpass1. }
  assert (Objects.in_place (on_dict (evaluate (S n))) o2 = Ok (b1, o3)) as H3.
  { apply (in_place_Ok _ o2 b1 (d1, w1.2)).
    change (Objects.infoset_dict o2) with a.
    change (Objects.generator o2) with w1.2. rewrite E2.
    unfold on_dict, zoom. cbn [fst snd]. by rewrite Heval1. }
  assert (Objects.deepcopy c o3 = Ok (f1, o4)) as H4.
  { unfold Objects.deepcopy. by rewrite E3. }
  assert (Objects.in_place
            (for_loop (λ _ _,
                 let! game_state := on_rng (λ g, Ok (sample_new_game g)) in
                 let! _ := external_cfr (S n) game_state (ones 2) 1 in
                 ret ()) (seq 0 iterations) ()) o5 = Ok ((), o6)) as H6.
  { apply (in_place_Ok _ o5 () w2).
    change (Objects.infoset_dict o5) with f1.
    change (Objects.generator o5) with w1.2. rewrite E5. exact Hpass2. }
  assert (Objects.in_place (on_dict (evaluate (S n))) o6 = Ok (b2, o7)) as H7.
  { apply (in_place_Ok _ o6 b2 (d2, w2.2)).
    change (Objects.infoset_dict o6) with f1.
    change (Objects.generator o6) with w2.2. rewrite E6.
    unfold on_dict, zoom. cbn [fst snd]. by rewrite Heval2. }
  assert (Objects.deepcopy c o7 = Ok (f2, o8)) as H8.
  { unfold Objects.deepcopy. by rewrite E7. }
  exists utils1, w1, b1, d1, (b1 - b2)%Q, o9.
  split_and!; [exact Hruns1|exact Heval1| |exact Hvalue| | |done|].
  - unfold Objects.get_exploitability.
    eapply bind_Ok; [reflexivity|].
    eapply bind_Ok; [exact H2|].
    eapply bind_Ok; [exact H3|].
    eapply bind_Ok; [exact H4|].
    eapply bind_Ok; [reflexivity|].
    eapply bind_Ok; [exact H6|].
    eapply bind_Ok; [exact H7|].
    eapply bind_Ok; [exact H8|].
    eapply bind_Ok; [reflexivity|]. reflexivity.
  - unfold o9, f2. apply dict_at_new.
  - unfold o9. cbn [Objects.infoset_dict Objects.infoset_data_0].
    unfold f2, f1, c in *. lia.
  - unfold o9. cbn [Objects.infoset_data_0].
    rewrite (dict_at_old _ _ _ _ w2.2) by lia.
    unfold h7.
    rewrite !(dict_at_insert_ne _ _ _ _ w2.2) by (unfold f1, c in *; lia).
    rewrite (dict_at_old _ _ _ _ w2.2) by lia.
    unfold h3. apply dict_at_insert.
    rewrite length_insert, length_app. simpl. lia.
Qed.

End ObjectFacts.

(** ** The three-card instance *)

Import Toy.


Lemma evaluate_creates_infosets :
  ∃ v d', evaluate (GameState:=Toy.state) 3 (∅ : ToyStore) = Ok (v, d') ∧ d' ≠ ∅.
Proof.
  destruct (evaluate_total (GameState:=Toy.state) 2 (∅ : ToyStore))
    as (value & _ & Heval).
  - apply map_Forall_empty.
  - vm_compute. reflexivity.
  - simpl. lia.
  - eexists _, _. split; [exact Heval|].
    apply touch_all_nonempty. intros Hnil.
    apply (f_equal length) in Hnil. vm_compute in Hnil. discriminate.
Qed.

Lemma evaluate_deterministic_up_to_creation_witness :
  ∃ v d',
    evaluate (GameState:=Toy.state) 3 (∅ : ToyStore) = Ok (v, d') ∧
    evaluate (GameState:=Toy.state) 3 d' = Ok (v, d') ∧
    d' !! get_info_key Toy.root
    = Some (Infoset.mk [0; 0; 0]%Q [0; 0; 0]%Q) ∧
    d' !! (0, ∅, [], 3) = None.
Proof.
  destruct (evaluate_deterministic_up_to_creation (GameState:=Toy.state) 2
              (∅ : ToyStore))
    as (v & d' & Hfirst & Hsecond & _ & _ & Hnew & Hnone).
  - apply map_Forall_empty.
  - vm_compute. reflexivity.
  - simpl. lia.
  - exists v, d'. split_and!; [exact Hfirst|exact Hsecond| |].
    + assert (get_info_key Toy.root
              ∈ flat_map (λ deal : list nat * list nat,
                    visited 3 (Toy.start [sorted Nat.ltb deal.1;
                                          sorted Nat.ltb deal.2]))
                  (hand_pairs [0; 1; 2] 1)) as Hin.
      { apply (bool_decide_unpack _). vm_compute. exact I. }
      exact (Hnew (get_info_key Toy.root) (lookup_empty _) Hin).
    + apply Hnone; [apply lookup_empty|].
      apply (bool_decide_unpack _). vm_compute. exact I.
Defined.

Lemma evaluate_enumerates_toy_deals :
  length (deals (GameState:=Toy.state)) = 6 ∧
  ∃ v d', evaluate (GameState:=Toy.state) 3 (∅ : ToyStore) = Ok (v, d').
Proof.
  destruct (evaluate_enumerates_deals (GameState:=Toy.state) 2 (∅ : ToyStore))
    as (_ & _ & _ & Hlen & value & d' & _ & Heval & _).
  - apply (bool_decide_unpack _). vm_compute. exact I.
  - apply map_Forall_empty.
  - vm_compute. reflexivity.
  - simpl. lia.
  - split; [exact Hlen|]. eexists _, _. exact Heval.
Qed.

(** C3, where it fails.  In the three-card game, on a dictionary with one
    infoset (the first player holding card 2 always takes action 2; its
    vectors have the length its key announces): [evaluate] walks through
    the six deals and evaluates the initial states with the two hands, as
    the claim says, and divides by their number, but it returns -11/18
    where the expected payoff under the average strategy, each child under
    the sign of its own transition, is 1/18.  The value of a deal is
    taken with the signs of the loop variable [payoff], which is not set
    back after an earlier action has kept the move. *)
Theorem evaluate_is_not_the_expected_payoff :
  let k := get_info_key (AbsCard:=nat) (AbsHist:=list nat) Toy.root in
  let d : ToyStore := <[k := Infoset.mk [0; 0; 0]%Q [0; 0; 1]%Q]> ∅ in
  let initial_states :=
    [Toy.start [[0]; [1]]; Toy.start [[1]; [0]]; Toy.start [[0]; [2]];
     Toy.start [[2]; [0]]; Toy.start [[1]; [2]]; Toy.start [[2]; [1]]] in
  wf_store d ∧
  map (λ deal : list nat * list nat,
         sample_new_game_hands (GameState:=Toy.state)
           [sorted Nat.ltb deal.1; sorted Nat.ltb deal.2])
    (hand_pairs [0; 1; 2] 1)
  = initial_states ∧
  map deal_state (deals (GameState:=Toy.state)) = initial_states ∧
  choose 3 1 * choose (3 - 1) 1 = length initial_states ∧
  number_is (expected_evaluate 3 d initial_states) (1 # 18)%Q ∧
  value_is (evaluate (GameState:=Toy.state) 3 d) (-11 # 18)%Q ∧
  ¬ value_is (evaluate (GameState:=Toy.state) 3 d) (1 # 18)%Q.
Proof.
  cbv zeta. split_and!.
  - apply wf_store_insert; [apply map_Forall_empty|]. by split.
  - reflexivity.
  - reflexivity.
  - reflexivity.
  - vm_compute. reflexivity.
  - vm_compute. reflexivity.
  - intros H. vm_compute in H. discriminate.
Qed.

Lemma toy_samples_playable : samples_playable (GameState:=Toy.state) 2.
Proof.
  intros g. change (sample_new_game g) with (Toy.deal g). unfold Toy.deal.
  cbn [fst]. by destruct (Nat.even g).
Qed.

Lemma chance_cfr_full_update_witness :
  (∃ v d', chance_cfr 4 Toy.root [1; 1]%Q (∅ : ToyStore) = Ok (v, d')) ∧
  (∃ v w', train_chance 3 2 ((∅ : ToyStore), 0) = Ok (v, w')).
Proof.
  destruct (chance_cfr_full_update 2 Toy.root [1; 1]%Q (∅ : ToyStore) 2 (∅, 0))
    as [(r1 & r2 & cfv & d3 & v & d' & Hrun & _) (utils & w' & _ & _ & Htrain)].
  - apply map_Forall_empty.
  - reflexivity.
  - simpl. lia.
  - reflexivity.
  - reflexivity.
  - exact toy_samples_playable.
  - apply map_Forall_empty.
  - lia.
  - split; eauto.
Defined.

Lemma train_external_raises_without_iterations :
  train_external (GameState:=Toy.state) 3 0 ((∅ : ToyStore), 0)
  = Raise ZeroDivisionError.
Proof. reflexivity. Qed.

Lemma train_external_alternates_witness :
  ∃ utils w',
    length utils = 4 ∧
    traversals_run 3 [0; 1; 0; 1] ((∅ : ToyStore), 0) utils w' ∧
    train_external (GameState:=Toy.state) 3 2 ((∅ : ToyStore), 0)
    = Ok ((qsum utils / 4)%Q, w').
Proof.
  apply (train_external_alternates 2 2 ((∅ : ToyStore), 0)).
  - exact toy_samples_playable.
  - apply map_Forall_empty.
  - lia.
Defined.

Lemma external_cfr_samples_other_player_witness :
  ∃ action v w',
    external_cfr 4 Toy.root [1; 1]%Q 1 ((∅ : ToyStore), 0)
    = Ok ((flip_payoff (-1) Toy.root (Toy.next Toy.root action) * v)%Q, w') ∧
    deref w'.1 (get_info_key Toy.root) = deref ∅ (get_info_key Toy.root).
Proof.
  destruct (external_cfr_samples_other_player 2 Toy.root [1; 1]%Q 1
              ((∅ : ToyStore), 0))
    as (a & g' & ix & p & r & v & w' & _ & _ & _ & _ & _ & _ & Hrun & _ & Hkeep & _).
  - apply map_Forall_empty.
  - reflexivity.
  - simpl. lia.
  - reflexivity.
  - reflexivity.
  - simpl. lia.
  - exists a, v, w'. split; [exact Hrun|exact Hkeep].
Defined.

Lemma get_exploitability_restores_witness :
  ∃ b1 b2 g',
    get_exploitability (GameState:=Toy.state) 3 2 ((∅ : ToyStore), 0)
    = Ok ((b1 - b2)%Q, (∅, g')).
Proof.
  destruct (get_exploitability_restores 2 2 ((∅ : ToyStore), 0))
    as (u1 & u2 & w1 & w2 & b1 & b2 & d1 & d2 & _ & _ & _ & _ & Hrun).
  - apply map_Forall_empty.
  - exact toy_samples_playable.
  - vm_compute. reflexivity.
  - simpl. lia.
  - exists b1, b2, w2.2. exact Hrun.
Defined.

(** C1, at a node where it fails.  At the first node of the three-card game
    actions 0 and 2 pass the move and action 1 keeps it.  In each of the
    three traversals the value of the child of action 0 enters the node
    value negated, and the value of the child of action 2, an action of the
    same kind, enters it as it is: the loop variable [payoff] stays at 1
    once action 1 has set it.  With the sign taken from each transition
    alone the node would have another value. *)
Theorem sign_of_later_action_follows_earlier_one :
  let s := Toy.root in
  let child a := Toy.next s a in
  let k := get_info_key (AbsCard:=nat) (AbsHist:=list nat) s in
  let p := (1 # 3)%Q in
  let as_written (c0 c1 c2 : Q) := (p * (-1 * c0) + p * (1 * c1) + p * (1 * c2))%Q in
  let per_transition (c0 c1 c2 : Q) := (p * (-1 * c0) + p * (1 * c1) + p * (-1 * c2))%Q in
  (get_possible_actions s = [0; 1; 2] ∧
   player (child 0) ≠ player s ∧
   player (child 1) = player s ∧
   player (child 2) ≠ player s) ∧
  (let d0 : ToyStore := touch k ∅ in
   let d1 := state_after (evaluate_helper 2 (child 0) p d0) d0 in
   let d2 := state_after (evaluate_helper 2 (child 1) p d1) d1 in
   value_is (evaluate_helper 2 (child 0) p d0) (-3 # 2)%Q ∧
   value_is (evaluate_helper 2 (child 1) p d1) 1%Q ∧
   value_is (evaluate_helper 2 (child 2) p d2) (-3 # 2)%Q ∧
   value_is (evaluate_helper 3 s 1 (∅ : ToyStore)) (as_written (-3 # 2) 1 (-3 # 2))%Q ∧
   ¬ value_is (evaluate_helper 3 s 1 (∅ : ToyStore))
       (per_transition (-3 # 2) 1 (-3 # 2))%Q) ∧
  (let rp := [p; 1%Q] in
   let d0 : ToyStore :=
     <[k := Infoset.update_strategy_sum 1 (Infoset.new 3)]> ∅ in
   let d1 := state_after (chance_cfr 2 (child 0) rp d0) d0 in
   let d2 := state_after (chance_cfr 2 (child 1) rp d1) d1 in
   value_is (chance_cfr 2 (child 0) rp d0) (-3 # 2)%Q ∧
   value_is (chance_cfr 2 (child 1) rp d1) 1%Q ∧
   value_is (chance_cfr 2 (child 2) rp d2) (-3 # 2)%Q ∧
   value_is (chance_cfr 3 s [1; 1]%Q (∅ : ToyStore)) (as_written (-3 # 2) 1 (-3 # 2))%Q ∧
   ¬ value_is (chance_cfr 3 s [1; 1]%Q (∅ : ToyStore))
       (per_transition (-3 # 2) 1 (-3 # 2))%Q) ∧
  (let rp := [p; 1%Q] in
   let w0 : ToyStore * nat :=
     (<[k := Infoset.update_strategy_sum 1 (Infoset.new 3)]> ∅, 0) in
   let w1 := state_after (external_cfr 2 (child 0) rp 0 w0) w0 in
   let w2 := state_after (external_cfr 2 (child 1) rp 0 w1) w1 in
   value_is (external_cfr 2 (child 0) rp 0 w0) (-1)%Q ∧
   value_is (external_cfr 2 (child 1) rp 0 w1) 1%Q ∧
   value_is (external_cfr 2 (child 2) rp 0 w2) (-1)%Q ∧
   value_is (external_cfr 3 s [1; 1]%Q 0 ((∅ : ToyStore), 0)) (as_written (-1) 1 (-1))%Q ∧
   ¬ value_is (external_cfr 3 s [1; 1]%Q 0 ((∅ : ToyStore), 0))
       (per_transition (-1) 1 (-1))%Q).
Proof.
  cbv zeta. split; [|split; [|split]].
  - split_and!; [reflexivity|discriminate|reflexivity|discriminate].
  - split_and!; try (vm_compute; reflexivity).
    intros H. vm_compute in H. discriminate.
  - split_and!; try (vm_compute; reflexivity).
    intros H. vm_compute in H. discriminate.
  - split_and!; try (vm_compute; reflexivity).
    intros H. vm_compute in H. discriminate.
Qed.

(** ** The further properties on the three-card instance *)

Lemma chance_cfr_only_adds_witness :
  ∃ v d',
    chance_cfr 3 Toy.root [1; 1]%Q (∅ : ToyStore) = Ok (v, d') ∧
    dom (∅ : ToyStore) ⊆ dom d' ∧ wf_store d'.
Proof.
  destruct (chance_cfr_returns 2 Toy.root [1; 1]%Q (∅ : ToyStore))
    as (v & d' & Hrun & _).
  - apply map_Forall_empty.
  - reflexivity.
  - reflexivity.
  - destruct (chance_cfr_only_adds 3 Toy.root [1; 1]%Q ∅ v d' Hrun)
      as (Hdom & _ & _ & Hwf).
    exists v, d'. split_and!; [done..|]. apply Hwf, map_Forall_empty.
Defined.

Lemma training_only_adds_witness :
  ∃ v w',
    train_chance 3 2 ((∅ : ToyStore), 0) = Ok (v, w') ∧
    dom (∅ : ToyStore) ⊆ dom w'.1 ∧ wf_store w'.1.
Proof.
  destruct (train_chance_returns 2 2 ((∅ : ToyStore), 0))
    as (v & w' & Hrun).
  - exact toy_samples_playable.
  - apply map_Forall_empty.
  - lia.
  - destruct (training_only_adds 3 2 ((∅ : ToyStore), 0) v w' (or_introl Hrun))
      as (Hdom & _ & _ & Hwf).
    exists v, w'. split_and!; [done..|]. apply Hwf, map_Forall_empty.
Defined.

Lemma external_cfr_updates_one_player_witness :
  ∃ v w',
    external_cfr 3 Toy.root [1; 1]%Q 1 ((∅ : ToyStore), 0) = Ok (v, w') ∧
    ∀ k, key_player k ≠ 1 →
      w'.1 !! k = None ∨ w'.1 !! k = Some (Infoset.new (num_actions k)).
Proof.
  destruct (external_cfr_returns 2 1 Toy.root [1; 1]%Q ((∅ : ToyStore), 0))
    as (v & w' & Hrun & _).
  - apply map_Forall_empty.
  - reflexivity.
  - reflexivity.
  - destruct (external_cfr_updates_one_player 3 Toy.root [1; 1]%Q 1
                ((∅ : ToyStore), 0) v w' Hrun) as [_ Hkeep].
    exists v, w'. split; [done|]. intros k Hk.
    destruct (Hkeep k Hk) as [Hsame|[_ Hnew]]; [left|by right].
    rewrite Hsame. apply lookup_empty.
Defined.

Lemma evaluate_reads_average_strategies_witness :
  let k := get_info_key Toy.root in
  let d2 : ToyStore := <[k := Infoset.mk [5; 0; 0]%Q [0; 0; 0]%Q]> ∅ in
  omap fst (evaluate (GameState:=Toy.state) 3 (∅ : ToyStore))
  = omap fst (evaluate (GameState:=Toy.state) 3 d2).
Proof.
  intros k d2.
  apply (evaluate_reads_average_strategies (GameState:=Toy.state) 3 ∅ d2).
  intros k'. unfold d2. destruct (decide (k = k')) as [<-|Hne].
  - rewrite deref_insert. reflexivity.
  - by rewrite deref_insert_ne.
Defined.

Lemma evaluate_small_deck_witness :
  evaluate (Game0:=toy_game_with [0] 2) 3 (∅ : ToyStore) = Raise ValueError ∧
  evaluate (Game0:=toy_game_with [0; 1; 2] 2) 3 (∅ : ToyStore)
  = Raise ZeroDivisionError.
Proof.
  split.
  - apply (evaluate_small_deck (Game0:=toy_game_with [0] 2) 3 ∅).
    simpl. lia.
  - apply (evaluate_small_deck (Game0:=toy_game_with [0; 1; 2] 2) 3 ∅).
    simpl. lia.
Defined.

Lemma deals_both_seats_witness :
  ([1], [0]) ∈ deals (GameState:=Toy.state).
Proof.
  apply (deals_both_seats (GameState:=Toy.state) [0] [1]).
  - apply (bool_decide_unpack _). vm_compute. exact I.
  - apply (bool_decide_unpack _). vm_compute. exact I.
Defined.

Lemma get_exploitability_without_iterations_witness :
  ∃ b,
    get_exploitability (GameState:=Toy.state) 3 0 ((∅ : ToyStore), 0)
    = Ok ((b - b)%Q, (∅, 0)).
Proof.
  destruct (evaluate_total (GameState:=Toy.state) 2 (∅ : ToyStore))
    as (value & _ & Heval).
  - apply map_Forall_empty.
  - vm_compute. reflexivity.
  - simpl. lia.
  - eexists.
    exact (get_exploitability_without_iterations 3 ((∅ : ToyStore), 0)
             _ _ Heval).
Defined.

Lemma reach_probs_too_short_witness :
  chance_cfr 1 Toy.root [] (∅ : ToyStore) = Raise IndexError ∧
  external_cfr 1 Toy.root [] 0 ((∅ : ToyStore), 0) = Raise IndexError.
Proof.
  refine (reach_probs_too_short 0 Toy.root [] (∅ : ToyStore)
            ((∅ : ToyStore), 0) _ _ _).
  - reflexivity.
  - simpl. lia.
  - simpl. lia.
Defined.

Lemma choices_positive_weight_witness :
  ∃ ix p,
    [0; 1; 2] !! ix = Some 1 ∧
    [0; 1 # 2; 1 # 2]%Q !! ix = Some p ∧ (0 < p)%Q.
Proof.
  apply (choices_positive_weight [0; 1; 2] [0; 1 # 2; 1 # 2]%Q 0 1 1).
  - repeat constructor; vm_compute; discriminate.
  - vm_compute. discriminate.
  - vm_compute. reflexivity.
  - vm_compute. reflexivity.
Defined.

Lemma external_cfr_full_update_witness :
  ∃ (counterfactual_values : list Q) (node_value : Q) w',
    external_cfr 4 Toy.root [1; 1]%Q 0 ((∅ : ToyStore), 0)
    = Ok (node_value, w') ∧
    dot counterfactual_values (Infoset.regret_matching (Infoset.new 3))
    = Ok node_value.
Proof.
  destruct (external_cfr_full_update 2 Toy.root [1; 1]%Q 0 ((∅ : ToyStore), 0))
    as (r1 & r2 & cfv & w3 & v & w' & Hrun & _ & _ & _ & Hdot & _).
  - apply map_Forall_empty.
  - reflexivity.
  - simpl. lia.
  - reflexivity.
  - reflexivity.
  - reflexivity.
  - exists cfv, v, w'. split; [exact Hrun|exact Hdot].
Defined.

Lemma play_round_only_creates_witness :
  ∃ v t',
    play_round Toy.payoff 3 0 false ((∅ : ToyStore), 0, 0) = Ok (v, t') ∧
    ∀ k, t'.1.1 !! k = None ∨
         t'.1.1 !! k = Some (Infoset.new (num_actions k)).
Proof.
  destruct (returned_Ok (play_round Toy.payoff 3 0 false ((∅ : ToyStore), 0, 0)))
    as (v & t' & Hrun).
  - vm_compute. reflexivity.
  - exists v, t'. split; [exact Hrun|]. intros k.
    destruct (play_round_only_creates Toy.payoff 3 0 false _ v t' Hrun k)
      as [Hsame|[_ Hnew]]; [left|by right].
    rewrite Hsame. apply lookup_empty.
Defined.

Lemma play_loop_negative_index_witness :
  play_loop 3 0 Toy.root ((∅ : ToyStore), 0, 0)
  = play_loop 2 0 (Toy.next Toy.root 2) ((∅ : ToyStore), 0, 1).
Proof.
  destruct (play_loop_negative_index 2 0 Toy.root ((∅ : ToyStore), 0, 0)
              (-1) 1) as [Hin _].
  - reflexivity.
  - reflexivity.
  - reflexivity.
  - lia.
  - destruct Hin as (a & Ha & Hrun); [simpl; lia|].
    simpl in Ha. injection Ha as <-. exact Hrun.
Defined.

Lemma play_game_final_score_witness :
  ∃ score1 score2 t',
    play_game Toy.payoff 3 1 false ((∅ : ToyStore), 0, 0)
    = Ok ((score1, score2), t') ∧
    ((1 <= score1 ∧ score2 < 1)%Q ∨ (1 <= score2 ∧ score1 < 1)%Q).
Proof.
  destruct (returned_Ok (play_game Toy.payoff 3 1 false ((∅ : ToyStore), 0, 0)))
    as ([score1 score2] & t' & Hrun).
  - vm_compute. reflexivity.
  - exists score1, score2, t'. split; [exact Hrun|].
    destruct (play_game_final_score Toy.payoff 3 1 false _ score1 score2 t' Hrun)
      as [Hscore _].
    exact Hscore.
Defined.

Lemma child_values_signs_witness :
  let strategy := Infoset.regret_matching (Infoset.new 3) in
  ∃ payoff counterfactual_values d' v,
    for_loop (child_values (chance_cfr 2) Toy.root [1; 1]%Q 0 strategy)
      (enumerate [0; 1; 2]) ((-1)%Q, zeros 3) (∅ : ToyStore)
    = Ok ((payoff, counterfactual_values), d') ∧
    counterfactual_values !! 2
    = Some (sticky_sign Toy.root [0; 1; 2]%nat 2%nat * v)%Q ∧
    sticky_sign Toy.root [0; 1; 2] 2 = 1%Q ∧
    keeps_move Toy.root 2 = false.
Proof.
  intros strategy.
  destruct (returned_Ok
              (for_loop (child_values (chance_cfr 2) Toy.root [1; 1]%Q 0 strategy)
                 (enumerate [0; 1; 2]) ((-1)%Q, zeros 3) (∅ : ToyStore)))
    as ([payoff cfv] & d' & Hloop).
  - vm_compute. reflexivity.
  - destruct (child_values_signs _ _ _ _ _ _ _ _ _ _ _ Hloop 2 2 eq_refl)
      as (rp' & w1 & w2 & v & _ & Hcfv).
    exists payoff, cfv, d', v. split_and!; [exact Hloop|exact Hcfv|done..].
Defined.

Lemma partial_values_signs_witness :
  let strategy := Infoset.get_average_strategy (Infoset.new 3) in
  ∃ payoff partial_values d' v,
    for_loop (partial_value (evaluate_helper 2) Toy.root 1 strategy)
      (enumerate [0; 1; 2]) ((-1)%Q, zeros 3) (∅ : ToyStore)
    = Ok ((payoff, partial_values), d') ∧
    partial_values !! 2
    = Some (sticky_sign Toy.root [0; 1; 2]%nat 2%nat * v)%Q ∧
    sticky_sign Toy.root [0; 1; 2] 2 = 1%Q ∧
    keeps_move Toy.root 2 = false.
Proof.
  intros strategy.
  destruct (returned_Ok
              (for_loop (partial_value (evaluate_helper 2) Toy.root 1 strategy)
                 (enumerate [0; 1; 2]) ((-1)%Q, zeros 3) (∅ : ToyStore)))
    as ([payoff pv] & d' & Hloop).
  - vm_compute. reflexivity.
  - destruct (partial_values_signs _ _ _ _ _ _ _ _ _ _ Hloop 2 2 eq_refl)
      as (r' & d1 & d2 & v & _ & Hpv).
    exists payoff, pv, d', v. split_and!; [exact Hloop|exact Hpv|done..].
Defined.

Lemma get_exploitability_leaves_infoset_data_behind_witness :
  ∃ v self',
    Objects.get_exploitability (GameState:=Toy.state) 3 1
      (Objects.init (AbsCard:=nat) (AbsHist:=list nat) 0)
    = Ok (v, self') ∧
    Objects.dict_at self' (Objects.infoset_dict self') = ∅ ∧
    Objects.dict_at self' (Objects.infoset_data_0 self') ≠ ∅.
Proof.
  destruct (get_exploitability_leaves_infoset_data_behind
              (GameState:=Toy.state) 2 1
              (Objects.init (AbsCard:=nat) (AbsHist:=list nat) 0))
    as (utils1 & w1 & b1 & d1 & v & self' & _ & Heval & Hrun & _ & Hdict & _ & _
        & Hdata).
  - reflexivity.
  - simpl. lia.
  - change (wf_store (∅ : ToyStore)). apply map_Forall_empty.
  - exact toy_samples_playable.
  - vm_compute. reflexivity.
  - simpl. lia.
  - exists v, self'. split_and!; [exact Hrun|exact Hdict|].
    rewrite Hdata, (evaluate_Ok_touch _ _ _ _ Heval).
    apply touch_all_nonempty. intros Hnil.
    apply (f_equal length) in Hnil. vm_compute in Hnil. discriminate.
Defined.

Lemma ask_index_first_accepted_witness :
  ∃ n0 z0,
    n0 ≤ 1 ∧
    ask_index 2 [0; 1; 2] 0
    = Ok (z0, Nat.iter (S n0) (λ c, (read_int c).2) 0).
Proof.
  destruct (ask_index_first_accepted 2 [0; 1; 2] 0) as [Hreturns _].
  destruct (Hreturns 1 0%Z) as (n0 & z0 & Hn0 & _ & _ & Hrun).
  - lia.
  - split; [reflexivity|]. simpl. lia.
  - exists n0, z0. split; [exact Hn0|exact Hrun].
Defined.
